(** * crio: immutable collections with hash-based change detection

    A shallow embedding of [src/index.js] (the two collection classes
    [CrioArray] and [CrioObject], the normalisation [getRealValue], the
    change-detection gate [returnCorrectObject] and the deep-path engine
    [assignOnDeepMatch]) and the properties of the specification proved
    about it.

    Collections are JavaScript objects with an identity, so they live in a
    store and are named by their location; every function that may allocate
    one threads the store.  Plain arrays and objects handed to the library,
    and the transient clones it works on, are trees.

    What the embedding leaves out of JavaScript, and where a property
    depends on it the property says so in its hypotheses:
    - numbers other than the integers: there is no NaN and no fraction, and
      a string is read as a number only when it spells an array index
      ([number_like] holds of the keys whose numeric value is exact);
    - functions: a callback is a function of its arguments, and a name never
      reads a member off a prototype.  An own property that has the name of a
      member hides it, and the calls of [thaw] inside the library then throw
      ([thaw_call]); an assignment to [__proto__] goes to the setter of
      [Object.prototype] and makes no property.  [plain_names] and
      [plain_store] hold of the values and stores without such names;
    - holes: an index below [length] that is no property reads [undefined]
      and is visited by the native iterations, which is exact on an indexed
      collection, whose indices are all properties;
    - the order of property names: a name that is added goes last, which is
      exact for a name that spells no array index ([is_name]);
    - cycles: a plain value is a finite tree;
    - named properties on plain arrays, [length] apart, and properties that
      are not enumerable on plain objects.

    [./utils] is not among the sources.  Its [hash] is a parameter; the
    predicates, [hasChanged], [shallowCloneArray] and [forEach] follow the
    words of the specification, each marked where it is defined.

    Of the two classes these methods are not embedded: [join], [toString]
    and [toLocaleString], which rest on the string rendering of utils;
    [forEach], which returns nothing; and [hasOwnProperty], [isPrototypeOf],
    [propertyIsEnumerable] and [valueOf], which are those of
    [Object.prototype].  Of [sort] the order the engine leaves the clone in
    is a parameter. *)

From Stdlib Require Import ZArith Lia Ascii String.
From stdpp Require Import strings pretty.
From stdpp Require Import base decidable option list countable.

Local Open Scope string_scope.
Local Open Scope list_scope.
Local Open Scope nat_scope.
Set Warnings "-register-all,-notation-for-abbreviation".

(** ** JavaScript values *)

(** A property key.  JavaScript keys are strings; the strings that spell an
    array index ("0", "1", ...) are kept apart as [KIdx], every other name is
    a [KStr]. *)
Inductive key :=
  | KIdx (i : nat)
  | KStr (s : string).

Global Instance key_eq_dec : EqDecision key.
Proof. solve_decision. Defined.

(** A location of the store. *)
Notation loc := nat (only parsing).

(** Numbers are the integers; functions, dates and the like are not
    represented.  [VArr] and [VObj] are plain (mutable) arrays and objects, a
    [VObj] listing its own properties in enumeration order; [VCrio] is a
    reference to a frozen collection of the store. *)
Inductive value :=
  | VUndef
  | VNull
  | VBool (b : bool)
  | VNum (z : Z)
  | VStr (s : string)
  | VArr (items : list value)
  | VObj (fields : list (key * value))
  | VCrio (l : loc).

(** [$$type]: which of the two classes an instance belongs to. *)
Inductive kind := CrioArrayT | CrioObjectT.

Global Instance kind_eq_dec : EqDecision kind.
Proof. solve_decision. Defined.

Definition CRIO_ARRAY_TYPE := "CrioArray".
Definition CRIO_OBJECT_TYPE := "CrioObject".

(** An instance of [CrioArray] or [CrioObject]: its class, the two hidden
    (non-enumerable) own properties [$$hashCode] and [length], and its
    enumerable own properties in enumeration order. *)
Record frozen := mkFrozen {
  c_type : kind;
  c_hashCode : Z;
  c_length : nat;
  c_slots : list (key * value)
}.

(** The store: the instances made so far, by location. *)
Notation store := (list frozen) (only parsing).

Definition NATIVE_KEYS : list key :=
  [KStr "$$hashCode"; KStr "$$type"; KStr "length"].

(** [!~NATIVE_KEYS.indexOf(key)] is [negb (is_native key)]. *)
Definition is_native (k : key) : bool := bool_decide (k ∈ NATIVE_KEYS).

(** ** Errors and the store monad *)

(** [ArgumentError] is the error "Must provide keys as an array", and
    [RangeError] the error "Cannot set a key for sparsed array on crio
    objects"; the two [Native] ones are thrown by the language itself.
    [OutsideModel] marks a call whose outcome rests on code that is not in
    [src/] (see [CrioArray_new]). *)
Inductive error :=
  | ArgumentError
  | RangeError
  | NativeTypeError
  | NativeRangeError
  | OutsideModel.

Global Instance error_eq_dec : EqDecision error.
Proof. solve_decision. Defined.

Inductive result (A : Type) :=
  | Ok (a : A)
  | Throw (e : error).
Arguments Ok {A} a.
Arguments Throw {A} e.

Definition M (A : Type) := store → result A * store.

Definition ret {A} (a : A) : M A := λ st, (Ok a, st).
Definition throw {A} (e : error) : M A := λ st, (Throw e, st).
Definition bind {A B} (m : M A) (f : A → M B) : M B :=
  λ st, match m st with
        | (Ok a, st') => f a st'
        | (Throw e, st') => (Throw e, st')
        end.
Definition lift {A} (r : result A) : M A := λ st, (r, st).
Notation "'let*' x ':=' m 'in' k" := (bind m (λ x, k))
  (at level 10, x name, m at level 100, k at level 200, only parsing).

(** [new]: a fresh instance goes to the end of the store. *)
Definition alloc (c : frozen) (st : store) : value * store :=
  (VCrio (length st), st ++ [c]).

(** ** Property access *)

Fixpoint field_lookup (k : key) (fs : list (key * value)) : option value :=
  match fs with
  | [] => None
  | (k', v) :: r => if decide (k' = k) then Some v else field_lookup k r
  end.

(** [object[key] = v] on a plain object: an existing property keeps its
    place, a new one goes last.  JavaScript lists the names that spell an
    array index first, in ascending order: for a new name of that kind the
    place is not the one given here (see [is_name]).  A write to [__proto__]
    is recorded like any other, where JavaScript hands it to a setter. *)
Fixpoint field_set (k : key) (v : value) (fs : list (key * value))
  : list (key * value) :=
  match fs with
  | [] => [(k, v)]
  | (k', w) :: r =>
      if decide (k' = k) then (k, v) :: r else (k', w) :: field_set k v r
  end.

(** The characters of a string, as one-character strings. *)
Fixpoint chars (s : string) : list value :=
  match s with
  | EmptyString => []
  | String a r => VStr (String a EmptyString) :: chars r
  end.

Definition item_at (items : list value) (i : nat) : value :=
  default VUndef (items !! i).

(** [this[key]] on an instance: an own slot, else a hidden field or the
    [$$type] getter of the class.  Functions are not values here: the name of
    a method or of another inherited member, when no slot has it, reads
    [undefined] where JavaScript reads the member ([plain_key] holds of the
    names that spell none). *)
Definition crio_prop (c : frozen) (k : key) : value :=
  match field_lookup k (c_slots c) with
  | Some v => v
  | None =>
      if decide (k = KStr "length") then VNum (Z.of_nat (c_length c))
      else if decide (k = KStr "$$hashCode") then VNum (c_hashCode c)
      else if decide (k = KStr "$$type") then
        VStr (match c_type c with
              | CrioArrayT => CRIO_ARRAY_TYPE
              | CrioObjectT => CRIO_OBJECT_TYPE
              end)
      else VUndef
  end.

(** [object[key]] for any value. *)
Definition get_prop (st : store) (o : value) (k : key) : result value :=
  match o with
  | VUndef | VNull => Throw NativeTypeError
  | VBool _ | VNum _ => Ok VUndef
  | VStr s =>
      match k with
      | KIdx i => Ok (item_at (chars s) i)
      | KStr n => Ok (if decide (n = "length")
                      then VNum (Z.of_nat (String.length s)) else VUndef)
      end
  | VArr items =>
      match k with
      | KIdx i => Ok (item_at items i)
      | KStr n => Ok (if decide (n = "length")
                      then VNum (Z.of_nat (length items)) else VUndef)
      end
  | VObj fields => Ok (default VUndef (field_lookup k fields))
  | VCrio l =>
      match st !! l with
      | Some c => Ok (crio_prop c k)
      | None => Ok VUndef
      end
  end.

(** ToNumber, on the values of the model; [None] is NaN.  The empty string
    is 0 and a string that spells an array index is that index; every other
    string is read as NaN, also the numerals JavaScript accepts beyond those
    ("05", " 5", "1e1", "0x10", "1.5"), and so is a plain array or object,
    which JavaScript converts through its string form. *)
Definition digit_of (a : ascii) : option nat :=
  let n := nat_of_ascii a in
  if (48 <=? n)%nat && (n <=? 57)%nat then Some (n - 48)%nat else None.

Fixpoint parse_digits (acc : nat) (s : string) : option nat :=
  match s with
  | EmptyString => Some acc
  | String a r =>
      match digit_of a with
      | Some d => parse_digits (10 * acc + d) r
      | None => None
      end
  end.

(** The array index a string spells, if it spells one. *)
Definition index_of_string (s : string) : option nat :=
  match s with
  | EmptyString => None
  | String a EmptyString => digit_of a
  | String a _ => if decide (a = "0"%char) then None else parse_digits 0 s
  end.

Definition to_number (v : value) : option Z :=
  match v with
  | VNum z => Some z
  | VStr s => if decide (s = "") then Some 0%Z
              else Z.of_nat <$> index_of_string s
  | VNull => Some 0%Z
  | VBool b => Some (if b then 1 else 0)%Z
  | _ => None
  end.

(** The values [to_number] reads as JavaScript does: all but the strings
    that neither are empty nor spell an array index, and the values that are
    not primitive. *)
Definition number_like (v : value) : bool :=
  match v with
  | VStr s => bool_decide (s = "") || bool_decide (is_Some (index_of_string s))
  | VArr _ | VObj _ | VCrio _ => false
  | _ => true
  end.

(** The property key a number names. *)
Definition key_of_number (z : Z) : key :=
  if decide (0 ≤ z)%Z then KIdx (Z.to_nat z) else KStr (pretty z).

Definition key_of_string (s : string) : key :=
  match index_of_string s with
  | Some i => KIdx i
  | None => KStr s
  end.

(** An array cut or padded to [n] elements. *)
Definition resize (n : nat) (items : list value) : list value :=
  take n items ++ replicate (n - length items) VUndef.

(** [object[key] = x] on a plain array or object, in strict mode.  An array
    is dense: a write past its end leaves holes, which read as [undefined]; a
    named property on an array is not recorded (no constructor would copy
    it), except [length], which resizes.  A collection is frozen and a
    primitive has no properties to set: both throw. *)

Definition raw_set (o : value) (k : key) (x : value) : result value :=
  match o with
  | VArr items =>
      match k with
      | KIdx i =>
          Ok (VArr (if decide (i < length items) then <[i:=x]> items
                    else resize i items ++ [x]))
      | KStr n =>
          if decide (n = "length") then
            match to_number x with
            | Some z => if decide (0 ≤ z)%Z
                        then Ok (VArr (resize (Z.to_nat z) items))
                        else Throw NativeRangeError
            | None => Throw NativeRangeError
            end
          else Ok o
      end
  | VObj fields => Ok (VObj (field_set k x fields))
  | _ => Throw NativeTypeError
  end.

(** ** The helpers of [./utils]

    [./utils] is not part of [src/].  The hash function is kept abstract; so
    is the string form of a non-primitive used as a property key. *)
Class Utils := {
  (** [hash(value)]: it reads the store when the value holds collections. *)
  hash : store → value → Z;
  (** ToString of an array, an object or a collection. *)
  toString : store → value → string
}.

(** Modelled from the spec: [isCrio] of utils, "is a collection value". *)
Definition isCrio (v : value) : bool :=
  match v with VCrio _ => true | _ => false end.

(** Modelled from the spec: [isArray] of utils, "array-shaped"; the [kind]
    tag makes an indexed collection array-shaped. *)
Definition isArray (st : store) (v : value) : bool :=
  match v with
  | VArr _ => true
  | VCrio l =>
      match st !! l with
      | Some c => bool_decide (c_type c = CrioArrayT)
      | None => false
      end
  | _ => false
  end.

(** Modelled from the spec: [isObject] of utils, "object-shaped (and not
    array-shaped)". *)
Definition isObject (st : store) (v : value) : bool :=
  match v with
  | VObj _ => true
  | VCrio l =>
      match st !! l with
      | Some c => bool_decide (c_type c = CrioObjectT)
      | None => false
      end
  | _ => false
  end.

(** Modelled from the spec: [isUndefined] of utils, "the value is
    unspecified/missing, not falsy". *)
Definition isUndefined (v : value) : bool :=
  match v with VUndef => true | _ => false end.

(** ToPropertyKey. *)
Definition to_key `{Utils} (st : store) (v : value) : key :=
  match v with
  | VUndef => KStr "undefined"
  | VNull => KStr "null"
  | VBool b => KStr (if b then "true" else "false")
  | VNum z => key_of_number z
  | VStr s => key_of_string s
  | _ => key_of_string (toString st v)
  end.

(** Modelled from the spec: [forEach] of utils over an array visits its
    elements in index order; here with the store threaded through the
    callback. *)
Section forEach.
Context {A B : Type} (fn : A → store → B * store).

Fixpoint forEach (array : list A) (st : store) : list B * store :=
  match array with
  | [] => ([], st)
  | item :: rest =>
      let '(b, st1) := fn item st in
      let '(bs, st2) := forEach rest st1 in
      (b :: bs, st2)
  end.
End forEach.

(** The own properties an array gives its elements. *)
Definition index_slots (items : list value) : list (key * value) :=
  imap (λ i x, (KIdx i, x)) items.

(** ** Normalisation and the two constructors *)

Section construction.
Context `{Utils}.

(** [getRealValue] and the bodies of the two constructors call each other;
    over the tree of a plain value that is one structural recursion.  The
    [VArr] branch is the body of [CrioArray]'s constructor and the [VObj]
    branch the body of [CrioObject]'s; both take the hash of the raw input
    after the slots are filled.  [this[key] = ...] makes a slot of every name
    that is not native; for the name [__proto__] JavaScript makes none and
    still counts it in [length], so an input is taken not to have it
    ([plain_names]). *)
Fixpoint getRealValue (v : value) (st : store) : value * store :=
  match v with
  | VCrio _ => (v, st)
  | VArr array =>
      let '(items, st1) := forEach getRealValue array st in
      alloc {| c_type := CrioArrayT;
               c_hashCode := hash st1 v;
               c_length := length array;
               c_slots := index_slots items |} st1
  | VObj object =>
      let '(slots, st1) :=
        forEach (λ kv st,
                   if is_native kv.1 then (None, st)
                   else let '(x, st') := getRealValue kv.2 st in
                        (Some (kv.1, x), st'))
                object st in
      alloc {| c_type := CrioObjectT;
               c_hashCode := hash st1 v;
               c_length := length (omap id slots);
               c_slots := omap id slots |} st1
  | _ => (v, st)
  end.

(** [new CrioArray(array)].  Of an input that is neither a collection nor
    an array the constructor reads [length] and hands it to utils'
    [forEach]; what that builds is not fixed by [src/]. *)
Definition CrioArray_new (array : value) : M value :=
  match array with
  | VCrio _ => ret array
  | VArr _ => λ st, let '(c, st') := getRealValue array st in (Ok c, st')
  | VUndef | VNull => throw NativeTypeError
  | _ => throw OutsideModel
  end.

(** [new CrioObject(object)].  The own property names of a plain array (or
    of a string) are its indices and [length], which is native: the
    collection built from one is keyed by the indices. *)
Definition CrioObject_new (object : value) : M value :=
  match object with
  | VCrio _ => ret object
  | VObj _ => λ st, let '(c, st') := getRealValue object st in (Ok c, st')
  | VUndef | VNull => throw NativeTypeError
  | VBool _ | VNum _ =>
      λ st, let '(c, st') :=
              alloc {| c_type := CrioObjectT; c_hashCode := hash st object;
                       c_length := 0; c_slots := [] |} st in (Ok c, st')
  | VArr array =>
      λ st,
        let '(items, st1) := forEach getRealValue array st in
        let '(c, st') :=
          alloc {| c_type := CrioObjectT; c_hashCode := hash st1 object;
                   c_length := length items;
                   c_slots := index_slots items |} st1 in
        (Ok c, st')
  | VStr s =>
      λ st, let '(c, st') :=
              alloc {| c_type := CrioObjectT; c_hashCode := hash st object;
                       c_length := length (chars s);
                       c_slots := index_slots (chars s) |} st in (Ok c, st')
  end.

Definition construct (Constructor : kind) : value → M value :=
  match Constructor with
  | CrioArrayT => CrioArray_new
  | CrioObjectT => CrioObject_new
  end.

(** The entry function [crio]. *)
Definition crio (object : value) : M value :=
  λ st, if isArray st object then CrioArray_new object st
        else if isObject st object then CrioObject_new object st
        else (Ok object, st).
End construction.

(** ** Thawing *)

(** The plain structure a collection stands for: an indexed collection the
    array of its elements below [length], a keyed one the object of its slots
    that are not native, every collection inside taken the same way.  It is
    what the method [thaw] returns when it returns ([thaw_call] below is the
    method, with the calls it makes).  A collection only holds collections
    made before it, so the recursion is bounded by the size of the store; [n]
    counts the collections that may still be entered. *)
Fixpoint thaw_item (n : nat) (st : store) (item : value) : value :=
  match item with
  | VCrio l =>
      match n with
      | 0 => VUndef
      | S n' =>
          match st !! l with
          | Some c =>
              match c_type c with
              | CrioArrayT =>
                  VArr (map (λ i, thaw_item n' st (crio_prop c (KIdx i)))
                            (seq 0 (c_length c)))
              | CrioObjectT =>
                  VObj (map (λ kv, (kv.1, thaw_item n' st kv.2))
                            (filter (λ kv, is_native kv.1 = false)
                                    (c_slots c)))
              end
          | None => VUndef
          end
      end
  | _ => item
  end.

Definition thaw (st : store) (item : value) : value :=
  thaw_item (length st) st item.

(** The content of a value: the plain structure it stands for, every
    collection inside it thawed.  This is what the hash contract speaks
    about. *)
Fixpoint content (st : store) (v : value) : value :=
  match v with
  | VArr items => VArr (map (content st) items)
  | VObj fields => VObj (map (λ kv, (kv.1, content st kv.2)) fields)
  | VCrio _ => thaw st v
  | _ => v
  end.

(** ** The change-detection gate *)

Section gate.
Context `{Utils}.

(** Modelled from the spec: [hasChanged] of utils "computes
    [hash(candidate)] and compares against [original.hashCode]". *)
Definition hasChanged (st : store) (crio newObject : value) : bool :=
  match get_prop st crio (KStr "$$hashCode") with
  | Ok (VNum h) => negb (h =? hash st newObject)%Z
  | _ => true
  end.

Definition returnCorrectObject (crio newObject : value) (Constructor : kind)
  : M value :=
  λ st, if hasChanged st crio newObject
        then construct Constructor newObject st
        else (Ok crio, st).
End gate.

(** ** Shared pieces of the methods *)

Definition truthy (v : value) : bool :=
  match v with
  | VUndef | VNull | VBool false | VNum 0 | VStr "" => false
  | _ => true
  end.

(** The elements at the indices below [length] of an array-like value: what
    [shallowCloneArray], a spread, [apply] and the native array methods read
    from their receiver.  An index that is no property reads [undefined]; the
    native iterations ([every], [indexOf], [map], [reduce], ...) skip such an
    index, so for them the list is exact when every index below [length] is a
    property, as on an indexed collection. *)
Definition array_like (st : store) (v : value) : list value :=
  match v with
  | VArr items => items
  | VStr s => chars s
  | VCrio l =>
      match st !! l with
      | Some c => map (λ i, crio_prop c (KIdx i)) (seq 0 (c_length c))
      | None => []
      end
  | VObj fields =>
      match field_lookup (KStr "length") fields ≫= to_number with
      | Some z => map (λ i, default VUndef (field_lookup (KIdx i) fields))
                      (seq 0 (Z.to_nat z))
      | None => []
      end
  | _ => []
  end.

(** Modelled from the spec: [shallowCloneArray] of utils "clones the
    underlying raw sequence" of a collection. *)
Definition shallowCloneArray (st : store) (this : value) : value :=
  VArr (array_like st this).

(** The own enumerable properties of a value: what [{...this}] and
    [Object.assign] copy, and what [Object.keys] lists. *)
Definition own_enumerable (st : store) (v : value) : list (key * value) :=
  match v with
  | VObj fields => fields
  | VArr items => index_slots items
  | VStr s => index_slots (chars s)
  | VCrio l =>
      match st !! l with
      | Some c => c_slots c
      | None => []
      end
  | _ => []
  end.

Definition OBJECT_KEYS (st : store) (v : value) : list key :=
  (own_enumerable st v).*1.

(** The instance a method is called on. *)
Definition instance (st : store) (this : value) : option frozen :=
  match this with
  | VCrio l => st !! l
  | _ => None
  end.

Fixpoint mapi_result {A B} (f : nat → A → result B) (i : nat) (l : list A)
  : result (list B) :=
  match l with
  | [] => Ok []
  | x :: r =>
      match f i x with
      | Ok y =>
          match mapi_result f (S i) r with
          | Ok ys => Ok (y :: ys)
          | Throw e => Throw e
          end
      | Throw e => Throw e
      end
  end.

(** [Object.assign(clone, object)]. *)
Fixpoint assign_props (clone : value) (props : list (key * value))
  : result value :=
  match props with
  | [] => Ok clone
  | (k, x) :: r =>
      match raw_set clone k x with
      | Ok clone' => assign_props clone' r
      | Throw e => Throw e
      end
  end.

(** [ARRAY_PROTOTYPE.slice] on the elements: relative bounds, clamped. *)
Definition clamp_index (len : nat) (z : Z) : nat :=
  if decide (z < 0)%Z then Z.to_nat (Z.max (Z.of_nat len + z) 0)
  else Nat.min (Z.to_nat z) len.

Definition to_integer (v : value) : Z := default 0%Z (to_number v).

Definition slice_items (items : list value) (args : list value) : list value :=
  let len := length items in
  let k := match args with
           | b :: _ => clamp_index len (to_integer b)
           | [] => 0
           end in
  let final := match args with
               | _ :: VUndef :: _ | [_] | [] => len
               | _ :: e :: _ => clamp_index len (to_integer e)
               end in
  take (final - k) (drop k items).

(** [ARRAY_PROTOTYPE.concat]: an argument that is an array is spread, any
    other is appended as one element. *)
Definition concat_items (items : list value) (arrays : list value)
  : list value :=
  items ++ mbind (M := list)
             (λ a, match a with VArr xs => xs | _ => [a] end) arrays.

(** [ARRAY_PROTOTYPE.fill(value, start, end)] on the elements. *)
Definition fill_items (items : list value) (args : list value) : list value :=
  let len := length items in
  let x := default VUndef (args !! 0) in
  let k := clamp_index len (to_integer (default VUndef (args !! 1))) in
  let final := match args !! 2 with
               | None | Some VUndef => len
               | Some e => clamp_index len (to_integer e)
               end in
  imap (λ i y, if decide (k ≤ i < final) then x else y) items.

(** [ARRAY_PROTOTYPE.splice(start, deleteCount, ...items)] on the elements:
    what is left in the array. *)
Definition splice_items (items : list value) (args : list value)
  : list value :=
  let len := length items in
  let start := clamp_index len (to_integer (default VUndef (args !! 0))) in
  let deleteCount :=
    match args with
    | [] => 0
    | [_] => len - start
    | _ :: dc :: _ =>
        Z.to_nat (Z.min (Z.max (to_integer dc) 0) (Z.of_nat (len - start)))
    end in
  take start items ++ drop 2 args ++ drop (start + deleteCount) items.

(** [index > length] on numbers: false when [index] is NaN. *)
Definition number_gt (index : option Z) (n : Z) : bool :=
  match index with
  | Some z => (n <? z)%Z
  | None => false
  end.

(** The argument list [apply] takes from its second argument. *)
Definition apply_args (st : store) (v : value) : result (list value) :=
  match v with
  | VBool _ | VNum _ | VStr _ => Throw NativeTypeError
  | _ => Ok (array_like st v)
  end.

(** ** Calling a method

    A call [x.name(...)] reads the property [name] of [x], and an own
    property is found before the member of the class.  A slot of a collection
    holds a primitive or a collection, never a function: when one has the
    name, the call throws a [TypeError]. *)

(** [x] has the own enumerable property [k]. *)
Definition own_property (st : store) (x : value) (k : key) : bool :=
  bool_decide (is_Some (field_lookup k (own_enumerable st x))).

(** An own property of [x] hides the member [name]. *)
Definition hides (st : store) (x : value) (name : string) : bool :=
  own_property st x (KStr name).

(** [this.name(...)] on a collection, [method] being the member called on
    it. *)
Definition call_member {A} (name : string) (this : value) (method : M A)
  : M A :=
  λ st,
    match instance st this with
    | Some _ =>
        if hides st this name then (Throw NativeTypeError, st) else method st
    | None => (Throw NativeTypeError, st)
    end.

(** ** The method [thaw] *)

Section thaw_bodies.
(** [item.thaw()], the call the two bodies make on a collection they hold;
    it is [thaw_call] below. *)
Variable thaw_of : value → result value.

(** [isCrio(item) ? item.thaw() : item]. *)
Definition clean (item : value) : result value :=
  if isCrio item then thaw_of item else Ok item.

(** The body of [CrioArray]'s [thaw]: [ARRAY_PROTOTYPE.map] over the
    elements. *)
Definition CrioArray_thaw_with (st : store) (this : value) : result value :=
  match mapi_result (λ _ item, clean item) 0 (array_like st this) with
  | Ok items => Ok (VArr items)
  | Throw e => Throw e
  end.

(** The body of [CrioObject]'s [thaw]: for every own property name that is
    not native, the clean value, then [this.propertyIsEnumerable(key)], which
    is true of a slot, and the property of the new object. *)
Definition CrioObject_thaw_with (st : store) (this : value) : result value :=
  match mapi_result
          (λ _ kv,
             match clean kv.2 with
             | Ok cleanValue =>
                 if hides st this "propertyIsEnumerable"
                 then Throw NativeTypeError
                 else Ok (kv.1, cleanValue)
             | Throw e => Throw e
             end) 0
          (filter (λ kv, is_native kv.1 = false) (own_enumerable st this)) with
  | Ok object => Ok (VObj object)
  | Throw e => Throw e
  end.
End thaw_bodies.

(** [item.thaw()]: the member of the class of [item], unless an own property
    hides it.  As for [thaw_item], [n] counts the collections that may still
    be entered, and the size of the store is enough. *)
Fixpoint thaw_call (n : nat) (st : store) (item : value) : result value :=
  match instance st item with
  | None => Throw NativeTypeError
  | Some c =>
      if hides st item "thaw" then Throw NativeTypeError
      else match n with
           | 0 => Ok VUndef
           | S n' =>
               match c_type c with
               | CrioArrayT => CrioArray_thaw_with (thaw_call n' st) st item
               | CrioObjectT => CrioObject_thaw_with (thaw_call n' st) st item
               end
           end
  end.

(** [object.thaw()], as [assignOnDeepMatch] and [mutate] call it. *)
Definition thaw_method (object : value) : M value :=
  λ st, (thaw_call (length st) st object, st).

(** ** [merge], [get], [getIn] and the deep-path engine *)

Section methods.
Context `{Utils}.

(** [CrioArray.prototype.merge], also on a receiver that is not an
    instance ([assignOnDeepMatch] applies it to a plain slot).  [clone.map]
    exists only on an array. *)
Definition merge_one (st : store) (object clone : value) : result value :=
  match clone with
  | VArr items =>
      match mapi_result
              (λ keyIndex x,
                 match get_prop st object (KIdx keyIndex) with
                 | Ok a => Ok (if truthy a then a else x)
                 | Throw e => Throw e
                 end) 0 items with
      | Ok items' => Ok (VArr items')
      | Throw e => Throw e
      end
  | _ => Throw NativeTypeError
  end.

Fixpoint merge_each (st : store) (objects : list value) (clone : value)
  : result value :=
  match objects with
  | [] => Ok clone
  | object :: rest =>
      match merge_one st object clone with
      | Ok clone' => merge_each st rest clone'
      | Throw e => Throw e
      end
  end.

Definition CrioArray_merge (this : value) (objects : list value) : M value :=
  λ st,
    let clone := if negb (isCrio this) then this
                 else shallowCloneArray st this in
    match merge_each st objects clone with
    | Ok clone' => returnCorrectObject this clone' CrioArrayT st
    | Throw e => (Throw e, st)
    end.

(** [CrioObject.prototype.merge]. *)
Fixpoint assign_each (st : store) (objects : list value) (clone : value)
  : result value :=
  match objects with
  | [] => Ok clone
  | object :: rest =>
      match assign_props clone (own_enumerable st object) with
      | Ok clone' => assign_each st rest clone'
      | Throw e => Throw e
      end
  end.

Definition CrioObject_merge (this : value) (objects : list value)
  : M value :=
  λ st,
    let clone := if negb (isCrio this) then this
                 else VObj (own_enumerable st this) in
    match clone with
    | VUndef | VNull => (Throw NativeTypeError, st)
    | VBool _ | VNum _ | VStr _ => (Throw OutsideModel, st)
    | _ =>
        match assign_each st objects clone with
        | Ok clone' => returnCorrectObject this clone' CrioObjectT st
        | Throw e => (Throw e, st)
        end
    end.

Definition merge_of (Crio : kind) : value → list value → M value :=
  match Crio with
  | CrioArrayT => CrioArray_merge
  | CrioObjectT => CrioObject_merge
  end.

(** The walk of [assignOnDeepMatch] over the thawed root.  The source
    mutates the node it stands on and moves down; here each level returns
    its node updated and the level above writes it back in place.
    [currentObject[key]] after the vivifying write is the fresh [{}]. *)
Fixpoint deepAssign (keys : list key) (v : value) (isMerge : bool)
         (currentObject : value) : M value :=
  match keys with
  | [] => ret currentObject
  | key :: rest =>
      λ st,
        match get_prop st currentObject key with
        | Throw e => (Throw e, st)
        | Ok currentValue =>
            let vivify := negb (isArray st currentValue)
                          && negb (isObject st currentValue) in
            match (if vivify then raw_set currentObject key (VObj [])
                   else Ok currentObject) with
            | Throw e => (Throw e, st)
            | Ok currentObject1 =>
                let slot := if vivify then VObj [] else currentValue in
                match rest with
                | [] =>
                    let Crio := if isArray st currentObject1
                                then CrioArrayT else CrioObjectT in
                    (let* x := (if isMerge then
                                  let* objects := lift (apply_args st v) in
                                  merge_of Crio slot objects
                                else ret v) in
                     lift (raw_set currentObject1 key x)) st
                | _ =>
                    (let* child := deepAssign rest v isMerge slot in
                     lift (raw_set currentObject1 key child)) st
                end
            end
        end
  end.

Definition assignOnDeepMatch (object keys v : value) (isMerge : bool)
  : M value :=
  λ st,
    let FinalCrio := if isArray st object then CrioArrayT else CrioObjectT in
    (let* currentObject := thaw_method object in
     let* referenceToCurrentObject :=
       deepAssign (map (to_key st) (array_like st keys)) v isMerge
                  currentObject in
     returnCorrectObject object referenceToCurrentObject FinalCrio) st.

(** The loop shared by the two [getIn]. *)
Fixpoint getIn_loop (st : store) (currentObject : value) (keys : list key)
  : result value :=
  match keys with
  | [] => Ok VUndef
  | key :: rest =>
      match get_prop st currentObject key with
      | Throw e => Throw e
      | Ok x =>
          if isUndefined x || bool_decide (rest = []) then Ok x
          else getIn_loop st x rest
      end
  end.
End methods.

(** ** The class [CrioArray] *)

Section CrioArray.
Context `{Utils}.

Definition CrioArray_concat (this : value) (arrays : list value) : M value :=
  match arrays with
  | [] => ret this
  | _ =>
      λ st,
        let clone := array_like st this in
        let concattedArray := concat_items clone arrays in
        CrioArray_new (VArr concattedArray) st
  end.

(** [fill(...args)]. *)
Definition CrioArray_fill (this : value) (args : list value) : M value :=
  λ st,
    let clone := array_like st this in
    returnCorrectObject this (VArr (fill_items clone args)) CrioArrayT st.

(** [filter(fn)]; the callback is a function of the item, the index and the
    collection. *)
Definition CrioArray_filter (this : value) (fn : value → nat → value → value)
  : M value :=
  λ st,
    let filteredArray :=
      omap id (imap (λ i x, if truthy (fn x i this) then Some x else None)
                    (array_like st this)) in
    returnCorrectObject this (VArr filteredArray) CrioArrayT st.

Definition CrioArray_get (this index : value) : M value :=
  λ st, (get_prop st this (to_key st index), st).

Definition CrioArray_getIn (this keys : value) : M value :=
  λ st,
    if negb (isArray st keys) then (Throw ArgumentError, st)
    else (getIn_loop st this (map (to_key st) (array_like st keys)), st).

(** [map(fn)]. *)
Definition CrioArray_map (this : value) (fn : value → nat → value → value)
  : M value :=
  λ st,
    let mappedArray := imap (λ i x, fn x i this) (array_like st this) in
    returnCorrectObject this (VArr mappedArray) CrioArrayT st.

Definition CrioArray_mergeIn (this keys : value) (objects : list value)
  : M value :=
  λ st,
    if negb (isArray st keys) then (Throw ArgumentError, st)
    else match objects with
         | [] => (Ok this, st)
         | _ => assignOnDeepMatch this keys (VArr objects) true st
         end.

Definition CrioArray_slice (this : value) (args : list value) : M value :=
  match args with
  | [] => ret this
  | _ => λ st, CrioArray_new (VArr (slice_items (array_like st this) args)) st
  end.

Definition CrioArray_pop (this : value) : M value :=
  λ st,
    match instance st this with
    | Some c =>
        CrioArray_slice this [VNum 0; VNum (Z.of_nat (c_length c) - 1)] st
    | None => (Throw NativeTypeError, st)
    end.

Definition CrioArray_push (this : value) (items : list value) : M value :=
  CrioArray_concat this [VArr items].

(** [set(key, value)]: [+key] may be NaN, which is greater than nothing
    and names the property "NaN". *)
Definition CrioArray_set (this key v : value) : M value :=
  λ st,
    match instance st this with
    | None => (Throw NativeTypeError, st)
    | Some c =>
        let index := to_number key in
        if number_gt index (Z.of_nat (c_length c))
        then (Throw RangeError, st)
        else
          let clone := shallowCloneArray st this in
          match raw_set clone
                  (from_option key_of_number (KStr "NaN") index) v with
          | Ok clone' => returnCorrectObject this clone' CrioArrayT st
          | Throw e => (Throw e, st)
          end
    end.

Definition CrioArray_setIn (this keys v : value) : M value :=
  λ st,
    if negb (isArray st keys) then (Throw ArgumentError, st)
    else assignOnDeepMatch this keys v false st.

Definition CrioArray_shift (this : value) : M value :=
  λ st,
    match instance st this with
    | Some c => CrioArray_slice this [VNum 1; VNum (Z.of_nat (c_length c))] st
    | None => (Throw NativeTypeError, st)
    end.

(** [splice(...args)]. *)
Definition CrioArray_splice (this : value) (args : list value) : M value :=
  λ st,
    let clone := array_like st this in
    returnCorrectObject this (VArr (splice_items clone args)) CrioArrayT st.

Definition CrioArray_thaw (this : value) : M value :=
  λ st, (CrioArray_thaw_with (thaw_call (length st) st) st this, st).

Definition CrioArray_unshift (this : value) (items : list value) : M value :=
  match items with
  | [] => ret this
  | _ => λ st, CrioArray_new (VArr (items ++ array_like st this)) st
  end.
End CrioArray.

(** The iterator [CrioArray[Symbol.iterator]()] returns: the closure's
    [this] and its counter. *)
Record array_iterator := ArrayIterator {
  ai_this : value;
  ai_index : nat
}.

Definition CrioArray_iterator (this : value) : array_iterator :=
  {| ai_this := this; ai_index := 0 |}.

(** One call of [next]: the pair [(value, done)] and the advanced iterator. *)
Definition CrioArray_next (st : store) (it : array_iterator)
  : (value * bool) * array_iterator :=
  match instance st (ai_this it) with
  | Some c =>
      ((crio_prop c (KIdx (ai_index it)),
        (c_length c <=? ai_index it)%nat),
       {| ai_this := ai_this it; ai_index := S (ai_index it) |})
  | None => ((VUndef, true), it)
  end.

(** ** The class [CrioObject] *)

Section CrioObject.
Context `{Utils}.

(** [this[key.toString()]]. *)
Definition CrioObject_get (this key : value) : M value :=
  λ st,
    match key with
    | VUndef | VNull => (Throw NativeTypeError, st)
    | _ => (get_prop st this (to_key st key), st)
    end.

Definition CrioObject_getIn (this keys : value) : M value :=
  λ st,
    if negb (isArray st keys) then (Throw ArgumentError, st)
    else (getIn_loop st this (map (to_key st) (array_like st keys)), st).

Definition CrioObject_mergeIn (this keys : value) (objects : list value)
  : M value :=
  λ st,
    if negb (isArray st keys) then (Throw ArgumentError, st)
    else match objects with
         | [] => (Ok this, st)
         | _ => assignOnDeepMatch this keys (VArr objects) true st
         end.

Definition CrioObject_set (this key v : value) : M value :=
  λ st,
    let clone := VObj (own_enumerable st this) in
    match raw_set clone (to_key st key) v with
    | Ok clone' => returnCorrectObject this clone' CrioObjectT st
    | Throw e => (Throw e, st)
    end.

Definition CrioObject_setIn (this keys v : value) : M value :=
  λ st,
    if negb (isArray st keys) then (Throw ArgumentError, st)
    else assignOnDeepMatch this keys v false st.

Definition CrioObject_thaw (this : value) : M value :=
  λ st, (CrioObject_thaw_with (thaw_call (length st) st) st this, st).
End CrioObject.




(** What a [for ... of] loop sees: the values of the calls of [next] up to
    the first that is done; [fuel] bounds the number of calls. *)
Fixpoint drain {I} (next : I → (value * bool) * I) (fuel : nat) (it : I)
  : option (list value) :=
  match fuel with
  | 0 => None
  | S fuel' =>
      let '((v, done), it') := next it in
      if done then Some []
      else cons v <$> drain next fuel' it'
  end.

(** ** The reading methods, [mutate] and the folds

    The methods of the two classes that read a collection without deriving
    another from it, and the three that hand the collection to a callback and
    gate what comes back.  A callback called as [fn.call(thisArg, a, b, c)]
    is a function of its [this] and its arguments. *)

(** [a === b].  Two plain arrays or objects are the same only when they are
    one object, and a tree has no identity: they compare unequal.  By I3 no
    slot of a collection holds one.  The numbers are the integers: NaN, the
    one value that is not equal to itself, is not among them. *)
Definition strict_equals (a b : value) : bool :=
  match a, b with
  | VUndef, VUndef | VNull, VNull => true
  | VBool x, VBool y => bool_decide (x = y)
  | VNum x, VNum y => bool_decide (x = y)
  | VStr x, VStr y => bool_decide (x = y)
  | VCrio x, VCrio y => bool_decide (x = y)
  | _, _ => false
  end.

(** A parameter with the default [= this]. *)
Definition or_this (this thisArg : value) : value :=
  if isUndefined thisArg then this else thisArg.

(** [equals(object)]: the two classes have the same body. *)
Definition CrioArray_equals (this object : value) : M bool :=
  λ st,
    if negb (isCrio object) then (Ok false, st)
    else match get_prop st this (KStr "$$hashCode") with
         | Throw e => (Throw e, st)
         | Ok a =>
             match get_prop st object (KStr "$$hashCode") with
             | Throw e => (Throw e, st)
             | Ok b => (Ok (strict_equals a b), st)
             end
         end.

Definition CrioObject_equals (this object : value) : M bool :=
  λ st,
    if negb (isCrio object) then (Ok false, st)
    else match get_prop st this (KStr "$$hashCode") with
         | Throw e => (Throw e, st)
         | Ok a =>
             match get_prop st object (KStr "$$hashCode") with
             | Throw e => (Throw e, st)
             | Ok b => (Ok (strict_equals a b), st)
             end
         end.

(** The loop of [find], from [index] on, over the elements still ahead. *)
Fixpoint find_from (fn : value → value → nat → value → value)
         (thisArg this : value) (items : list value) (index : nat) : value :=
  match items with
  | [] => VUndef
  | value :: rest =>
      if truthy (fn thisArg value index this) then value
      else find_from fn thisArg this rest (S index)
  end.

Definition CrioArray_find (this : value)
           (fn : value → value → nat → value → value) (thisArg : value)
  : M value :=
  λ st,
    match this with
    | VUndef | VNull => (Throw NativeTypeError, st)
    | _ => (Ok (find_from fn (or_this this thisArg) this
                          (array_like st this) 0), st)
    end.

(** The loop of [findIndex]. *)
Fixpoint findIndex_from (fn : value → value → nat → value → value)
         (thisArg this : value) (items : list value) (index : nat) : Z :=
  match items with
  | [] => (-1)%Z
  | value :: rest =>
      if truthy (fn thisArg value index this) then Z.of_nat index
      else findIndex_from fn thisArg this rest (S index)
  end.

Definition CrioArray_findIndex (this : value)
           (fn : value → value → nat → value → value) (thisArg : value)
  : M Z :=
  λ st,
    match this with
    | VUndef | VNull => (Throw NativeTypeError, st)
    | _ => (Ok (findIndex_from fn (or_this this thisArg) this
                               (array_like st this) 0), st)
    end.

(** [every(fn, thisArg)] is [ARRAY_PROTOTYPE.every.call(thisArg, fn)]: the
    elements tested are those of [thisArg], and the callback has no [this]. *)
Definition CrioArray_every (this : value)
           (fn : value → value → nat → value → value) (thisArg : value)
  : M bool :=
  λ st,
    let receiver := or_this this thisArg in
    match receiver with
    | VUndef | VNull => (Throw NativeTypeError, st)
    | _ =>
        (Ok (forallb id (imap (λ i x, truthy (fn VUndef x i receiver))
                              (array_like st receiver))), st)
    end.

(** [some(fn, thisArg)] is [ARRAY_PROTOTYPE.some.call(this, fn, thisArg)]. *)
Definition CrioArray_some (this : value)
           (fn : value → value → nat → value → value) (thisArg : value)
  : M bool :=
  λ st,
    match this with
    | VUndef | VNull => (Throw NativeTypeError, st)
    | _ =>
        (Ok (existsb id (imap (λ i x, truthy (fn (or_this this thisArg) x i this))
                              (array_like st this))), st)
    end.

(** [ARRAY_PROTOTYPE.indexOf] on the elements, from [index] on. *)
Fixpoint indexOf_from (item : value) (items : list value) (index : nat) : Z :=
  match items with
  | [] => (-1)%Z
  | x :: rest =>
      if strict_equals x item then Z.of_nat index
      else indexOf_from item rest (S index)
  end.

Definition CrioArray_indexOf (this item : value) : M Z :=
  λ st,
    match this with
    | VUndef | VNull => (Throw NativeTypeError, st)
    | _ => (Ok (indexOf_from item (array_like st this) 0), st)
    end.

(** [ARRAY_PROTOTYPE.lastIndexOf]: the search runs from the last element
    down, so an element is looked at only when none after it matches. *)
Fixpoint lastIndexOf_from (item : value) (items : list value) (index : nat)
  : Z :=
  match items with
  | [] => (-1)%Z
  | x :: rest =>
      let later := lastIndexOf_from item rest (S index) in
      if (later =? -1)%Z
      then (if strict_equals x item then Z.of_nat index else (-1)%Z)
      else later
  end.

Definition CrioArray_lastIndexOf (this item : value) : M Z :=
  λ st,
    match this with
    | VUndef | VNull => (Throw NativeTypeError, st)
    | _ => (Ok (lastIndexOf_from item (array_like st this) 0), st)
    end.

(** [includes(item)] is [!!~this.indexOf(item)]. *)
Definition CrioArray_includes (this item : value) : M bool :=
  let* index := CrioArray_indexOf this item in
  ret (truthy (VNum (Z.lnot index))).

(** [ARRAY_PROTOTYPE.copyWithin(target, start, end)] on the elements. *)
Definition copyWithin_items (items : list value) (args : list value)
  : list value :=
  let len := length items in
  let to := clamp_index len (to_integer (default VUndef (args !! 0))) in
  let from := clamp_index len (to_integer (default VUndef (args !! 1))) in
  let final := match args !! 2 with
               | None | Some VUndef => len
               | Some e => clamp_index len (to_integer e)
               end in
  let count := Nat.min (final - from) (len - to) in
  take to items ++ take count (drop from items) ++ drop (to + count) items.

Section callbacks.
Context `{Utils}.

Definition CrioArray_copyWithin (this : value) (args : list value) : M value :=
  λ st,
    let clone := array_like st this in
    let copiedClone := copyWithin_items clone args in
    returnCorrectObject this (VArr copiedClone) CrioArrayT st.

(** [sort(fn)].  [ARRAY_PROTOTYPE.sort] is the engine's, and the order it
    leaves an array in depends on the comparator and, where that is not
    consistent, on the engine: what it makes of the clone is the parameter
    [sorted]. *)
Definition CrioArray_sort (this : value) (sorted : list value → list value)
  : M value :=
  λ st,
    let clone := array_like st this in
    let sortedArray := sorted clone in
    returnCorrectObject this (VArr sortedArray) CrioArrayT st.

(** [mutate(fn, thisArg)]: the callback gets the thawed collection and the
    collection. *)
Definition CrioArray_mutate (this : value) (fn : value → value → value → value)
           (thisArg : value) : M value :=
  let* thawed := thaw_method this in
  λ st,
    let result := fn (or_this this thisArg) thawed this in
    if hasChanged st this result
    then let '(r, st') := getRealValue result st in (Ok r, st')
    else (Ok this, st).

Definition CrioObject_mutate (this : value) (fn : value → value → value → value)
           (thisArg : value) : M value :=
  let* thawed := thaw_method this in
  λ st,
    let result := fn (or_this this thisArg) thawed this in
    if hasChanged st this result
    then let '(r, st') := getRealValue result st in (Ok r, st')
    else (Ok this, st).

(** [reduce(fn, object, thisArg)] is
    [ARRAY_PROTOTYPE.reduce.call(this, fn, object, thisArg)]: [object] is
    always handed over as the initial value, also when it is [undefined], and
    the callback, a function of the accumulator, the item, the index and the
    collection, has no [this]. *)
Definition CrioArray_reduce (this : value)
           (fn : value → value → nat → value → value) (object thisArg : value)
  : M value :=
  λ st,
    match this with
    | VUndef | VNull => (Throw NativeTypeError, st)
    | _ =>
        let reduction :=
          fold_left (λ acc ix, fn acc ix.2 ix.1 this)
                    (imap pair (array_like st this)) object in
        if hasChanged st this reduction
        then let '(r, st') := getRealValue reduction st in (Ok r, st')
        else (Ok this, st)
    end.

Definition CrioArray_reduceRight (this : value)
           (fn : value → value → nat → value → value) (object thisArg : value)
  : M value :=
  λ st,
    match this with
    | VUndef | VNull => (Throw NativeTypeError, st)
    | _ =>
        let reduction :=
          fold_right (λ ix acc, fn acc ix.2 ix.1 this) object
                     (imap pair (array_like st this)) in
        if hasChanged st this reduction
        then let '(r, st') := getRealValue reduction st in (Ok r, st')
        else (Ok this, st)
    end.
End callbacks.

(** ** A reference instance of the helpers

    A hash that is a function of the content alone and has no collisions: the
    content is laid out as a tree and the tree numbered.  It serves to run
    the model on concrete inputs. *)

Definition key_tree (k : key) : gen_tree (Z + string) :=
  match k with
  | KIdx i => GenLeaf (inl (Z.of_nat i))
  | KStr s => GenLeaf (inr s)
  end.

Fixpoint value_tree (v : value) : gen_tree (Z + string) :=
  match v with
  | VUndef => GenNode 0 []
  | VNull => GenNode 1 []
  | VBool b => GenNode (if b then 3 else 2) []
  | VNum z => GenLeaf (inl z)
  | VStr s => GenLeaf (inr s)
  | VArr items => GenNode 4 (map value_tree items)
  | VObj fields =>
      GenNode 5 (map (λ kv, GenNode 6 [key_tree kv.1; value_tree kv.2]) fields)
  | VCrio l => GenNode 7 [GenLeaf (inl (Z.of_nat l))]
  end.

Definition tree_hash (st : store) (v : value) : Z :=
  Z.pos (encode (value_tree (content st v))).

Definition tree_utils : Utils :=
  {| hash := tree_hash; toString := λ _ _, "[object Object]" |}.

(** ** The structural operations, as data *)

(** The methods that return a collection derived from their receiver: the
    structural ones of the two classes. *)
Inductive operation :=
  | ArrayConcat (arrays : list value)
  | ArrayCopyWithin (args : list value)
  | ArrayFill (args : list value)
  | ArrayFilter (fn : value → nat → value → value)
  | ArrayMap (fn : value → nat → value → value)
  | ArrayMerge (objects : list value)
  | ArrayMergeIn (keys : value) (objects : list value)
  | ArrayPop
  | ArrayPush (items : list value)
  | ArraySet (key v : value)
  | ArraySetIn (keys v : value)
  | ArrayShift
  | ArraySlice (args : list value)
  | ArraySort (sorted : list value → list value)
  | ArraySplice (args : list value)
  | ArrayUnshift (items : list value)
  | ObjectMerge (objects : list value)
  | ObjectMergeIn (keys : value) (objects : list value)
  | ObjectSet (key v : value)
  | ObjectSetIn (keys v : value).

Definition perform `{Utils} (op : operation) (this : value) : M value :=
  match op with
  | ArrayConcat arrays => CrioArray_concat this arrays
  | ArrayCopyWithin args => CrioArray_copyWithin this args
  | ArrayFill args => CrioArray_fill this args
  | ArrayFilter fn => CrioArray_filter this fn
  | ArrayMap fn => CrioArray_map this fn
  | ArrayMerge objects => CrioArray_merge this objects
  | ArrayMergeIn keys objects => CrioArray_mergeIn this keys objects
  | ArrayPop => CrioArray_pop this
  | ArrayPush items => CrioArray_push this items
  | ArraySet key v => CrioArray_set this key v
  | ArraySetIn keys v => CrioArray_setIn this keys v
  | ArrayShift => CrioArray_shift this
  | ArraySlice args => CrioArray_slice this args
  | ArraySort sorted => CrioArray_sort this sorted
  | ArraySplice args => CrioArray_splice this args
  | ArrayUnshift items => CrioArray_unshift this items
  | ObjectMerge objects => CrioObject_merge this objects
  | ObjectMergeIn keys objects => CrioObject_mergeIn this keys objects
  | ObjectSet key v => CrioObject_set this key v
  | ObjectSetIn keys v => CrioObject_setIn this keys v
  end.

(** ** Induction on values *)

Section value_induction.
Variable P : value → Prop.
Hypothesis Hundef : P VUndef.
Hypothesis Hnull : P VNull.
Hypothesis Hbool : ∀ b, P (VBool b).
Hypothesis Hnum : ∀ z, P (VNum z).
Hypothesis Hstr : ∀ s, P (VStr s).
Hypothesis Harr : ∀ items, Forall P items → P (VArr items).
Hypothesis Hobj : ∀ fields, Forall (λ kv, P kv.2) fields → P (VObj fields).
Hypothesis Hcrio : ∀ l, P (VCrio l).

Fixpoint value_nested_ind (v : value) : P v :=
  match v with
  | VUndef => Hundef
  | VNull => Hnull
  | VBool b => Hbool b
  | VNum z => Hnum z
  | VStr s => Hstr s
  | VArr items =>
      Harr items
        ((fix go (l : list value) : Forall P l :=
            match l with
            | [] => Forall_nil_2 P
            | x :: r => Forall_cons_2 P x r (value_nested_ind x) (go r)
            end) items)
  | VObj fields =>
      Hobj fields
        ((fix go (l : list (key * value)) : Forall (λ kv, P kv.2) l :=
            match l with
            | [] => Forall_nil_2 _
            | kv :: r =>
                Forall_cons_2 (λ kv, P kv.2) kv r
                  (value_nested_ind kv.2) (go r)
            end) fields)
  | VCrio l => Hcrio l
  end.
End value_induction.

(** ** Well-formed inputs and stores *)

(** A value handed to the library when the store holds [n] collections:
    its references exist, and no plain object lists a property twice. *)
Fixpoint closed (n : nat) (v : value) : bool :=
  match v with
  | VArr items => forallb (closed n) items
  | VObj fields =>
      forallb (λ kv, closed n kv.2) fields && bool_decide (NoDup fields.*1)
  | VCrio l => bool_decide (l < n)
  | _ => true
  end.

(** No plain object inside the value has a property with a native name. *)
Fixpoint reserved_free (v : value) : bool :=
  match v with
  | VArr items => forallb reserved_free items
  | VObj fields =>
      forallb (λ kv, negb (is_native kv.1) && reserved_free kv.2) fields
  | _ => true
  end.

(** A plain structure without the properties the constructors leave out. *)
Fixpoint strip (v : value) : value :=
  match v with
  | VArr items => VArr (map strip items)
  | VObj fields =>
      VObj (omap (λ kv, if is_native kv.1 then None
                        else Some (kv.1, strip kv.2)) fields)
  | _ => v
  end.

Definition primitive (v : value) : bool :=
  match v with
  | VArr _ | VObj _ | VCrio _ => false
  | _ => true
  end.

(** ** Plain names

    The names an object needs not to have for the embedding to show it as
    JavaScript does: [__proto__], and the names of the members a collection
    or a plain object inherits. *)

(** The members of [CrioArray.prototype], as the class lists them. *)
Definition CRIO_ARRAY_MEMBERS : list string :=
  ["constructor"; "concat"; "copyWithin"; "entries"; "equals"; "every";
   "fill"; "filter"; "find"; "findIndex"; "forEach"; "get"; "getIn";
   "includes"; "indexOf"; "join"; "keys"; "lastIndexOf"; "map"; "merge";
   "mergeIn"; "mutate"; "pop"; "push"; "reduce"; "reduceRight"; "set";
   "setIn"; "shift"; "slice"; "some"; "sort"; "splice"; "thaw";
   "toLocaleString"; "toString"; "unshift"; "values"].

(** The members of [CrioObject.prototype]. *)
Definition CRIO_OBJECT_MEMBERS : list string :=
  ["constructor"; "entries"; "equals"; "get"; "getIn"; "hasOwnProperty";
   "isPrototypeOf"; "keys"; "merge"; "mergeIn"; "mutate";
   "propertyIsEnumerable"; "set"; "setIn"; "thaw"; "toLocaleString";
   "toString"; "valueOf"; "values"].

(** The members of [Object.prototype]. *)
Definition OBJECT_PROTOTYPE_MEMBERS : list string :=
  ["constructor"; "__defineGetter__"; "__defineSetter__"; "hasOwnProperty";
   "__lookupGetter__"; "__lookupSetter__"; "isPrototypeOf";
   "propertyIsEnumerable"; "toLocaleString"; "toString"; "valueOf";
   "__proto__"].

Definition plain_key (k : key) : bool :=
  match k with
  | KIdx _ => true
  | KStr s =>
      negb (bool_decide (s ∈ CRIO_ARRAY_MEMBERS ++ CRIO_OBJECT_MEMBERS
                             ++ OBJECT_PROTOTYPE_MEMBERS))
  end.

(** Every plain object inside the value has plain names. *)
Fixpoint plain_names (v : value) : bool :=
  match v with
  | VArr items => forallb plain_names items
  | VObj fields => forallb (λ kv, plain_key kv.1 && plain_names kv.2) fields
  | _ => true
  end.

(** Every collection of the store has plain names. *)
Definition plain_store (st : store) : Prop :=
  Forall (λ c, forallb (λ kv, plain_key kv.1) (c_slots c) = true) st.

(** A name that spells no array index: added to an object, it is listed
    last. *)
Definition is_name (k : key) : bool :=
  match k with
  | KStr _ => true
  | KIdx _ => false
  end.

(** I3: what a slot of the collection at [l] may hold, a primitive or a
    collection made before it. *)
Definition slot_ok (l : loc) (x : value) : Prop :=
  match x with
  | VArr _ | VObj _ => False
  | VCrio l' => l' < l
  | _ => True
  end.

Record cell_ok (l : loc) (c : frozen) : Prop := {
  ok_slots : Forall (λ kv, slot_ok l kv.2) (c_slots c);
  ok_nodup : NoDup (c_slots c).*1;
  ok_native : Forall (λ kv, is_native kv.1 = false) (c_slots c);
  ok_length : c_length c = length (c_slots c);
  ok_array :
    c_type c = CrioArrayT → (c_slots c).*1 = KIdx <$> seq 0 (c_length c)
}.

Definition shape_ok (st : store) : Prop :=
  ∀ l c, st !! l = Some c → cell_ok l c.

(** Every hash code is the hash of some raw input whose normalisation the
    collection is. *)
Definition provenance_ok `{Utils} (st : store) : Prop :=
  ∀ l c, st !! l = Some c →
         ∃ st0 raw, c_hashCode c = hash st0 raw
                    ∧ thaw st (VCrio l) = strip (content st0 raw).

(** The stores the constructors build. *)
Definition wf_store `{Utils} (st : store) : Prop :=
  shape_ok st ∧ provenance_ok st.

(** The hash code of a collection is the hash of its own thawed content. *)
Definition hash_consistent `{Utils} (st : store) (this : value) : Prop :=
  ∃ c, instance st this = Some c ∧ c_hashCode c = hash st (thaw st this).

(** What [getRealValue] promises of its result. *)
Definition construct_post `{Utils} (v : value) (st : store) (r : value)
           (st' : store) : Prop :=
  st `prefix_of` st' ∧ wf_store st' ∧ slot_ok (length st') r
  ∧ thaw st' r = strip (content st v).

(** The callback of [CrioObject]'s constructor. *)
Definition field_fn `{Utils} (kv : key * value) (st : store)
  : option (key * value) * store :=
  if is_native kv.1 then (None, st)
  else let '(x, st') := getRealValue kv.2 st in (Some (kv.1, x), st').

(** A computation only ever adds collections to the store. *)
Definition extends {A} (m : M A) : Prop :=
  ∀ st, st `prefix_of` (m st).2.


(** The two halves of the hash contract I4. *)
Definition hash_of_content `{Utils} : Prop :=
  ∀ st v st' w, content st v = content st' w → hash st v = hash st' w.

Definition hash_collision_free `{Utils} : Prop :=
  ∀ st v st' w, hash st v = hash st' w → content st v = content st' w.

(** ** Sample data and ways of wording the claims *)

(** [r] is an instance that [st] did not hold and [st'] does. *)
Definition fresh_instance (st st' : store) (r : value) : Prop :=
  ∃ l', r = VCrio l' ∧ length st ≤ l' ∧ l' < length st'
        ∧ st `prefix_of` st'.

(** A method that returns a newly made collection on every call. *)
Definition always_allocates `{Utils}
           (method : value → list value → M value) : Prop :=
  ∀ this args st c,
    instance st this = Some c →
    ∃ r st', method this args st = (Ok r, st') ∧ r ≠ this.

Definition array_123 : value := VArr [VNum 1; VNum 2; VNum 3].

(** The store after [crio([1, 2, 3])] under the reference helpers; the
    collection is at location 0. *)
Definition store_123 : store := (crio (H := tree_utils) array_123 []).2.

Definition object_a1 : value := VObj [(KStr "a", VNum 1)].

Definition store_a1 : store := (crio (H := tree_utils) object_a1 []).2.

(** The name of a key, as [Object.entries] and [Object.keys] give it. *)
Definition key_name (k : key) : value :=
  match k with
  | KIdx i => VStr (pretty i)
  | KStr s => VStr s
  end.

(** [entries()] of either class: [OBJECT_ENTRIES(this)], the pairs
    [[key, value]] of the own enumerable properties. *)
Definition entries (st : store) (this : value) : list value :=
  map (λ kv, VArr [key_name kv.1; kv.2]) (own_enumerable st this).


Definition array_of_object : value := VArr [VObj [(KStr "a", VNum 1)]].
Definition object_of_array : value := VObj [(KStr "a", VArr [VNum 1; VNum 2])].

Definition object_length_a : value :=
  VObj [(KStr "length", VNum 5); (KStr "a", VNum 1)].

Definition array_of_length : value := VArr [VObj [(KStr "length", VNum 5)]].

(** [{set: 1, a: 2}]: its property [set] hides the method. *)
Definition object_set_a : value :=
  VObj [(KStr "set", VNum 1); (KStr "a", VNum 2)].

(** [c.set(k, c.get(k))], for each class. *)
Definition CrioArray_set_get `{Utils} (this k : value) : M value :=
  let* x := call_member "get" this (CrioArray_get this k) in
  call_member "set" this (CrioArray_set this k x).

Definition CrioObject_set_get `{Utils} (this k : value) : M value :=
  let* x := call_member "get" this (CrioObject_get this k) in
  call_member "set" this (CrioObject_set this k x).

(** ** Plain structures: reading and writing a property that is there *)



Definition is_raw (v : value) : bool :=
  match v with
  | VArr _ | VObj _ => true
  | _ => false
  end.







(** ** Listing a collection *)

(** [keys()] and [values()] of either class: [OBJECT_KEYS(this)] and
    [OBJECT_VALUES(this)]. *)
Definition keys (st : store) (this : value) : list value :=
  map key_name (OBJECT_KEYS st this).

Definition values (st : store) (this : value) : list value :=
  (own_enumerable st this).*2.

(** ** The class an operation belongs to *)

Definition operation_class (op : operation) : kind :=
  match op with
  | ObjectMerge _ | ObjectMergeIn _ _ | ObjectSet _ _ | ObjectSetIn _ _ =>
      CrioObjectT
  | _ => CrioArrayT
  end.

(** The arguments of an operation are closed values of a store of [n]
    collections, and its callback returns such values from such values.
    [mergeIn] is left aside: at its last key it builds a collection with the
    [merge] of the container's class, which need not be the class of the slot
    merged. *)
Definition closed_operation (n : nat) (op : operation) : Prop :=
  match op with
  | ArrayConcat l | ArrayCopyWithin l | ArrayFill l | ArrayMerge l
  | ArrayPush l | ArraySlice l | ArraySplice l | ArrayUnshift l
  | ObjectMerge l =>
      Forall (λ x, closed n x) l
  | ArrayFilter _ | ArrayPop | ArrayShift => True
  | ArrayMap fn => ∀ x i a, closed n x → closed n (fn x i a)
  | ArraySort sorted => ∀ l, sorted l ≡ₚ l
  | ArraySet _ v | ObjectSet _ v | ArraySetIn _ v | ObjectSetIn _ v =>
      closed n v
  | ArrayMergeIn _ _ | ObjectMergeIn _ _ => False
  end.

(** The values an operation is handed, or its callback returns, have plain
    names, the index of [set] is a number or spells one, and so have the keys
    of [set] and of the path of [setIn]. *)
Definition plain_operation `{Utils} (st : store) (op : operation) : Prop :=
  match op with
  | ArrayConcat l | ArrayCopyWithin l | ArrayFill l | ArrayMerge l
  | ArrayPush l | ArraySlice l | ArraySplice l | ArrayUnshift l
  | ObjectMerge l =>
      Forall (λ x, plain_names x) l
  | ArrayFilter _ | ArrayPop | ArrayShift | ArraySort _ => True
  | ArrayMap fn => ∀ x i a, plain_names (fn x i a)
  | ArraySet key v => number_like key ∧ plain_names v
  | ObjectSet key v => plain_key (to_key st key) ∧ plain_names v
  | ArraySetIn keys v | ObjectSetIn keys v =>
      Forall (λ key, plain_key (to_key st key)) (array_like st keys)
      ∧ plain_names v
  | ArrayMergeIn _ _ | ObjectMergeIn _ _ => False
  end.

(** * Properties *)

(** ** Index slots *)

Lemma field_lookup_index_slots_from (items : list value) j i :
  field_lookup (KIdx (j + i)) (imap (λ n x, (KIdx (j + n), x)) items)
  = items !! i.
Proof.
  revert j i. induction items as [|x r IH]; intros j i; simpl; [done|].
  destruct i as [|i]; simpl.
  - rewrite Nat.add_0_r. by rewrite decide_True.
  - rewrite decide_False by (intros [=]; lia).
    specialize (IH (S j) i).
    replace (j + S i) with (S j + i) by lia. rewrite <- IH.
    f_equal. apply imap_ext. intros n y _. simpl. f_equal. f_equal. lia.
Qed.

Lemma field_lookup_index_slots (items : list value) i :
  field_lookup (KIdx i) (index_slots items) = items !! i.
Proof. apply (field_lookup_index_slots_from items 0 i). Qed.

Lemma field_lookup_index_slots_name (items : list value) s :
  field_lookup (KStr s) (index_slots items) = None.
Proof.
  unfold index_slots.
  assert (∀ g : nat → nat, field_lookup (KStr s)
            (imap (λ n x, (KIdx (g n), x)) items) = None) as Hg.
  { induction items as [|x r IH]; intros g; simpl; [done|].
    apply (IH (g ∘ S)). }
  apply (Hg id).
Qed.

Lemma thaw_item_plain n st x :
  (∀ l, x ≠ VCrio l) → thaw_item n st x = x.
Proof. intros Hx. destruct x; try by destruct n. by destruct (Hx l). Qed.

Lemma slot_ok_mono b b' x : b ≤ b' → slot_ok b x → slot_ok b' x.
Proof. intros Hb. destruct x; simpl; auto. lia. Qed.

Lemma crio_prop_idx_ok l c i :
  cell_ok l c → slot_ok l (crio_prop c (KIdx i)).
Proof.
  intros Hc. unfold crio_prop.
  destruct (field_lookup (KIdx i) (c_slots c)) as [v|] eqn:Hv.
  - pose proof (ok_slots _ _ Hc) as Hs. clear Hc.
    induction (c_slots c) as [|[k w] r IH]; simpl in *; [done|].
    inversion Hs; subst. destruct (decide (k = KIdx i)).
    + by inversion Hv; subst.
    + by apply IH.
  - repeat (rewrite decide_False by done). done.
Qed.

Lemma thaw_item_stable n :
  ∀ m st st' x b,
    shape_ok st → st `prefix_of` st' →
    b ≤ length st → b ≤ n → b ≤ m → slot_ok b x →
    thaw_item n st x = thaw_item m st' x.
Proof.
  induction n as [|n IH]; intros m st st' x b Hst Hpre Hb Hn Hm Hx.
  - destruct x; try by destruct m. simpl in Hx. lia.
  - destruct x; try by destruct m.
    simpl in Hx. destruct m as [|m]; [lia|].
    destruct (lookup_lt_is_Some_2 st l) as [c Hc]; [lia|].
    pose proof (prefix_lookup_Some _ _ _ _ Hc Hpre) as Hc'.
    pose proof (Hst _ _ Hc) as Hok.
    cbn [thaw_item]. rewrite Hc, Hc'. destruct (c_type c).
    + f_equal. apply map_ext. intros i.
      apply (IH m st st' _ l); auto; try lia.
      by apply crio_prop_idx_ok.
    + f_equal. apply map_ext_in. intros kv Hin.
      f_equal. apply (IH m st st' _ l); auto; try lia.
      apply list_elem_of_In in Hin. apply list_elem_of_filter in Hin as [_ Hin].
      pose proof (ok_slots _ _ Hok) as Hs.
      rewrite List.Forall_forall in Hs. apply (Hs kv). by apply list_elem_of_In.
Qed.

Lemma thaw_stable st st' x :
  shape_ok st → st `prefix_of` st' → slot_ok (length st) x →
  thaw st' x = thaw st x.
Proof.
  intros Hst Hpre Hx. unfold thaw. symmetry.
  apply (thaw_item_stable _ _ st st' x (length st)); auto.
  by apply prefix_length.
Qed.

Lemma closed_mono n n' v : n ≤ n' → closed n v → closed n' v.
Proof.
  intros Hn. induction v as [| |b|z|s|items IH|fields IH|l] using value_nested_ind;
    simpl; auto.
  - rewrite !forallb_True. intros Hc.
    rewrite List.Forall_forall in *. intros x Hx. apply IH; auto.
  - rewrite !andb_True, !forallb_True. intros [Hc Hd]. split; [|done].
    rewrite List.Forall_forall in *. intros x Hx. apply IH; auto.
  - rewrite !bool_decide_spec. lia.
Qed.

Lemma content_stable st st' v :
  shape_ok st → st `prefix_of` st' → closed (length st) v →
  content st' v = content st v.
Proof.
  intros Hst Hpre.
  induction v as [| |b|z|s|items IH|fields IH|l] using value_nested_ind;
    simpl; auto.
  - rewrite forallb_True. intros Hc. f_equal. apply map_ext_in.
    rewrite List.Forall_forall in *. intros x Hx. apply IH; auto.
  - rewrite andb_True, forallb_True. intros [Hc _]. f_equal. apply map_ext_in.
    rewrite List.Forall_forall in *. intros x Hx. f_equal. apply IH; auto.
  - rewrite bool_decide_spec. intros Hl. by apply thaw_stable.
Qed.

Lemma omap_strip_nonnative (f : value → value) (slots : list (key * value)) :
  omap (λ kv, if is_native kv.1 then None else Some (kv.1, f kv.2)) slots
  = map (λ kv, (kv.1, f kv.2)) (filter (λ kv, is_native kv.1 = false) slots).
Proof.
  induction slots as [|[k x] r IH]; [done|].
  cbn [omap list_omap]. rewrite filter_cons. cbn [fst snd].
  destruct (decide (is_native k = false)) as [Hk|Hk].
  - rewrite Hk. cbn [map fst snd]. f_equal. apply IH.
  - destruct (is_native k); [|done]. apply IH.
Qed.

Lemma omap_fmap_fields (f : key * value → option (key * value))
      (g : key * value → key * value) (l : list (key * value)) :
  omap f (map g l) = omap (λ kv, f (g kv)) l.
Proof.
  induction l as [|kv r IH]; [done|].
  cbn [map omap list_omap]. destruct (f (g kv)); by rewrite IH.
Qed.

Lemma filter_nonnative_idem (l : list (key * value)) :
  filter (λ kv, is_native kv.1 = false)
         (filter (λ kv : key * value, is_native kv.1 = false) l)
  = filter (λ kv, is_native kv.1 = false) l.
Proof.
  induction l as [|kv r IH]; [done|].
  rewrite filter_cons. destruct (decide (is_native kv.1 = false)).
  - rewrite filter_cons, decide_True by done. by rewrite IH.
  - done.
Qed.

Lemma strip_thaw_item n :
  ∀ st x b, shape_ok st → slot_ok b x →
            strip (thaw_item n st x) = thaw_item n st x.
Proof.
  induction n as [|n IH]; intros st x b Hst Hx.
  - by destruct x.
  - destruct x; try done. cbn [thaw_item].
    destruct (st !! l) as [c|] eqn:Hc; [|done].
    pose proof (Hst _ _ Hc) as Hok.
    destruct (c_type c); simpl.
    + f_equal. rewrite map_map. apply map_ext. intros i.
      apply (IH _ _ l); auto. by apply crio_prop_idx_ok.
    + f_equal.
      rewrite omap_fmap_fields. simpl.
      rewrite (omap_strip_nonnative (λ x, strip (thaw_item n st x))).
      rewrite filter_nonnative_idem. apply map_ext_in. intros kv Hin.
      f_equal. apply (IH _ _ l); auto.
      apply list_elem_of_In in Hin. apply list_elem_of_filter in Hin as [_ Hin].
      pose proof (ok_slots _ _ Hok) as Hs.
      rewrite List.Forall_forall in Hs. apply (Hs kv). by apply list_elem_of_In.
Qed.

Lemma strip_thaw st x b :
  shape_ok st → slot_ok b x → strip (thaw st x) = thaw st x.
Proof. apply strip_thaw_item. Qed.

Lemma index_slots_keys (items : list value) :
  (index_slots items).*1 = KIdx <$> seq 0 (length items).
Proof.
  unfold index_slots.
  assert (∀ j, (imap (λ n x, (KIdx (j + n), x)) items).*1
               = KIdx <$> seq j (length items)) as Hj.
  { induction items as [|x r IH]; intros j; [done|].
    cbn [imap fmap list_fmap length seq fst]. f_equal; [f_equal; lia|].
    rewrite <- (IH (S j)). f_equal. apply imap_ext. intros n y _.
    simpl. f_equal. f_equal. lia. }
  apply (Hj 0).
Qed.

Lemma index_slots_values (items : list value) :
  (index_slots items).*2 = items.
Proof.
  unfold index_slots.
  assert (∀ g : nat → nat, (imap (λ n x, (KIdx (g n), x)) items).*2 = items)
    as Hg.
  { induction items as [|x r IH]; intros g; [done|].
    cbn [imap fmap list_fmap snd]. f_equal. apply (IH (g ∘ S)). }
  apply (Hg id).
Qed.

Lemma index_slots_length (items : list value) :
  length (index_slots items) = length items.
Proof. unfold index_slots. apply length_imap. Qed.

Lemma map_item_at {B} (f : value → B) (items : list value) :
  map (λ i, f (item_at items i)) (seq 0 (length items)) = map f items.
Proof.
  assert (∀ pre, map (λ i, f (item_at (pre ++ items) i))
                     (seq (length pre) (length items)) = map f items) as Hp.
  { induction items as [|x r IH]; intros pre; [done|].
    cbn [length seq map]. f_equal.
    - unfold item_at. by rewrite list_lookup_middle.
    - specialize (IH (pre ++ [x])). rewrite length_app in IH. simpl in IH.
      rewrite Nat.add_1_r in IH. rewrite <- IH.
      apply map_ext. intros i. by rewrite <- app_assoc. }
  apply (Hp []).
Qed.

Lemma cell_ok_slots_index l c :
  cell_ok l c → c_type c = CrioArrayT →
  c_slots c = index_slots (c_slots c).*2.
Proof.
  intros Hok Ht. pose proof (ok_array _ _ Hok Ht) as Hk.
  rewrite (ok_length _ _ Hok) in Hk.
  apply (list_eq_same_length _ _ (length (c_slots c))); auto.
  { by rewrite index_slots_length, length_fmap. }
  intros i [k x] [k' x'] Hi Hx Hx'.
  assert ((c_slots c).*1 !! i = Some k) as H1 by (by rewrite list_lookup_fmap, Hx).
  assert ((c_slots c).*2 !! i = Some x) as H2 by (by rewrite list_lookup_fmap, Hx).
  assert ((index_slots (c_slots c).*2).*1 !! i = Some k') as H3
      by (by rewrite list_lookup_fmap, Hx').
  assert ((index_slots (c_slots c).*2).*2 !! i = Some x') as H4
      by (by rewrite list_lookup_fmap, Hx').
  rewrite index_slots_values in H4. rewrite index_slots_keys, length_fmap in H3.
  congruence.
Qed.

Lemma crio_prop_idx c i :
  crio_prop c (KIdx i) = default VUndef (field_lookup (KIdx i) (c_slots c)).
Proof.
  unfold crio_prop. destruct (field_lookup _ _); [done|].
  by repeat (rewrite decide_False by done).
Qed.

Lemma array_like_cell l c :
  cell_ok l c → c_type c = CrioArrayT →
  map (λ i, crio_prop c (KIdx i)) (seq 0 (c_length c)) = (c_slots c).*2.
Proof.
  intros Hok Ht. rewrite (ok_length _ _ Hok).
  transitivity (map id (c_slots c).*2); [|apply map_id].
  rewrite <- (map_item_at id), length_fmap. apply map_ext. intros i.
  rewrite crio_prop_idx. rewrite (cell_ok_slots_index l c) at 1 by done.
  by rewrite field_lookup_index_slots.
Qed.

Section construction_facts.
Context `{Utils}.

Lemma wf_store_alloc st c v :
  wf_store st → cell_ok (length st) c →
  c_hashCode c = hash st v →
  thaw (st ++ [c]) (VCrio (length st)) = strip (content st v) →
  wf_store (st ++ [c]).
Proof.
  intros [Hs Hp] Hc Hh Ht. split.
  - intros l c0 Hl. destruct (decide (l < length st)) as [Hlt|Hge].
    + rewrite lookup_app_l in Hl by done. by apply Hs.
    + assert (l = length st) as ->.
      { apply lookup_lt_Some in Hl. rewrite length_app in Hl. simpl in Hl. lia. }
      rewrite list_lookup_middle in Hl by done. by inversion Hl; subst.
  - intros l c0 Hl. destruct (decide (l < length st)) as [Hlt|Hge].
    + rewrite lookup_app_l in Hl by done.
      destruct (Hp _ _ Hl) as (st0 & raw & Hh0 & Ht0).
      exists st0, raw. split; [done|]. rewrite <- Ht0.
      apply thaw_stable; auto. by apply prefix_app_r.
    + assert (l = length st) as ->.
      { apply lookup_lt_Some in Hl. rewrite length_app in Hl. simpl in Hl. lia. }
      rewrite list_lookup_middle in Hl by done. inversion Hl; subst.
      by exists st, v.
Qed.

Lemma thaw_new_array st c :
  shape_ok st → cell_ok (length st) c → c_type c = CrioArrayT →
  thaw (st ++ [c]) (VCrio (length st)) = VArr (map (thaw st) (c_slots c).*2).
Proof.
  intros Hs Hc Ht. unfold thaw at 1. rewrite length_app. simpl.
  rewrite Nat.add_1_r. cbn [thaw_item].
  rewrite list_lookup_middle by done. rewrite Ht. f_equal.
  rewrite <- (array_like_cell _ _ Hc Ht). rewrite map_map.
  apply map_ext. intros i. symmetry.
  apply (thaw_item_stable _ _ st (st ++ [c]) _ (length st)); auto.
  - by apply prefix_app_r.
  - by apply crio_prop_idx_ok.
Qed.

Lemma thaw_new_object st c :
  shape_ok st → cell_ok (length st) c → c_type c = CrioObjectT →
  thaw (st ++ [c]) (VCrio (length st))
  = VObj (map (λ kv, (kv.1, thaw st kv.2)) (c_slots c)).
Proof.
  intros Hs Hc Ht. unfold thaw at 1. rewrite length_app. simpl.
  rewrite Nat.add_1_r. cbn [thaw_item].
  rewrite list_lookup_middle by done. rewrite Ht. f_equal.
  pose proof (ok_native _ _ Hc) as Hn. pose proof (ok_slots _ _ Hc) as Hsl.
  induction (c_slots c) as [|kv r IH]; [done|].
  inversion Hn; subst. inversion Hsl; subst.
  rewrite filter_cons, decide_True by done. cbn [map]. f_equal; [|by apply IH].
  f_equal. symmetry.
  apply (thaw_item_stable _ _ st (st ++ [c]) _ (length st)); auto.
  by apply prefix_app_r.
Qed.

Lemma slot_ok_prefix (st st' : store) x :
  st `prefix_of` st' → slot_ok (length st) x → slot_ok (length st') x.
Proof. intros Hp. apply slot_ok_mono. by apply prefix_length. Qed.

Lemma forEach_getRealValue items :
  Forall (λ v, ∀ st r st', wf_store st → closed (length st) v →
                           getRealValue v st = (r, st') →
                           construct_post v st r st') items →
  ∀ st items' st1,
    wf_store st → forallb (closed (length st)) items →
    forEach getRealValue items st = (items', st1) →
    st `prefix_of` st1 ∧ wf_store st1
    ∧ Forall (slot_ok (length st1)) items'
    ∧ length items' = length items
    ∧ map (thaw st1) items' = map (λ v, strip (content st v)) items.
Proof.
  induction 1 as [|v rest Hv _ IH]; intros st items' st1 Hwf Hcl Hrun.
  - inversion Hrun; subst.
    split; [reflexivity|]. split; [done|]. split; [constructor|]. done.
  - cbn [forEach] in Hrun.
    destruct (getRealValue v st) as [b sta] eqn:Hb.
    destruct (forEach getRealValue rest sta) as [bs stb] eqn:Hbs.
    inversion Hrun; subst. cbn [forallb] in Hcl.
    apply andb_True in Hcl as [Hcv Hcr].
    destruct (Hv _ _ _ Hwf Hcv Hb) as (Hp1 & Hwf1 & Hok1 & Ht1).
    assert (Is_true (forallb (closed (length sta)) rest)) as Hcr'.
    { rewrite forallb_True in *. eapply List.Forall_impl; [|exact Hcr].
      intros x. apply closed_mono. by apply prefix_length. }
    destruct (IH _ _ _ Hwf1 Hcr' Hbs) as (Hp2 & Hwf2 & Hok2 & Hlen & Ht2).
    split; [by etrans|]. split; [done|].
    split; [constructor; [by eapply slot_ok_prefix|done]|].
    split; [simpl; by rewrite Hlen|].
    cbn [map]. f_equal.
    + rewrite <- Ht1. apply thaw_stable; auto. apply Hwf1.
    + rewrite Ht2. apply map_ext_in. intros x Hx. f_equal.
      apply content_stable; auto; [apply Hwf|].
      rewrite forallb_True, List.Forall_forall in Hcr. by apply Hcr.
Qed.

Lemma forEach_fields fields :
  Forall (λ kv, ∀ st r st', wf_store st → closed (length st) kv.2 →
                            getRealValue kv.2 st = (r, st') →
                            construct_post kv.2 st r st') fields →
  ∀ st slots st1,
    wf_store st → forallb (λ kv, closed (length st) kv.2) fields →
    forEach field_fn fields st = (slots, st1) →
    st `prefix_of` st1 ∧ wf_store st1
    ∧ Forall (λ kv, slot_ok (length st1) kv.2) (omap id slots)
    ∧ (omap id slots).*1 = filter (λ k, is_native k = false) fields.*1
    ∧ map (λ kv, (kv.1, thaw st1 kv.2)) (omap id slots)
      = omap (λ kv, if is_native kv.1 then None
                    else Some (kv.1, strip (content st kv.2))) fields.
Proof.
  induction 1 as [|[k v] rest Hv _ IH]; intros st slots st1 Hwf Hcl Hrun.
  - inversion Hrun; subst.
    split; [reflexivity|]. split; [done|]. split; [constructor|]. done.
  - cbn [forEach] in Hrun. unfold field_fn at 1 in Hrun.
    cbn [fst snd] in *. cbn [forallb] in Hcl.
    apply andb_True in Hcl as [Hcv Hcr]. cbn [fst snd] in Hcv.
    rewrite fmap_cons, filter_cons. cbn [fst snd omap list_omap].
    destruct (is_native k) eqn:Hk.
    + destruct (forEach field_fn rest st) as [bs stb] eqn:Hbs.
      inversion Hrun; subst.
      rewrite decide_False by done. cbn [omap list_omap id].
      by apply IH.
    + destruct (getRealValue v st) as [b sta] eqn:Hb.
      destruct (forEach field_fn rest sta) as [bs stb] eqn:Hbs.
      inversion Hrun; subst.
      rewrite decide_True by done. cbn [omap list_omap id].
      destruct (Hv _ _ _ Hwf Hcv Hb) as (Hp1 & Hwf1 & Hok1 & Ht1).
      assert (Is_true (forallb (λ kv, closed (length sta) kv.2) rest)) as Hcr'.
      { rewrite forallb_True in *. eapply List.Forall_impl; [|exact Hcr].
        intros x. apply closed_mono. by apply prefix_length. }
      destruct (IH _ _ _ Hwf1 Hcr' Hbs) as (Hp2 & Hwf2 & Hok2 & Hkeys & Ht2).
      split; [by etrans|]. split; [done|].
      split; [constructor; [by eapply slot_ok_prefix|done]|].
      split; [cbn [fmap list_fmap fst]; by rewrite <- Hkeys|].
      cbn [map fst snd]. f_equal.
      * f_equal. rewrite <- Ht1. apply thaw_stable; auto. apply Hwf1.
      * rewrite Ht2. clear -Hcr Hwf Hp1.
        rewrite forallb_True in Hcr.
        induction Hcr as [|[k' x] r Hx _ IHr]; [done|].
        cbn [omap list_omap fst snd] in *.
        rewrite IHr. rewrite (content_stable st sta x); auto. apply Hwf.
Qed.

Lemma getRealValue_spec v :
  ∀ st r st', wf_store st → closed (length st) v →
              getRealValue v st = (r, st') →
              construct_post v st r st'.
Proof.
  induction v as [| |b|z|s|items IH|fields IH|l] using value_nested_ind;
    intros st r st' Hwf Hcl Hrun; cbn [getRealValue] in Hrun;
    try (inversion Hrun; subst;
         split; [reflexivity|]; split; [done|]; split; [done|];
         unfold thaw; by rewrite thaw_item_plain).
  - destruct (forEach getRealValue items st) as [items' st1] eqn:Hitems.
    unfold alloc in Hrun. inversion Hrun; subst. clear Hrun.
    cbn [closed] in Hcl.
    destruct (forEach_getRealValue _ IH _ _ _ Hwf Hcl Hitems)
      as (Hp & Hwf1 & Hok & Hlen & Hth).
    set (c := {| c_type := CrioArrayT; c_hashCode := hash st1 (VArr items);
                 c_length := length items; c_slots := index_slots items' |}).
    assert (cell_ok (length st1) c) as Hc.
    { constructor; simpl.
      - rewrite <- (index_slots_values items') in Hok.
        by rewrite Forall_fmap in Hok.
      - rewrite index_slots_keys. apply NoDup_fmap_2; [|apply NoDup_seq].
        by intros ?? [=].
      - apply List.Forall_forall. intros [k x] Hin.
        assert (k ∈ (index_slots items').*1) as Hk.
        { apply list_elem_of_fmap. exists (k, x). split; [done|].
          by apply list_elem_of_In. }
        rewrite index_slots_keys in Hk.
        apply list_elem_of_fmap in Hk as (i & -> & _). done.
      - by rewrite index_slots_length.
      - intros _. by rewrite index_slots_keys, Hlen. }
    assert (thaw (st1 ++ [c]) (VCrio (length st1))
            = strip (content st (VArr items))) as Hthaw.
    { rewrite (thaw_new_array st1 c); [|apply Hwf1|done|done].
      simpl. rewrite index_slots_values, Hth. by rewrite map_map. }
    split; [by apply prefix_app_r|].
    split.
    { apply (wf_store_alloc st1 c (VArr items)); auto.
      rewrite Hthaw. f_equal. symmetry.
      apply content_stable; auto. apply Hwf. }
    split; [simpl; rewrite length_app; simpl; lia|done].
  - destruct (forEach _ fields st) as [slots st1] eqn:Hfields.
    unfold alloc in Hrun. inversion Hrun; subst. clear Hrun.
    cbn [closed] in Hcl. apply andb_True in Hcl as [Hcl Hnd].
    apply bool_decide_spec in Hnd.
    destruct (forEach_fields _ IH _ _ _ Hwf Hcl Hfields)
      as (Hp & Hwf1 & Hok & Hkeys & Hth).
    set (c := {| c_type := CrioObjectT; c_hashCode := hash st1 (VObj fields);
                 c_length := length (omap id slots);
                 c_slots := omap id slots |}).
    assert (cell_ok (length st1) c) as Hc.
    { constructor; simpl; [done| | |done|done].
      - rewrite Hkeys. by apply list.NoDup_filter.
      - apply List.Forall_forall. intros [k x] Hin.
        assert (k ∈ (omap id slots).*1) as Hk.
        { apply list_elem_of_fmap. exists (k, x). split; [done|].
          by apply list_elem_of_In. }
        rewrite Hkeys in Hk. by apply list_elem_of_filter in Hk as [Hk _]. }
    assert (thaw (st1 ++ [c]) (VCrio (length st1))
            = strip (content st (VObj fields))) as Hthaw.
    { rewrite (thaw_new_object st1 c); [|apply Hwf1|done|done].
      simpl. rewrite Hth. f_equal. by rewrite omap_fmap_fields. }
    split; [by apply prefix_app_r|].
    split.
    { apply (wf_store_alloc st1 c (VObj fields)); auto.
      rewrite Hthaw. f_equal. symmetry.
      apply content_stable; auto; [apply Hwf|].
      cbn [closed]. apply andb_True. split; [done|by apply bool_decide_spec]. }
    split; [simpl; rewrite length_app; simpl; lia|done].
  - inversion Hrun; subst. cbn [closed] in Hcl. apply bool_decide_spec in Hcl.
    split; [reflexivity|]. split; [done|]. split; [done|].
    simpl. symmetry. apply (strip_thaw _ _ (length st')); [apply Hwf|done].
Qed.
End construction_facts.

(** ** Operations only add to the store *)

Lemma forEach_prefix {A B} (fn : A → store → B * store) (l : list A) :
  Forall (λ a, ∀ st, st `prefix_of` (fn a st).2) l →
  ∀ st, st `prefix_of` (forEach fn l st).2.
Proof.
  induction 1 as [|a r Ha _ IH]; intros st; cbn [forEach]; [done|].
  specialize (Ha st). destruct (fn a st) as [b st1].
  specialize (IH st1). destruct (forEach fn r st1) as [bs st2].
  simpl in *. by etrans.
Qed.

Lemma extends_ret {A} (a : A) : extends (ret a).
Proof. by intros st. Qed.

Lemma extends_throw {A} (e : error) : extends (throw (A := A) e).
Proof. by intros st. Qed.

Lemma extends_lift {A} (r : result A) : extends (lift r).
Proof. by intros st. Qed.

Lemma extends_bind {A B} (m : M A) (f : A → M B) :
  extends m → (∀ a, extends (f a)) → extends (bind m f).
Proof.
  intros Hm Hf st. unfold bind. specialize (Hm st).
  destruct (m st) as [[a|e] st1]; simpl in *; [|done].
  etrans; [exact Hm|]. apply Hf.
Qed.

Section frame.
Context `{Utils}.

Lemma getRealValue_prefix v : ∀ st, st `prefix_of` (getRealValue v st).2.
Proof.
  induction v as [| |b|z|s|items IH|fields IH|l] using value_nested_ind;
    intros st; cbn [getRealValue]; try done.
  - pose proof (forEach_prefix getRealValue items IH st) as Hp.
    destruct (forEach getRealValue items st) as [items' st1].
    simpl in *. etrans; [exact Hp|]. by apply prefix_app_r.
  - assert (Forall (λ kv, ∀ st, st `prefix_of` (field_fn kv st).2) fields) as Hf.
    { eapply List.Forall_impl; [|exact IH]. intros [k x] Hx st0.
      unfold field_fn. cbn [fst snd] in *. destruct (is_native k); [done|].
      specialize (Hx st0). by destruct (getRealValue x st0). }
    pose proof (forEach_prefix field_fn fields Hf st) as Hp.
    change (forEach _ fields st) with (forEach field_fn fields st).
    destruct (forEach field_fn fields st) as [slots st1].
    simpl in *. etrans; [exact Hp|]. by apply prefix_app_r.
Qed.

Lemma CrioArray_new_extends array : extends (CrioArray_new array).
Proof.
  intros st. destruct array; try done. unfold CrioArray_new.
  pose proof (getRealValue_prefix (VArr items) st) as Hp.
  by destruct (getRealValue (VArr items) st).
Qed.

Lemma CrioObject_new_extends object : extends (CrioObject_new object).
Proof.
  intros st. destruct object; try done; unfold CrioObject_new.
  - by apply prefix_app_r.
  - by apply prefix_app_r.
  - by apply prefix_app_r.
  - pose proof (forEach_prefix getRealValue items) as Hp.
    specialize (Hp (list.Forall_true _ _ getRealValue_prefix) st).
    destruct (forEach getRealValue items st) as [items' st1].
    simpl in *. etrans; [exact Hp|]. by apply prefix_app_r.
  - pose proof (getRealValue_prefix (VObj fields) st) as Hp.
    by destruct (getRealValue (VObj fields) st).
Qed.

Lemma construct_extends K v : extends (construct K v).
Proof.
  destruct K; [apply CrioArray_new_extends|apply CrioObject_new_extends].
Qed.

Lemma returnCorrectObject_extends crio newObject K :
  extends (returnCorrectObject crio newObject K).
Proof.
  intros st. unfold returnCorrectObject.
  destruct (hasChanged st crio newObject); [apply construct_extends|done].
Qed.

Lemma CrioArray_merge_extends this objects :
  extends (CrioArray_merge this objects).
Proof.
  intros st. unfold CrioArray_merge.
  destruct (merge_each _ _ _); [apply returnCorrectObject_extends|done].
Qed.

Lemma CrioObject_merge_extends this objects :
  extends (CrioObject_merge this objects).
Proof.
  intros st. unfold CrioObject_merge.
  destruct (if negb (isCrio this) then this else _); try done;
    (destruct (assign_each _ _ _); [apply returnCorrectObject_extends|done]).
Qed.

Lemma merge_of_extends K this objects : extends (merge_of K this objects).
Proof.
  destruct K; [apply CrioArray_merge_extends|apply CrioObject_merge_extends].
Qed.

Lemma deepAssign_extends keys v isMerge :
  ∀ currentObject, extends (deepAssign keys v isMerge currentObject).
Proof.
  induction keys as [|key rest IH]; intros currentObject st; [done|].
  cbn [deepAssign].
  destruct (get_prop st currentObject key) as [currentValue|]; [|done].
  set (vivify := negb (isArray st currentValue)
                 && negb (isObject st currentValue)).
  destruct (if vivify then raw_set currentObject key (VObj [])
            else Ok currentObject) as [currentObject1|]; [|done].
  destruct rest as [|key' rest'].
  - apply extends_bind; [|intros; apply extends_lift].
    destruct isMerge; [|apply extends_ret].
    apply extends_bind; [apply extends_lift|].
    intros objects. apply merge_of_extends.
  - apply extends_bind; [apply IH|intros; apply extends_lift].
Qed.

Lemma assignOnDeepMatch_extends object keys v isMerge :
  extends (assignOnDeepMatch object keys v isMerge).
Proof.
  intros st. unfold assignOnDeepMatch.
  apply extends_bind; [by intros st'|]. intros currentObject.
  apply extends_bind; [apply deepAssign_extends|].
  intros. apply returnCorrectObject_extends.
Qed.

Lemma perform_extends op this : extends (perform op this).
Proof.
  destruct op; cbn [perform].
  - destruct arrays; [apply extends_ret|].
    intros st. apply CrioArray_new_extends.
  - intros st. apply returnCorrectObject_extends.
  - intros st. apply returnCorrectObject_extends.
  - intros st. apply returnCorrectObject_extends.
  - intros st. apply returnCorrectObject_extends.
  - apply CrioArray_merge_extends.
  - intros st. unfold CrioArray_mergeIn.
    destruct (negb _); [done|]. destruct objects; [done|].
    apply assignOnDeepMatch_extends.
  - intros st. unfold CrioArray_pop. destruct (instance st this); [|done].
    apply CrioArray_new_extends.
  - intros st. apply CrioArray_new_extends.
  - intros st. unfold CrioArray_set. destruct (instance st this); [|done].
    destruct (number_gt _ _); [done|].
    destruct (raw_set _ _ _); [apply returnCorrectObject_extends|done].
  - intros st. unfold CrioArray_setIn. destruct (negb _); [done|].
    apply assignOnDeepMatch_extends.
  - intros st. unfold CrioArray_shift. destruct (instance st this); [|done].
    apply CrioArray_new_extends.
  - destruct args; [apply extends_ret|]. intros st. apply CrioArray_new_extends.
  - intros st. apply returnCorrectObject_extends.
  - intros st. apply returnCorrectObject_extends.
  - destruct items; [apply extends_ret|]. intros st. apply CrioArray_new_extends.
  - apply CrioObject_merge_extends.
  - intros st. unfold CrioObject_mergeIn.
    destruct (negb _); [done|]. destruct objects; [done|].
    apply assignOnDeepMatch_extends.
  - intros st. unfold CrioObject_set.
    destruct (raw_set _ _ _); [apply returnCorrectObject_extends|done].
  - intros st. unfold CrioObject_setIn. destruct (negb _); [done|].
    apply assignOnDeepMatch_extends.
Qed.
End frame.

(** ** Fresh instances *)

Section fresh.
Context `{Utils}.

Lemma getRealValue_array_fresh items st :
  ∃ st1 c, getRealValue (VArr items) st = (VCrio (length st1), st1 ++ [c])
           ∧ st `prefix_of` st1
           ∧ c_type c = CrioArrayT
           ∧ c_hashCode c = hash st1 (VArr items).
Proof.
  cbn [getRealValue].
  pose proof (forEach_prefix getRealValue items
                (list.Forall_true _ _ getRealValue_prefix) st) as Hp.
  destruct (forEach getRealValue items st) as [items' st1].
  eexists st1, _. split; [reflexivity|]. by repeat split.
Qed.

Lemma CrioArray_new_fresh items st :
  ∃ l' st', CrioArray_new (VArr items) st = (Ok (VCrio l'), st')
            ∧ length st ≤ l' ∧ length st' = S l' ∧ st `prefix_of` st'.
Proof.
  destruct (getRealValue_array_fresh items st) as (st1 & c & Hrun & Hp & _).
  unfold CrioArray_new. rewrite Hrun.
  exists (length st1), (st1 ++ [c]). split; [done|].
  split; [by apply prefix_length|].
  split; [rewrite length_app; simpl; lia|by apply prefix_app_r].
Qed.
End fresh.

Lemma pretty_negative_not_length (z : Z) :
  (z < 0)%Z → pretty z ≠ "length".
Proof. destruct z; try lia. intros _. unfold pretty, pretty_Z. done. Qed.

Lemma raw_set_array_number items index v :
  ∃ items', raw_set (VArr items)
              (from_option key_of_number (KStr "NaN") index) v
            = Ok (VArr items').
Proof.
  destruct index as [z|]; cbn [from_option]; [|by eexists].
  unfold key_of_number. destruct (decide (0 ≤ z)%Z); [by eexists|].
  cbn [raw_set]. rewrite decide_False; [by eexists|].
  apply pretty_negative_not_length. lia.
Qed.

Lemma returnCorrectObject_array_ok `{Utils} this items st :
  ∃ r st', returnCorrectObject this (VArr items) CrioArrayT st = (Ok r, st').
Proof.
  unfold returnCorrectObject. destruct (hasChanged _ _ _); [|by eexists _, _].
  destruct (CrioArray_new_fresh items st) as (l' & st' & Hrun & _).
  cbn [construct]. rewrite Hrun. by eexists _, _.
Qed.

Lemma CrioArray_set_ok `{Utils} this key v st c :
  instance st this = Some c →
  number_gt (to_number key) (Z.of_nat (c_length c)) = false →
  ∃ r st', CrioArray_set this key v st = (Ok r, st').
Proof.
  intros Hc Hgt. unfold CrioArray_set. rewrite Hc, Hgt.
  unfold shallowCloneArray.
  destruct (raw_set_array_number (array_like st this) (to_number key) v)
    as [items' ->].
  apply returnCorrectObject_array_ok.
Qed.

Lemma number_gt_spec index n :
  number_gt index n = true ↔ ∃ z, index = Some z ∧ (n < z)%Z.
Proof.
  destruct index as [z|]; simpl.
  - rewrite Z.ltb_lt. split; [by exists z|]. by intros (? & [= <-] & ?).
  - split; [done|]. by intros (? & ? & _).
Qed.

Lemma array_like_length st this c :
  instance st this = Some c → length (array_like st this) = c_length c.
Proof.
  destruct this; try done. simpl. intros ->.
  by rewrite length_map, length_seq.
Qed.

Lemma resize_length (items : list value) : resize (length items) items = items.
Proof.
  unfold resize. rewrite firstn_all, Nat.sub_diag. simpl. by rewrite app_nil_r.
Qed.

(** ** No argument error past the check *)

(** ** The calls of [thaw] *)


Lemma mapi_result_map {A B} (f : nat → A → result B) (g : A → B) l :
  Forall (λ x, ∀ i, f i x = Ok (g x)) l →
  ∀ k, mapi_result f k l = Ok (map g l).
Proof.
  induction 1 as [|x r Hx _ IH]; intros k; cbn [mapi_result map]; [done|].
  by rewrite Hx, IH.
Qed.

Lemma mapi_result_inv {A B} (f : nat → A → result B) (g : A → B) l :
  Forall (λ x, ∀ i y, f i x = Ok y → y = g x) l →
  ∀ k ys, mapi_result f k l = Ok ys → ys = map g l.
Proof.
  induction 1 as [|x r Hx _ IH]; intros k ys; cbn [mapi_result map].
  - by intros [= <-].
  - destruct (f k x) as [y|] eqn:Hy; [|done].
    destruct (mapi_result f (S k) r) as [ys'|] eqn:Hr; [|done].
    intros [= <-]. by rewrite (Hx _ _ Hy), (IH _ _ Hr).
Qed.



(** What [thaw] returns, when it returns, is the plain structure the
    collection stands for. *)
Lemma thaw_call_sound n :
  ∀ st item t,
    isCrio item = true → thaw_call n st item = Ok t →
    t = thaw_item n st item.
Proof.
  induction n as [|n IH]; intros st item t Hi; cbn [thaw_call].
  - destruct item; try done. destruct (instance _ _); [|done].
    destruct (hides _ _ _); [done|]. by intros [= <-].
  - destruct item as [| | | | | | |l]; try done. cbn [instance thaw_item].
    destruct (st !! l) as [c|] eqn:Hc; [|done].
    destruct (hides st (VCrio l) "thaw"); [done|].
    assert (∀ x y, clean (thaw_call n st) x = Ok y → y = thaw_item n st x)
      as Hclean.
    { intros x y. unfold clean. destruct (isCrio x) eqn:Hx.
      - by apply IH.
      - intros [= <-]. symmetry. apply thaw_item_plain. intros l' ->. done. }
    destruct (c_type c).
    + unfold CrioArray_thaw_with. cbn [array_like]. rewrite Hc.
      destruct (mapi_result _ _ _) as [items|] eqn:Hm; [|done].
      intros [= <-]. f_equal.
      apply (mapi_result_inv _ (thaw_item n st)) in Hm.
      * by rewrite Hm, map_map.
      * apply Forall_forall. intros x _ i y. apply Hclean.
    + unfold CrioObject_thaw_with. cbn [own_enumerable]. rewrite Hc.
      destruct (mapi_result _ _ _) as [fields|] eqn:Hm; [|done].
      intros [= <-]. f_equal.
      apply (mapi_result_inv _ (λ kv, (kv.1, thaw_item n st kv.2))) in Hm;
        [done|].
      apply Forall_forall. intros kv _ i y.
      destruct (clean (thaw_call n st) kv.2) as [x|] eqn:Hx; [|done].
      destruct (hides st (VCrio l) "propertyIsEnumerable"); [done|].
      intros [= <-]. by rewrite (Hclean _ _ Hx).
Qed.

Lemma thaw_method_sound object st t st' :
  thaw_method object st = (Ok t, st') → t = thaw st object ∧ st' = st.
Proof.
  unfold thaw_method. intros [= Ht <-]. split; [|done].
  destruct (isCrio object) eqn:Hi; [by apply thaw_call_sound|].
  destruct object; try done; by destruct (length st).
Qed.





Section quiet.
Context `{Utils}.











End quiet.

(** ** Iteration *)

Lemma field_lookup_nodup (l : list (key * value)) i k v :
  NoDup l.*1 → l !! i = Some (k, v) → field_lookup k l = Some v.
Proof.
  revert i. induction l as [|[k' v'] r IH]; intros i Hnd Hi; [done|].
  rewrite fmap_cons in Hnd. apply list.NoDup_cons in Hnd as [Hk Hnd].
  cbn [field_lookup]. destruct i as [|i]; simpl in Hi.
  - inversion Hi; subst. by rewrite decide_True.
  - rewrite decide_False; [by apply (IH i)|].
    intros ->. apply Hk. apply list_elem_of_fmap. exists (k, v).
    split; [done|]. by eapply list_elem_of_lookup_2.
Qed.




(** ** Thawed content *)

Lemma thaw_plain st x : (∀ l, x ≠ VCrio l) → thaw st x = x.
Proof. apply thaw_item_plain. Qed.

Lemma thaw_item_cell n st l c :
  shape_ok st → st !! l = Some c → l < n →
  thaw_item n st (VCrio l)
  = match c_type c with
    | CrioArrayT => VArr (map (thaw_item n st) (c_slots c).*2)
    | CrioObjectT => VObj (map (λ kv, (kv.1, thaw_item n st kv.2)) (c_slots c))
    end.
Proof.
  intros Hs Hc Hl. pose proof (Hs _ _ Hc) as Hok.
  pose proof (lookup_lt_Some _ _ _ Hc) as Hlt.
  destruct n as [|m]; [lia|].
  remember (S m) as n eqn:Hn. rewrite Hn at 1. cbn [thaw_item]. rewrite Hc.
  destruct (c_type c) eqn:Ht.
  - f_equal. rewrite <- (array_like_cell _ _ Hok Ht), map_map.
    apply map_ext. intros i.
    apply (thaw_item_stable _ _ st st _ l); auto; try lia.
    by apply crio_prop_idx_ok.
  - f_equal. pose proof (ok_native _ _ Hok) as Hnat.
    pose proof (ok_slots _ _ Hok) as Hsl.
    induction (c_slots c) as [|kv r IH]; [done|].
    inversion Hnat; subst. inversion Hsl; subst.
    rewrite filter_cons, decide_True by done. cbn [map]. f_equal; [|by apply IH].
    f_equal. apply (thaw_item_stable _ _ st st _ l); auto; lia.
Qed.

Lemma thaw_cell st l c :
  shape_ok st → st !! l = Some c →
  thaw st (VCrio l)
  = match c_type c with
    | CrioArrayT => VArr (map (thaw st) (c_slots c).*2)
    | CrioObjectT => VObj (map (λ kv, (kv.1, thaw st kv.2)) (c_slots c))
    end.
Proof.
  intros Hs Hc. apply thaw_item_cell; auto. by eapply lookup_lt_Some.
Qed.

(** ** Plain names *)

Lemma field_lookup_elem k (fs : list (key * value)) v :
  field_lookup k fs = Some v → (k, v) ∈ fs.
Proof.
  induction fs as [|[k' w] r IH]; cbn [field_lookup]; [done|].
  destruct (decide (k' = k)) as [->|].
  - intros [= ->]. apply list_elem_of_here.
  - intros Hr. apply list_elem_of_further. by apply IH.
Qed.

Lemma plain_store_cell st l c :
  plain_store st → st !! l = Some c →
  forallb (λ kv, plain_key kv.1) (c_slots c) = true.
Proof. intros Hp Hc. by apply (Forall_lookup_1 _ _ _ _ Hp Hc). Qed.

Lemma plain_cell_hides st l c name :
  st !! l = Some c →
  forallb (λ kv, plain_key kv.1) (c_slots c) = true →
  plain_key (KStr name) = false →
  hides st (VCrio l) name = false.
Proof.
  intros Hc Hp Hn. unfold hides, own_property. cbn [own_enumerable].
  rewrite Hc. apply bool_decide_eq_false. intros [v Hv].
  apply field_lookup_elem in Hv.
  rewrite List.forallb_forall in Hp.
  apply list_elem_of_In in Hv. apply Hp in Hv. cbn [fst] in Hv. congruence.
Qed.

Lemma array_cell_hides st l c name :
  st !! l = Some c → cell_ok l c → c_type c = CrioArrayT →
  hides st (VCrio l) name = false.
Proof.
  intros Hc Hok Ht. unfold hides, own_property. cbn [own_enumerable].
  rewrite Hc, (cell_ok_slots_index l c Hok Ht).
  rewrite field_lookup_index_slots_name.
  apply bool_decide_eq_false. by intros [v Hv].
Qed.

(** The names of a keyed collection are those of the object it thaws to. *)
Lemma thawed_names_hide n st l c name :
  st !! l = Some c → c_type c = CrioObjectT →
  plain_names (thaw_item (S n) st (VCrio l)) = true →
  plain_key (KStr name) = false → is_native (KStr name) = false →
  hides st (VCrio l) name = false.
Proof.
  intros Hc Ht Hp Hn Hnat. cbn [thaw_item] in Hp. rewrite Hc, Ht in Hp.
  cbn [plain_names] in Hp. rewrite List.forallb_forall in Hp.
  unfold hides, own_property. cbn [own_enumerable]. rewrite Hc.
  apply bool_decide_eq_false. intros [v Hv]. apply field_lookup_elem in Hv.
  assert (plain_key (KStr name) && plain_names (thaw_item n st v) = true)
    as Hf; [|by rewrite Hn in Hf].
  apply (Hp (KStr name, thaw_item n st v)). apply list_elem_of_In.
  apply (list_elem_of_fmap_2 (λ kv : key * value, (kv.1, thaw_item n st kv.2))
           _ (KStr name, v)).
  by apply list_elem_of_filter.
Qed.

(** A collection whose content has plain names thaws: every call of [thaw]
    and of [propertyIsEnumerable] inside finds the member. *)
Lemma thaw_call_content n :
  ∀ st l c,
    shape_ok st → st !! l = Some c → l < n →
    plain_names (thaw_item n st (VCrio l)) = true →
    thaw_call n st (VCrio l) = Ok (thaw_item n st (VCrio l)).
Proof.
  induction n as [|n IH]; intros st l c Hs Hc Hl Hp; [lia|].
  pose proof (Hs _ _ Hc) as Hok.
  assert (∀ x, slot_ok l x → plain_names (thaw_item n st x) = true →
               clean (thaw_call n st) x = Ok (thaw_item n st x)) as Hclean.
  { intros x Hx Hpx. unfold clean.
    destruct x as [| | | | | | |l']; try done; try by destruct n.
    cbn [isCrio]. simpl in Hx.
    destruct (lookup_lt_is_Some_2 st l') as [c' Hc'].
    { apply lookup_lt_Some in Hc. lia. }
    apply (IH st l' c'); auto. lia. }
  destruct (c_type c) eqn:Ht.
  - cbn [thaw_call instance]. rewrite Hc, Ht.
    rewrite (array_cell_hides st l c "thaw" Hc Hok Ht).
    cbn [thaw_item] in Hp |- *. rewrite Hc, Ht in Hp |- *.
    unfold CrioArray_thaw_with. cbn [array_like]. rewrite Hc.
    rewrite (mapi_result_map _ (thaw_item n st)); [by rewrite map_map|].
    apply List.Forall_forall. intros x Hx i.
    apply in_map_iff in Hx as (j & <- & Hj).
    apply Hclean; [by apply crio_prop_idx_ok|].
    cbn [plain_names] in Hp. rewrite List.forallb_forall in Hp. apply Hp.
    apply in_map_iff. by exists j.
  - pose proof (thawed_names_hide n st l c "thaw" Hc Ht Hp eq_refl eq_refl)
      as Hh1.
    pose proof (thawed_names_hide n st l c "propertyIsEnumerable" Hc Ht Hp
                  eq_refl eq_refl) as Hh2.
    cbn [thaw_call instance]. rewrite Hc, Ht, Hh1.
    cbn [thaw_item] in Hp |- *. rewrite Hc, Ht in Hp |- *.
    unfold CrioObject_thaw_with. cbn [own_enumerable]. rewrite Hc, Hh2.
    rewrite (mapi_result_map _ (λ kv, (kv.1, thaw_item n st kv.2))); [done|].
    apply List.Forall_forall. intros kv Hkv i.
    rewrite Hclean; [done| |].
    + apply list_elem_of_In, list_elem_of_filter in Hkv as [_ Hkv].
      pose proof (ok_slots _ _ Hok) as Hsl.
      rewrite List.Forall_forall in Hsl. apply (Hsl kv).
      by apply list_elem_of_In.
    + cbn [plain_names] in Hp. rewrite List.forallb_forall in Hp.
      specialize (Hp (kv.1, thaw_item n st kv.2)).
      apply andb_true_iff in Hp as [_ Hp]; [done|].
      apply in_map_iff. by exists kv.
Qed.

Lemma thaw_item_plain_names n :
  ∀ st x b,
    shape_ok st → plain_store st → slot_ok b x →
    plain_names (thaw_item n st x) = true.
Proof.
  induction n as [|n IH]; intros st x b Hs Hp Hx.
  - by destruct x.
  - destruct x; try done. cbn [thaw_item].
    destruct (st !! l) as [c|] eqn:Hc; [|done].
    pose proof (Hs _ _ Hc) as Hok.
    destruct (c_type c); cbn [plain_names]; apply List.forallb_forall.
    + intros x Hx'. apply in_map_iff in Hx' as (j & <- & _).
      apply (IH _ _ l); auto. by apply crio_prop_idx_ok.
    + intros kv Hkv. apply in_map_iff in Hkv as (kv' & <- & Hkv).
      apply list_elem_of_In, list_elem_of_filter in Hkv as [_ Hkv].
      cbn [fst snd]. apply andb_true_iff. split.
      * pose proof (plain_store_cell _ _ _ Hp Hc) as Hpc.
        rewrite List.forallb_forall in Hpc. apply (Hpc kv').
        by apply list_elem_of_In.
      * apply (IH _ _ l); auto.
        pose proof (ok_slots _ _ Hok) as Hsl.
        rewrite List.Forall_forall in Hsl. apply (Hsl kv').
        by apply list_elem_of_In.
Qed.

Lemma thaw_plain_names st x b :
  shape_ok st → plain_store st → slot_ok b x → plain_names (thaw st x) = true.
Proof. apply thaw_item_plain_names. Qed.

(** [r.thaw()] on a collection whose content has plain names. *)
Lemma thaw_method_content st r c :
  shape_ok st → instance st r = Some c → plain_names (thaw st r) = true →
  thaw_method r st = (Ok (thaw st r), st).
Proof.
  intros Hs Hc Hp. destruct r; try done. cbn [instance] in Hc.
  unfold thaw_method, thaw.
  rewrite (thaw_call_content _ st l c); auto. by eapply lookup_lt_Some.
Qed.

Lemma thaw_method_plain st this c :
  shape_ok st → plain_store st → instance st this = Some c →
  thaw_method this st = (Ok (thaw st this), st).
Proof.
  intros Hs Hp Hc. apply (thaw_method_content st this c); auto.
  destruct this; try done. apply (thaw_plain_names st _ (S l)); auto.
  simpl. lia.
Qed.

Lemma content_slot st b x : slot_ok b x → content st x = thaw st x.
Proof. destruct x; try done; intros _; symmetry; by apply thaw_plain. Qed.

Lemma content_thaw_item n :
  ∀ st' st x b, shape_ok st → slot_ok b x →
                content st' (thaw_item n st x) = thaw_item n st x.
Proof.
  induction n as [|n IH]; intros st' st x b Hst Hx.
  - by destruct x.
  - destruct x; try done. cbn [thaw_item].
    destruct (st !! l) as [c|] eqn:Hc; [|done].
    pose proof (Hst _ _ Hc) as Hok.
    destruct (c_type c); cbn [content].
    + f_equal. rewrite map_map. apply map_ext. intros i.
      apply (IH _ _ _ l); auto. by apply crio_prop_idx_ok.
    + f_equal. rewrite map_map. apply map_ext_in. intros kv Hin.
      cbn [fst snd]. f_equal. apply (IH _ _ _ l); auto.
      apply list_elem_of_In in Hin. apply list_elem_of_filter in Hin as [_ Hin].
      pose proof (ok_slots _ _ Hok) as Hs.
      rewrite List.Forall_forall in Hs. apply (Hs kv). by apply list_elem_of_In.
Qed.

Lemma content_thaw st' st x b :
  shape_ok st → slot_ok b x → content st' (thaw st x) = thaw st x.
Proof. apply content_thaw_item. Qed.

Lemma field_lookup_native (slots : list (key * value)) k :
  Forall (λ kv, is_native kv.1 = false) slots → is_native k = true →
  field_lookup k slots = None.
Proof.
  intros Hs Hk. induction Hs as [|[k' x] r Hx _ IH]; [done|].
  cbn [field_lookup]. rewrite decide_False; [done|].
  intros ->. simpl in Hx. congruence.
Qed.

Lemma hasChanged_instance `{Utils} st l c cand :
  st !! l = Some c → cell_ok l c →
  hasChanged st (VCrio l) cand = negb (c_hashCode c =? hash st cand)%Z.
Proof.
  intros Hc Hok. unfold hasChanged. cbn [get_prop]. rewrite Hc.
  unfold crio_prop.
  by rewrite (field_lookup_native _ (KStr "$$hashCode") (ok_native _ _ Hok)).
Qed.

Lemma field_set_same k x (fs : list (key * value)) :
  field_lookup k fs = Some x → field_set k x fs = fs.
Proof.
  induction fs as [|[k' w] r IH]; [done|]. cbn [field_lookup field_set].
  destruct (decide (k' = k)) as [->|]; [by intros [= ->]|].
  intros Hr. by rewrite IH.
Qed.

Lemma content_clone_array st l c :
  shape_ok st → st !! l = Some c → c_type c = CrioArrayT →
  content st (VArr (array_like st (VCrio l))) = thaw st (VCrio l).
Proof.
  intros Hs Hc Ht. pose proof (Hs _ _ Hc) as Hok.
  rewrite (thaw_cell st l c Hs Hc), Ht. cbn [array_like content].
  rewrite Hc, (array_like_cell _ _ Hok Ht). f_equal.
  apply map_ext_in. intros x Hx. apply (content_slot st l).
  pose proof (ok_slots _ _ Hok) as Hsl. rewrite List.Forall_forall in Hsl.
  apply list_elem_of_In, list_elem_of_fmap in Hx as ([k y] & -> & Hy).
  apply (Hsl (k, y)). by apply list_elem_of_In.
Qed.

Lemma content_clone_object st l c :
  shape_ok st → st !! l = Some c → c_type c = CrioObjectT →
  content st (VObj (own_enumerable st (VCrio l))) = thaw st (VCrio l).
Proof.
  intros Hs Hc Ht. pose proof (Hs _ _ Hc) as Hok.
  rewrite (thaw_cell st l c Hs Hc), Ht. cbn [own_enumerable content].
  rewrite Hc. f_equal.
  apply map_ext_in. intros [k x] Hx. cbn [fst snd]. f_equal.
  apply (content_slot st l).
  pose proof (ok_slots _ _ Hok) as Hsl. rewrite List.Forall_forall in Hsl.
  by apply (Hsl (k, x)).
Qed.

Lemma strip_content_reserved_free st v :
  shape_ok st → reserved_free v → strip (content st v) = content st v.
Proof.
  intros Hs.
  induction v as [| |b|z|s|items IH|fields IH|l] using value_nested_ind;
    cbn [reserved_free content strip]; try done.
  - rewrite forallb_True. intros Hr. f_equal. rewrite map_map.
    apply map_ext_in. intros x Hx. rewrite List.Forall_forall in *. auto.
  - rewrite forallb_True. intros Hr. f_equal. rewrite omap_fmap_fields.
    induction fields as [|[k x] r IHr]; [done|].
    inversion IH; subst. inversion Hr as [|?? Hkx Hr']; subst.
    cbn [fst snd] in *. apply andb_True in Hkx as [Hk Hx].
    cbn [omap list_omap map fst snd].
    destruct (is_native k); [done|]. f_equal; [|by apply IHr].
    f_equal. auto.
  - intros _. apply (strip_thaw _ _ (S l)); [done|simpl; lia].
Qed.

Section elision.
Context `{Utils}.

Lemma getRealValue_object_fresh fields st :
  ∃ st1 c, getRealValue (VObj fields) st = (VCrio (length st1), st1 ++ [c])
           ∧ st `prefix_of` st1
           ∧ c_type c = CrioObjectT
           ∧ c_hashCode c = hash st1 (VObj fields).
Proof.
  cbn [getRealValue].
  change (forEach _ fields st) with (forEach field_fn fields st).
  assert (Forall (λ kv, ∀ st, st `prefix_of` (field_fn kv st).2) fields) as Hf.
  { apply list.Forall_true. intros [k x] st0. unfold field_fn. cbn [fst snd].
    destruct (is_native k); [done|].
    pose proof (getRealValue_prefix x st0). by destruct (getRealValue x st0). }
  pose proof (forEach_prefix field_fn fields Hf st) as Hp.
  destruct (forEach field_fn fields st) as [slots st1].
  eexists st1, _. split; [reflexivity|]. by repeat split.
Qed.

Lemma construct_hash_consistent st v r st' :
  hash_of_content → wf_store st → closed (length st) v → reserved_free v →
  (∃ items, v = VArr items) ∨ (∃ fields, v = VObj fields) →
  getRealValue v st = (r, st') →
  hash_consistent st' r.
Proof.
  intros HI4 Hwf Hcl Hrf Hraw Hrun.
  destruct (getRealValue_spec v st r st' Hwf Hcl Hrun)
    as (Hp & Hwf' & Hok & Hth).
  assert (∃ st1 c, (r, st') = (VCrio (length st1), st1 ++ [c])
                   ∧ st `prefix_of` st1 ∧ c_hashCode c = hash st1 v)
    as (st1 & c & Heq & Hp1 & Hh).
  { destruct Hraw as [[items ->]|[fields ->]].
    - destruct (getRealValue_array_fresh items st) as (st1 & c & E & ? & _ & ?).
      exists st1, c. by rewrite <- Hrun, E.
    - destruct (getRealValue_object_fresh fields st) as (st1 & c & E & ? & _ & ?).
      exists st1, c. by rewrite <- Hrun, E. }
  inversion Heq; subst. exists c. split.
  { simpl. by rewrite list_lookup_middle. }
  rewrite Hh. apply HI4.
  rewrite (content_thaw _ _ _ _ (proj1 Hwf') Hok), Hth.
  rewrite (strip_content_reserved_free st v (proj1 Hwf) Hrf).
  by apply content_stable; [apply Hwf|..].
Qed.

Lemma gate_decides st l c cand K :
  st !! l = Some c → cell_ok l c →
  returnCorrectObject (VCrio l) cand K st
  = if decide (hash st cand = c_hashCode c) then (Ok (VCrio l), st)
    else construct K cand st.
Proof.
  intros Hc Hok. unfold returnCorrectObject.
  rewrite (hasChanged_instance st l c cand Hc Hok).
  destruct (decide (hash st cand = c_hashCode c)) as [->|Hne].
  - by rewrite Z.eqb_refl.
  - replace (c_hashCode c =? hash st cand)%Z with false; [done|].
    symmetry. apply Z.eqb_neq. congruence.
Qed.
End elision.

(** ** Reading and writing plain structures *)


Lemma field_lookup_set_same k x (fs : list (key * value)) :
  field_lookup k (field_set k x fs) = Some x.
Proof.
  induction fs as [|[k' w] r IH]; cbn [field_set field_lookup].
  - by rewrite decide_True.
  - destruct (decide (k' = k)) as [->|Hne]; cbn [field_lookup].
    + by rewrite decide_True.
    + by rewrite decide_False.
Qed.

Lemma field_set_twice k a b (fs : list (key * value)) :
  field_set k b (field_set k a fs) = field_set k b fs.
Proof.
  induction fs as [|[k' w] r IH]; cbn [field_set].
  - by rewrite decide_True.
  - destruct (decide (k' = k)) as [->|Hne]; cbn [field_set].
    + by rewrite decide_True.
    + rewrite decide_False by done. by rewrite IH.
Qed.

Lemma field_set_keys k x (fs : list (key * value)) :
  is_Some (field_lookup k fs) → (field_set k x fs).*1 = fs.*1.
Proof.
  induction fs as [|[k' w] r IH]; cbn [field_set field_lookup].
  - by intros [? ?].
  - destruct (decide (k' = k)) as [->|Hne]; [done|].
    intros Hk. rewrite !fmap_cons. by rewrite IH.
Qed.




Lemma content_field_set st k x (fs : list (key * value)) :
  map (λ kv, (kv.1, content st kv.2)) (field_set k x fs)
  = field_set k (content st x) (map (λ kv, (kv.1, content st kv.2)) fs).
Proof.
  induction fs as [|[k' w] r IH]; [done|]. cbn [field_set map fst snd].
  destruct (decide (k' = k)); [done|]. cbn [map fst snd]. by rewrite IH.
Qed.


Lemma strip_field_set k x (fs : list (key * value)) :
  is_native k = false →
  omap (λ kv, if is_native kv.1 then None else Some (kv.1, strip kv.2))
       (field_set k x fs)
  = field_set k (strip x)
      (omap (λ kv, if is_native kv.1 then None else Some (kv.1, strip kv.2))
            fs).
Proof.
  intros Hk. induction fs as [|[k' w] r IH].
  - cbn [field_set omap list_omap fst snd]. by rewrite Hk.
  - cbn [field_set]. destruct (decide (k' = k)) as [->|Hne].
    + cbn [omap list_omap fst snd]. rewrite Hk. cbn [field_set].
      by rewrite decide_True.
    + cbn [omap list_omap fst snd]. destruct (is_native k') eqn:Hk'.
      * apply IH.
      * cbn [field_set]. rewrite decide_False by done. by rewrite <- IH.
Qed.


Lemma field_lookup_fmap_values (f : value → value) k (fs : list (key * value)) :
  field_lookup k (map (λ kv, (kv.1, f kv.2)) fs) = f <$> field_lookup k fs.
Proof.
  induction fs as [|[k' w] r IH]; [done|]. cbn [map field_lookup fst snd].
  by destruct (decide (k' = k)).
Qed.



Lemma thaw_crio_raw st l c :
  shape_ok st → st !! l = Some c → is_raw (thaw st (VCrio l)) = true.
Proof.
  intros Hs Hc. rewrite (thaw_cell st l c Hs Hc). by destruct (c_type c).
Qed.

Lemma thaw_crio_kind st' st l c :
  shape_ok st → st !! l = Some c →
  isArray st' (thaw st (VCrio l)) = bool_decide (c_type c = CrioArrayT).
Proof.
  intros Hs Hc. rewrite (thaw_cell st l c Hs Hc). by destruct (c_type c).
Qed.

Lemma thaw_item_closed n m :
  ∀ st x b, shape_ok st → slot_ok b x → closed m (thaw_item n st x).
Proof.
  induction n as [|n IH]; intros st x b Hs Hx.
  - by destruct x.
  - destruct x; try done. cbn [thaw_item].
    destruct (st !! l) as [c|] eqn:Hc; [|done].
    pose proof (Hs _ _ Hc) as Hok. destruct (c_type c) eqn:Ht; cbn [closed].
    + apply forallb_True, Forall_fmap, Forall_forall. intros i _.
      apply (IH _ _ l); auto. by apply crio_prop_idx_ok.
    + apply andb_True. split.
      * apply forallb_True, Forall_fmap, list.Forall_forall. intros kv Hin.
        apply list_elem_of_filter in Hin as [_ Hin]. cbn [snd].
        apply (IH _ _ l); auto.
        pose proof (ok_slots _ _ Hok) as Hsl.
        rewrite list.Forall_forall in Hsl. by apply Hsl.
      * apply bool_decide_pack. rewrite <- list_fmap_compose.
        apply list.NoDup_fmap_2_strong.
        -- intros [k1 x1] [k2 x2] H1 H2 Hk. cbn in Hk. subst.
           apply list_elem_of_filter in H1 as [_ H1].
           apply list_elem_of_filter in H2 as [_ H2].
           pose proof (ok_nodup _ _ Hok) as Hnd.
           f_equal.
           apply list_elem_of_lookup in H1 as [i1 H1].
           apply list_elem_of_lookup in H2 as [i2 H2].
           pose proof (field_lookup_nodup _ _ _ _ Hnd H1) as E1.
           pose proof (field_lookup_nodup _ _ _ _ Hnd H2) as E2. congruence.
        -- apply list.NoDup_filter.
           pose proof (ok_nodup _ _ Hok) as Hnd.
           by apply NoDup_fmap_1 in Hnd.
Qed.

Lemma thaw_closed m st x b :
  shape_ok st → slot_ok b x → closed m (thaw st x).
Proof. apply thaw_item_closed. Qed.


(** ** The deep-path engine on a path of two present keys *)

Section deep_path.
Context `{Utils}.



End deep_path.

(** ** Reading a freshly constructed collection *)

Section read_back.
Context `{Utils}.





End read_back.

(** ** Deep path round trip *)

Lemma field_lookup_Some_Forall (P : key * value → Prop) k x
      (fs : list (key * value)) :
  Forall P fs → field_lookup k fs = Some x → P (k, x).
Proof.
  induction 1 as [|[k' w] r Hkw _ IH]; [done|]. cbn [field_lookup].
  destruct (decide (k' = k)) as [->|]; [by intros [= ->]|done].
Qed.

Lemma getRealValue_primitive `{Utils} v st :
  primitive v = true → getRealValue v st = (v, st).
Proof. by destruct v. Qed.

Lemma strip_content_primitive st v :
  primitive v = true → strip (content st v) = v.
Proof. by destruct v. Qed.

Lemma getRealValue_raw_result `{Utils} v st r st' :
  is_raw v = true → getRealValue v st = (r, st') →
  ∃ l, r = VCrio l ∧ S l = length st'.
Proof.
  intros Hraw Hrun. destruct v; try done.
  - destruct (getRealValue_array_fresh items st) as (st1 & c & E & _).
    rewrite E in Hrun. inversion Hrun; subst. exists (length st1).
    split; [done|]. rewrite length_app. simpl. lia.
  - destruct (getRealValue_object_fresh fields st) as (st1 & c & E & _).
    rewrite E in Hrun. inversion Hrun; subst. exists (length st1).
    split; [done|]. rewrite length_app. simpl. lia.
Qed.



Section round_trip.
Context `{Utils}.

End round_trip.

(** ** The reference helpers keep the hash contract *)

Lemma key_tree_inj k k' : key_tree k = key_tree k' → k = k'.
Proof.
  destruct k, k'; simpl; intros [=]; f_equal; auto. by apply Nat2Z.inj.
Qed.

Lemma map_inj_Forall {A B} (f : A → B) (l : list A) :
  Forall (λ a, ∀ b, f a = f b → a = b) l →
  ∀ l', map f l = map f l' → l = l'.
Proof.
  induction 1 as [|a r Ha _ IH]; intros [|b r']; simpl; try done.
  intros [= Hab Hr]. f_equal; auto.
Qed.

Lemma value_tree_inj v : ∀ w, value_tree v = value_tree w → v = w.
Proof.
  induction v as [| |b|z|s|items IH|fields IH|l] using value_nested_ind;
    intros w Hw; destruct w; simpl in Hw;
    repeat match goal with b : bool |- _ => destruct b end;
    try discriminate; try done; inversion Hw as [Hm]; f_equal.
  - by apply (map_inj_Forall value_tree).
  - apply (map_inj_Forall
             (λ kv, GenNode 6 [key_tree kv.1; value_tree kv.2])); [|done].
    eapply List.Forall_impl; [|exact IH].
    intros [k x] Hx [k' x'] [= Hk Hv]. cbn [fst snd] in *.
    f_equal; [by apply key_tree_inj|by apply Hx].
  - by apply Nat2Z.inj.
Qed.

Lemma tree_hash_of_content : hash_of_content (H := tree_utils).
Proof.
  intros st v st' w Hc. cbn [hash tree_utils]. unfold tree_hash. by rewrite Hc.
Qed.

Lemma tree_hash_collision_free : hash_collision_free (H := tree_utils).
Proof.
  intros st v st' w Hh. cbn [hash tree_utils] in Hh. unfold tree_hash in Hh.
  inversion Hh as [He]. apply (inj encode) in He. by apply value_tree_inj.
Qed.

(** ** Stores built by the entry function *)

Lemma wf_store_nil `{Utils} : wf_store [].
Proof. split; intros l c Hl; by rewrite lookup_nil in Hl. Qed.

Lemma crio_wf `{Utils} v st :
  wf_store st → closed (length st) v → wf_store (crio v st).2.
Proof.
  intros Hwf Hcl. unfold crio.
  destruct v; cbn [isArray isObject]; try done.
  - unfold CrioArray_new.
    destruct (getRealValue (VArr items) st) as [r st'] eqn:E.
    by destruct (getRealValue_spec _ _ _ _ Hwf Hcl E) as (_ & ? & _).
  - unfold CrioObject_new.
    destruct (getRealValue (VObj fields) st) as [r st'] eqn:E.
    by destruct (getRealValue_spec _ _ _ _ Hwf Hcl E) as (_ & ? & _).
  - destruct (st !! l) as [c|]; [|done].
    destruct (bool_decide (c_type c = CrioArrayT)); [done|].
    by destruct (bool_decide (c_type c = CrioObjectT)).
Qed.

Lemma to_key_primitive `{Utils} st st' k :
  primitive k = true → to_key st k = to_key st' k.
Proof. by destruct k. Qed.

(** * The claims of the specification *)

(** C1, as worded: a hash that is a function of the content alone does not
    make [c.set(k, c.get(k))] return [c] for every collection.  Built from
    [{length: 5, a: 1}], the collection keeps the hash of that input but only
    the slot [a], so the clone hashes differently and [set("a", get("a"))]
    returns a new instance; likewise for the array built from
    [[{length: 5}]].  And on the collection built from [{set: 1, a: 2}] the
    call throws: the property [set] hides the method. *)
Lemma set_of_get_allocates_after_reserved_name :
  hash_of_content (H := tree_utils)
  ∧ (bind (crio (H := tree_utils) object_length_a)
          (λ c, CrioObject_set_get (H := tree_utils) c (VStr "a")) []).1
    = Ok (VCrio 1)
  ∧ (crio (H := tree_utils) object_length_a []).1 = Ok (VCrio 0)
  ∧ (bind (crio (H := tree_utils) array_of_length)
          (λ c, CrioArray_set_get (H := tree_utils) c (VNum 0)) []).1
    = Ok (VCrio 2)
  ∧ (crio (H := tree_utils) array_of_length []).1 = Ok (VCrio 1)
  ∧ (bind (crio (H := tree_utils) object_set_a)
          (λ c, CrioObject_set_get (H := tree_utils) c (VStr "a")) []).1
    = Throw NativeTypeError.
Proof. split; [apply tree_hash_of_content|by repeat split]. Qed.

(** C1, amended.  Let the hash be a function of the content alone (I4).
    The gate returns the original exactly when the hash of the candidate is
    the original's hash code, and constructs from the candidate otherwise.
    A collection built from raw content with plain names in which no object
    has a property named [$$hashCode], [$$type] or [length] has for hash code
    the hash of its own content; and on every collection that has, indexed
    or keyed, [c.set(k, c.get(k))] returns [c] itself for every key [k]
    present, the store unchanged: on a keyed collection for every primitive
    key, [__proto__] apart, provided no property of [c] is named [get] or
    [set], which would hide the method called. *)
Theorem no_op_elision `{Utils} :
  hash_of_content →
  (∀ st l c cand K,
     st !! l = Some c → cell_ok l c →
     returnCorrectObject (VCrio l) cand K st
     = if decide (hash st cand = c_hashCode c) then (Ok (VCrio l), st)
       else construct K cand st)
  ∧ (∀ st v r st',
       wf_store st → closed (length st) v → reserved_free v →
       plain_names v →
       isArray st v || isObject st v = true → isCrio v = false →
       crio v st = (Ok r, st') →
       hash_consistent st' r)
  ∧ (∀ st l c,
       shape_ok st → st !! l = Some c → hash_consistent st (VCrio l) →
       (c_type c = CrioArrayT →
        ∀ i, i < c_length c →
             CrioArray_set_get (VCrio l) (VNum (Z.of_nat i)) st
             = (Ok (VCrio l), st))
       ∧ (c_type c = CrioObjectT →
          hides st (VCrio l) "get" = false →
          hides st (VCrio l) "set" = false →
          ∀ k, primitive k = true → k ≠ VUndef → k ≠ VNull →
               to_key st k ≠ KStr "__proto__" →
               is_Some (field_lookup (to_key st k) (c_slots c)) →
               CrioObject_set_get (VCrio l) k st = (Ok (VCrio l), st))).
Proof.
  intros HI4. split; [|split].
  - intros st l c cand K Hc Hok. by apply gate_decides.
  - intros st v r st' Hwf Hcl Hrf _ Hshape Hraw Hrun.
    destruct v; try done; unfold crio, CrioArray_new, CrioObject_new in Hrun;
      cbn [isArray isObject] in Hrun.
    + destruct (getRealValue (VArr items) st) as [r0 st0] eqn:E.
      inversion Hrun; subst.
      apply (construct_hash_consistent st (VArr items)); auto.
      left. by exists items.
    + destruct (getRealValue (VObj fields) st) as [r0 st0] eqn:E.
      inversion Hrun; subst.
      apply (construct_hash_consistent st (VObj fields)); auto.
      right. by exists fields.
  - intros st l c Hs Hc (c' & Hc' & Hh). cbn [instance] in Hc'.
    rewrite Hc in Hc'. inversion Hc'; subst c'. clear Hc'.
    pose proof (Hs _ _ Hc) as Hok. split.
    + intros Ht i Hi. unfold CrioArray_set_get, bind.
      assert (call_member "get" (VCrio l)
                (CrioArray_get (VCrio l) (VNum (Z.of_nat i))) st
              = (Ok (crio_prop c (KIdx i)), st)) as ->.
      { unfold call_member, CrioArray_get. cbn [instance]. rewrite Hc.
        rewrite (array_cell_hides st l c "get" Hc Hok Ht).
        cbn [to_key get_prop]. unfold key_of_number.
        rewrite decide_True by lia. by rewrite Nat2Z.id, Hc. }
      unfold call_member. cbn [instance]. rewrite Hc.
      rewrite (array_cell_hides st l c "set" Hc Hok Ht).
      unfold CrioArray_set. cbn [instance to_number number_gt from_option].
      rewrite Hc.
      replace (Z.of_nat (c_length c) <? Z.of_nat i)%Z with false
        by (symmetry; apply Z.ltb_ge; lia).
      unfold key_of_number. rewrite decide_True by lia. rewrite Nat2Z.id.
      unfold shallowCloneArray. cbn [raw_set].
      pose proof (array_like_length st (VCrio l) c Hc) as Hlen.
      rewrite decide_True by lia.
      assert (array_like st (VCrio l) !! i = Some (crio_prop c (KIdx i))) as Hi'.
      { cbn [array_like]. rewrite Hc, list_lookup_fmap.
        by rewrite lookup_seq_lt. }
      rewrite (list_insert_id _ _ _ Hi').
      rewrite (gate_decides st l c _ _ Hc Hok).
      rewrite decide_True; [done|]. rewrite Hh. apply HI4.
      rewrite (content_clone_array st l c Hs Hc Ht).
      symmetry. apply (content_thaw _ _ _ (S l)); [done|simpl; lia].
    + intros Ht Hget Hset k _ Hk1 Hk2 _ [x Hx].
      unfold CrioObject_set_get, bind.
      assert (get_prop st (VCrio l) (to_key st k) = Ok x) as Hg.
      { cbn [get_prop]. rewrite Hc. unfold crio_prop. by rewrite Hx. }
      assert (call_member "get" (VCrio l) (CrioObject_get (VCrio l) k) st
              = (Ok x, st)) as ->.
      { unfold call_member, CrioObject_get. cbn [instance].
        rewrite Hc, Hget, Hg. by destruct k. }
      unfold call_member. cbn [instance]. rewrite Hc, Hset.
      unfold CrioObject_set. cbn [own_enumerable raw_set].
      rewrite Hc, (field_set_same _ _ _ Hx).
      rewrite (gate_decides st l c _ _ Hc Hok).
      rewrite decide_True; [done|]. rewrite Hh. apply HI4.
      pose proof (content_clone_object st l c Hs Hc Ht) as Hcl.
      cbn [own_enumerable] in Hcl. rewrite Hc in Hcl. rewrite Hcl.
      symmetry. apply (content_thaw _ _ _ (S l)); [done|simpl; lia].
Qed.

(** [crio([1, 2, 3])] has the hash of its own content, and the elision at
    index 1. *)
Lemma no_op_elision_witness :
  hash_consistent (H := tree_utils) store_123 (VCrio 0)
  ∧ CrioArray_set_get (H := tree_utils) (VCrio 0) (VNum 1) store_123
    = (Ok (VCrio 0), store_123).
Proof.
  pose proof (no_op_elision (H := tree_utils) tree_hash_of_content)
    as (_ & Hbuilt & Hset).
  assert (hash_consistent (H := tree_utils) store_123 (VCrio 0)) as Hh.
  { apply (Hbuilt [] array_123 (VCrio 0) store_123);
      [apply wf_store_nil|exact I|exact I|exact I|reflexivity|reflexivity
      |reflexivity]. }
  split; [exact Hh|].
  refine (proj1 (Hset store_123 0 _ _ eq_refl Hh) eq_refl 1 _).
  - apply (crio_wf (H := tree_utils) array_123 []);
      [apply wf_store_nil|vm_compute; exact I].
  - vm_compute. lia.
Defined.

(** C2. [set] on an indexed collection of length [n] throws the range error
    exactly when the index is greater than [n], for an index that is a number
    (or a primitive other than a string, or a string that spells an array
    index, read as the number it converts to); the store is then as it was.
    For an index [i <= n] it is the gate applied to the clone with [v]
    assigned at [i], which for [i = n] appends.  On [[1, 2, 3]], [set(5, 9)]
    throws. *)
Theorem CrioArray_set_range_error `{Utils} :
  ∀ (this key v : value) (st : store) (c : frozen),
    instance st this = Some c → number_like key = true →
    ((CrioArray_set this key v st).1 = Throw RangeError
     ↔ ∃ z, to_number key = Some z ∧ (Z.of_nat (c_length c) < z)%Z)
    ∧ ((CrioArray_set this key v st).1 = Throw RangeError
       → (CrioArray_set this key v st).2 = st)
    ∧ (∀ i, i ≤ c_length c → key = VNum (Z.of_nat i) →
            CrioArray_set this key v st
            = returnCorrectObject this
                (VArr (if decide (i < c_length c)
                       then <[i:=v]> (array_like st this)
                       else array_like st this ++ [v]))
                CrioArrayT st)
    ∧ (∀ root st0,
         crio (VArr [VNum 1; VNum 2; VNum 3]) [] = (Ok root, st0) →
         CrioArray_set root (VNum 5) (VNum 9) st0 = (Throw RangeError, st0)).
Proof.
  intros this key v st c Hc _.
  assert (number_gt (to_number key) (Z.of_nat (c_length c)) = true
          → CrioArray_set this key v st = (Throw RangeError, st)) as Hthrow.
  { intros Hgt. unfold CrioArray_set. by rewrite Hc, Hgt. }
  assert ((CrioArray_set this key v st).1 = Throw RangeError
          → number_gt (to_number key) (Z.of_nat (c_length c)) = true) as Hgt.
  { intros Hr.
    destruct (number_gt (to_number key) (Z.of_nat (c_length c))) eqn:E; [done|].
    destruct (CrioArray_set_ok this key v st c Hc E) as (r & st' & Hok).
    rewrite Hok in Hr. done. }
  split; [|split; [|split]].
  - rewrite <- number_gt_spec. split; [done|].
    intros E. by rewrite (Hthrow E).
  - intros Hr. by rewrite (Hthrow (Hgt Hr)).
  - intros i Hi ->. unfold CrioArray_set. rewrite Hc.
    cbn [to_number number_gt from_option].
    replace (Z.of_nat (c_length c) <? Z.of_nat i)%Z with false
      by (symmetry; apply Z.ltb_ge; lia).
    unfold key_of_number. rewrite decide_True by lia. rewrite Nat2Z.id.
    unfold shallowCloneArray. cbn [raw_set].
    pose proof (array_like_length st this c Hc) as Hlen.
    rewrite <- Hlen in *.
    destruct (decide (i < length (array_like st this))) as [Hlt|Hge]; [done|].
    assert (i = length (array_like st this)) as -> by lia.
    by rewrite resize_length.
  - intros root st0 Hroot. cbv in Hroot. by inversion Hroot; subst.
Qed.

(** The range check at [[1, 2, 3]] with index 5. *)
Lemma CrioArray_set_range_error_witness :
  (CrioArray_set (H := tree_utils) (VCrio 0) (VNum 5) (VNum 9) store_123).1
  = Throw RangeError
  ↔ ∃ z, to_number (VNum 5) = Some z ∧ (Z.of_nat 3 < z)%Z.
Proof.
  refine (proj1 (CrioArray_set_range_error (H := tree_utils)
                   (VCrio 0) (VNum 5) (VNum 9) store_123 _ eq_refl eq_refl)).
Defined.

(** C3.  The merge [mergeIn] applies at the final key is chosen by the kind
    of the container that holds the addressed slot, not by the slot's own
    kind.  Under an array, a slot holding an object is merged with
    [CrioArray.prototype.merge], which calls [map] on the plain object and
    throws; under an object, a slot holding an array is merged with
    [CrioObject.prototype.merge] and comes back as a keyed collection. *)
Theorem mergeIn_merges_by_container_kind :
  (∀ H : Utils,
     (bind (crio array_of_object)
           (λ root, CrioArray_mergeIn root (VArr [VNum 0])
                                      [VObj [(KStr "b", VNum 2)]]) []).1
     = Throw NativeTypeError)
  ∧ (bind (crio (H := tree_utils) object_of_array)
          (λ root,
             bind (CrioObject_mergeIn (H := tree_utils) root (VArr [VStr "a"])
                                      [VArr [VNum 9]])
                  (λ merged,
                     CrioObject_getIn (H := tree_utils) merged
                                      (VArr [VStr "a"; VStr "$$type"]))) []).1
    = Ok (VStr CRIO_OBJECT_TYPE).
Proof. split; [intros H|]; reflexivity. Qed.









(** C7, as worded: the three methods do not allocate on every call.  On
    [[1, 2, 3]] each of them, called with no argument, returns its receiver. *)
Lemma concat_slice_unshift_not_always_fresh :
  ¬ always_allocates (H := tree_utils) (CrioArray_concat (H := tree_utils))
  ∧ ¬ always_allocates (H := tree_utils) (CrioArray_slice (H := tree_utils))
  ∧ ¬ always_allocates (H := tree_utils)
        (CrioArray_unshift (H := tree_utils)).
Proof.
  repeat split; intros Hall;
    destruct (Hall (VCrio 0) [] store_123 _ eq_refl) as (r & st' & Hrun & Hne);
    cbv in Hrun; by inversion Hrun; subst.
Qed.

(** C7, amended.  Called with at least one argument, [concat], [slice] and
    [unshift] return a collection allocated by the call, never the receiver,
    whatever its content. *)
Theorem concat_slice_unshift_allocate `{Utils} :
  ∀ (this : value) (args : list value) (st : store) (c : frozen),
    instance st this = Some c → args ≠ [] →
    (∃ r st', CrioArray_concat this args st = (Ok r, st')
              ∧ fresh_instance st st' r ∧ r ≠ this)
    ∧ (∃ r st', CrioArray_slice this args st = (Ok r, st')
                ∧ fresh_instance st st' r ∧ r ≠ this)
    ∧ (∃ r st', CrioArray_unshift this args st = (Ok r, st')
                ∧ fresh_instance st st' r ∧ r ≠ this).
Proof.
  intros this args st c Hc Hargs.
  assert (∀ items, ∃ r st', CrioArray_new (VArr items) st = (Ok r, st')
                            ∧ fresh_instance st st' r ∧ r ≠ this) as Hnew.
  { intros items.
    destruct (CrioArray_new_fresh items st) as (l' & st' & Hrun & Hl & Hlen & Hp).
    exists (VCrio l'), st'. split; [done|]. split.
    - exists l'. repeat split; auto. lia.
    - intros <-. simpl in Hc. apply lookup_lt_Some in Hc. lia. }
  destruct args as [|a args]; [done|].
  unfold CrioArray_concat, CrioArray_slice, CrioArray_unshift.
  repeat split; apply Hnew.
Qed.

(** [slice(0)] on [[1, 2, 3]]: the same content, a new instance. *)
Lemma concat_slice_unshift_allocate_witness :
  ∃ r st', CrioArray_slice (H := tree_utils) (VCrio 0) [VNum 0] store_123
           = (Ok r, st')
           ∧ fresh_instance store_123 st' r ∧ r ≠ VCrio 0.
Proof.
  refine (proj1 (proj2 (concat_slice_unshift_allocate
                          (VCrio 0) [VNum 0] store_123 _ eq_refl _))).
  discriminate.
Defined.

(** C8.  No operation changes a collection that exists when it is called,
    its receiver included.  Every structural operation ([concat],
    [copyWithin], [fill], [filter], [map], [merge], [mergeIn], [pop], [push],
    [set], [setIn], [shift], [slice], [sort], [splice], [unshift] of an
    indexed collection; [merge], [mergeIn], [set], [setIn] of a keyed one),
    and likewise [mutate], [reduce] and [reduceRight], leaves a store that
    extends the store before the call, whether it returns or throws, so every
    property of every such collection reads as before; [thaw] and the reading
    methods leave the store as it is.  On [[1, 2, 3]], [set(1, 9)] returns a
    new collection holding [1, 9, 3], and the receiver still holds
    [1, 2, 3]. *)
Theorem operations_preserve_collections :
  (∀ (H : Utils) (op : operation) (this : value) (st : store),
     st `prefix_of` (perform op this st).2)
  ∧ (∀ (H : Utils) (op : operation) (this : value) (st : store)
       (l : loc) (k : key),
       l < length st →
       st !! l = (perform op this st).2 !! l
       ∧ get_prop (perform op this st).2 (VCrio l) k = get_prop st (VCrio l) k)
  ∧ (∀ (H : Utils) (this : value) (fn : value → value → value → value)
       (gn : value → value → nat → value → value) (object thisArg : value)
       (st : store),
       st `prefix_of` (CrioArray_mutate this fn thisArg st).2
       ∧ st `prefix_of` (CrioObject_mutate this fn thisArg st).2
       ∧ st `prefix_of` (CrioArray_reduce this gn object thisArg st).2
       ∧ st `prefix_of` (CrioArray_reduceRight this gn object thisArg st).2)
  ∧ (∀ (H : Utils) (this x : value)
       (gn : value → value → nat → value → value) (st : store),
       (CrioArray_thaw this st).2 = st
       ∧ (CrioObject_thaw this st).2 = st
       ∧ (CrioArray_get this x st).2 = st
       ∧ (CrioObject_get this x st).2 = st
       ∧ (CrioArray_getIn this x st).2 = st
       ∧ (CrioObject_getIn this x st).2 = st
       ∧ (CrioArray_equals this x st).2 = st
       ∧ (CrioObject_equals this x st).2 = st
       ∧ (CrioArray_find this gn x st).2 = st
       ∧ (CrioArray_findIndex this gn x st).2 = st
       ∧ (CrioArray_every this gn x st).2 = st
       ∧ (CrioArray_some this gn x st).2 = st
       ∧ (CrioArray_indexOf this x st).2 = st
       ∧ (CrioArray_lastIndexOf this x st).2 = st
       ∧ (CrioArray_includes this x st).2 = st)
  ∧ (∃ st',
       CrioArray_set (H := tree_utils) (VCrio 0) (VNum 1) (VNum 9) store_123
       = (Ok (VCrio 1), st')
       ∧ array_like st' (VCrio 1) = [VNum 1; VNum 9; VNum 3]
       ∧ array_like st' (VCrio 0) = [VNum 1; VNum 2; VNum 3]
       ∧ array_like store_123 (VCrio 0) = [VNum 1; VNum 2; VNum 3]).
Proof.
  split; [|split; [|split; [|split]]].
  - intros H op this st. apply perform_extends.
  - intros H op this st l k Hl.
    pose proof (perform_extends op this st) as Hp.
    destruct (lookup_lt_is_Some_2 st l Hl) as [c Hc].
    pose proof (prefix_lookup_Some _ _ _ _ Hc Hp) as Hc'.
    split; [by rewrite Hc, Hc'|]. simpl. by rewrite Hc, Hc'.
  - intros H this fn gn object thisArg st.
    assert (∀ result : value,
              st `prefix_of`
                 (if hasChanged st this result
                  then let '(r, st') := getRealValue result st in (Ok r, st')
                  else (Ok this, st)).2) as Hgate.
    { intros result. destruct (hasChanged st this result); [|done].
      pose proof (getRealValue_prefix result st) as Hp.
      by destruct (getRealValue result st). }
    repeat split.
    + unfold CrioArray_mutate, bind, thaw_method.
      destruct (thaw_call (length st) st this); [apply Hgate|done].
    + unfold CrioObject_mutate, bind, thaw_method.
      destruct (thaw_call (length st) st this); [apply Hgate|done].
    + unfold CrioArray_reduce. destruct this; try done; apply Hgate.
    + unfold CrioArray_reduceRight. destruct this; try done; apply Hgate.
  - intros H this x gn st. repeat split; try done.
    + unfold CrioObject_get. by destruct x.
    + unfold CrioArray_getIn. by destruct (negb _).
    + unfold CrioObject_getIn. by destruct (negb _).
    + unfold CrioArray_equals. destruct (negb _); [done|].
      destruct (get_prop st this _); [|done]. by destruct (get_prop st x _).
    + unfold CrioObject_equals. destruct (negb _); [done|].
      destruct (get_prop st this _); [|done]. by destruct (get_prop st x _).
    + unfold CrioArray_find. by destruct this.
    + unfold CrioArray_findIndex. by destruct this.
    + unfold CrioArray_every. by destruct (or_this this x).
    + unfold CrioArray_some. by destruct this.
    + unfold CrioArray_indexOf. by destruct this.
    + unfold CrioArray_lastIndexOf. by destruct this.
    + unfold CrioArray_includes, bind, CrioArray_indexOf. by destruct this.
  - eexists. split; [reflexivity|]. by repeat split.
Qed.

(** Slot 1 of [[1, 2, 3]] after [set(1, 9)]. *)
Lemma operations_preserve_collections_witness :
  get_prop (perform (H := tree_utils) (ArraySet (VNum 1) (VNum 9))
                    (VCrio 0) store_123).2 (VCrio 0) (KIdx 1)
  = get_prop store_123 (VCrio 0) (KIdx 1).
Proof.
  refine (proj2 (proj1 (proj2 operations_preserve_collections)
                   tree_utils (ArraySet (VNum 1) (VNum 9)) (VCrio 0)
                   store_123 0 (KIdx 1) _)).
  vm_compute. lia.
Defined.

(** C9. A constructor handed a value that is already a collection returns
    that very collection and allocates nothing, whichever of the two classes
    the constructor and the collection belong to: the entry check is [isCrio]
    alone. *)
Theorem constructor_of_collection_is_identity `{Utils} :
  ∀ (Constructor : kind) (l : loc) (st : store),
    CrioArray_new (VCrio l) st = (Ok (VCrio l), st)
    ∧ CrioObject_new (VCrio l) st = (Ok (VCrio l), st)
    ∧ construct Constructor (VCrio l) st = (Ok (VCrio l), st).
Proof. intros [] l st; done. Qed.

(** C10. [concat], [slice] and [unshift] called with no argument return
    their receiver itself and leave the store as it is. *)
Theorem no_argument_returns_receiver `{Utils} :
  ∀ (this : value) (st : store),
    CrioArray_concat this [] st = (Ok this, st)
    ∧ CrioArray_slice this [] st = (Ok this, st)
    ∧ CrioArray_unshift this [] st = (Ok this, st).
Proof. done. Qed.

(** * Further properties of the code *)

(** ** Plain data and flat arrays *)

Lemma content_plain st v : closed 0 v → content st v = v.
Proof.
  induction v as [| |b|z|s|items IH|fields IH|l] using value_nested_ind;
    cbn [closed content]; try done.
  - rewrite forallb_True. intros Hc. f_equal.
    rewrite List.Forall_forall in *.
    transitivity (map id items); [|apply map_id].
    apply map_ext_in. intros x Hx. by apply IH, Hc.
  - rewrite andb_True, forallb_True. intros [Hc _]. f_equal.
    rewrite List.Forall_forall in *.
    transitivity (map id fields); [|apply map_id].
    apply map_ext_in. intros [k x] Hx. cbn [fst snd id]. f_equal.
    by apply (IH (k, x)), (Hc (k, x)).
Qed.

Lemma get_hashCode st l c :
  st !! l = Some c → cell_ok l c →
  get_prop st (VCrio l) (KStr "$$hashCode") = Ok (VNum (c_hashCode c)).
Proof.
  intros Hc Hok. cbn [get_prop]. rewrite Hc. unfold crio_prop.
  by rewrite (field_lookup_native _ (KStr "$$hashCode") (ok_native _ _ Hok)).
Qed.

Lemma crio_raw `{Utils} v st :
  is_raw v = true →
  crio v st = (let '(r, st') := getRealValue v st in (Ok r, st')).
Proof. by destruct v. Qed.

Lemma getRealValue_raw_fresh `{Utils} v st :
  is_raw v = true →
  ∃ st1 c, getRealValue v st = (VCrio (length st1), st1 ++ [c])
           ∧ st `prefix_of` st1
           ∧ c_hashCode c = hash st1 v
           ∧ c_type c = (if isArray st v then CrioArrayT else CrioObjectT).
Proof.
  intros Hraw. destruct v; try done.
  - destruct (getRealValue_array_fresh items st) as (st1 & c & E & Hp & Ht & Hh).
    by exists st1, c.
  - destruct (getRealValue_object_fresh fields st) as (st1 & c & E & Hp & Ht & Hh).
    by exists st1, c.
Qed.

(** ** Contents with plain names *)

Lemma strip_plain_names v : plain_names v = true → plain_names (strip v) = true.
Proof.
  induction v as [| |b|z|s|items IH|fields IH|l] using value_nested_ind;
    cbn [plain_names strip]; try done.
  - rewrite !List.forallb_forall. intros Hp x Hx.
    apply in_map_iff in Hx as (y & <- & Hy).
    rewrite List.Forall_forall in IH. by apply IH, Hp.
  - rewrite !List.forallb_forall. intros Hp kv Hkv.
    apply list_elem_of_In, list_elem_of_omap in Hkv as (kv' & Hkv' & E).
    destruct (is_native kv'.1); [done|]. inversion E; subst. cbn [fst snd].
    apply list_elem_of_In in Hkv'.
    specialize (Hp _ Hkv'). apply andb_true_iff in Hp as [Hk Hx].
    apply andb_true_iff. split; [done|].
    rewrite List.Forall_forall in IH. by apply (IH kv').
Qed.

Lemma content_plain_names st v :
  shape_ok st → plain_store st → closed (length st) v →
  plain_names v = true → plain_names (content st v) = true.
Proof.
  intros Hs Hp.
  induction v as [| |b|z|s|items IH|fields IH|l] using value_nested_ind;
    cbn [plain_names content closed]; try done.
  - rewrite forallb_True, !List.forallb_forall. intros Hc Hn x Hx.
    apply in_map_iff in Hx as (y & <- & Hy).
    rewrite List.Forall_forall in IH, Hc. apply IH; auto.
  - rewrite andb_True, forallb_True, !List.forallb_forall.
    intros [Hc _] Hn kv Hkv.
    apply in_map_iff in Hkv as (kv' & <- & Hkv'). cbn [fst snd].
    specialize (Hn _ Hkv'). apply andb_true_iff in Hn as [Hk Hx].
    apply andb_true_iff. split; [done|].
    rewrite List.Forall_forall in IH, Hc. apply (IH kv'); auto.
  - rewrite bool_decide_spec. intros Hl _.
    by apply (thaw_plain_names st _ (length st)).
Qed.

Lemma normal_plain_names st v :
  shape_ok st → plain_store st → closed (length st) v → plain_names v →
  plain_names (strip (content st v)) = true.
Proof.
  intros Hs Hp Hc Hn. apply strip_plain_names, content_plain_names; auto.
  by apply Is_true_true.
Qed.

(** A collection that stands for a structure with plain names thaws to
    it. *)
Lemma thaws_to st r t :
  shape_ok st → is_Some (instance st r) → thaw st r = t →
  plain_names t = true →
  thaw_method r st = (Ok t, st).
Proof.
  intros Hs [c Hc] <- Hp. by apply (thaw_method_content st r c).
Qed.

Lemma plain_names_array items :
  plain_names (VArr items) = true ↔ Forall (λ x, plain_names x = true) items.
Proof.
  cbn [plain_names]. by rewrite List.forallb_forall, List.Forall_forall.
Qed.

Lemma plain_names_field_set k x fs :
  plain_key k = true → plain_names x = true → plain_names (VObj fs) = true →
  plain_names (VObj (field_set k x fs)) = true.
Proof.
  intros Hk Hx. cbn [plain_names].
  induction fs as [|[k' w] r IH]; cbn [field_set forallb fst snd].
  - intros _. by rewrite Hk, Hx.
  - intros Hr. apply andb_true_iff in Hr as [Hkw Hr].
    destruct (decide (k' = k)); cbn [forallb fst snd].
    + by rewrite Hk, Hx, Hr.
    + by rewrite Hkw, IH.
Qed.

(** The receiver thaws, in a store with plain names. *)
Lemma receiver_thaws st this c :
  shape_ok st → plain_store st → instance st this = Some c →
  thaw_method this st = (Ok (thaw st this), st)
  ∧ plain_names (thaw st this) = true.
Proof.
  intros Hs Hp Hc. split; [by apply (thaw_method_plain st this c)|].
  destruct this; try done. apply (thaw_plain_names st _ (S l)); auto.
  simpl. lia.
Qed.

(** The two bodies, on a collection of their class. *)
Lemma class_thaws_to st r c t :
  shape_ok st → instance st r = Some c → thaw st r = t →
  plain_names t = true →
  (c_type c = CrioArrayT → CrioArray_thaw r st = (Ok t, st))
  ∧ (c_type c = CrioObjectT → CrioObject_thaw r st = (Ok t, st)).
Proof.
  intros Hs Hc <- Hp. destruct r as [| | | | | | |l]; try done.
  cbn [instance] in Hc. pose proof (lookup_lt_Some _ _ _ Hc) as Hl.
  pose proof (Hs _ _ Hc) as Hok.
  assert (thaw_item (S (length st)) st (VCrio l) = thaw st (VCrio l)) as Hfuel.
  { unfold thaw. apply (thaw_item_stable _ _ st st _ (S l)); auto; simpl; lia. }
  pose proof (thaw_call_content (S (length st)) st l c Hs Hc ltac:(lia)) as Hcall.
  rewrite Hfuel in Hcall. specialize (Hcall Hp).
  cbn [thaw_call instance] in Hcall. rewrite Hc in Hcall.
  split; intros Ht; rewrite Ht in Hcall.
  - rewrite (array_cell_hides st l c "thaw" Hc Hok Ht) in Hcall.
    unfold CrioArray_thaw. by rewrite Hcall.
  - rewrite <- Hfuel in Hp.
    rewrite (thawed_names_hide _ st l c "thaw" Hc Ht Hp eq_refl eq_refl)
      in Hcall.
    unfold CrioObject_thaw. by rewrite Hcall.
Qed.

(** ** The gate, on content *)

Section gate_content.
Context `{Utils}.

Lemma construct_raw K cand st :
  match K with
  | CrioArrayT => ∃ items, cand = VArr items
  | CrioObjectT => ∃ fields, cand = VObj fields
  end →
  construct K cand st = (let '(r, st') := getRealValue cand st in (Ok r, st')).
Proof. destruct K; intros [x ->]; done. Qed.

Lemma kind_raw K cand :
  match K with
  | CrioArrayT => ∃ items, cand = VArr items
  | CrioObjectT => ∃ fields, cand = VObj fields
  end → is_raw cand = true.
Proof. destruct K; intros [x ->]; done. Qed.

Lemma instance_prefix (st st' : store) this c :
  st `prefix_of` st' → instance st this = Some c → instance st' this = Some c.
Proof.
  intros Hp. destruct this; try done. simpl. intros Hc.
  by apply (prefix_lookup_Some _ _ _ _ Hc Hp).
Qed.

(** Whichever way the gate decides, what it returns is a collection whose
    thawed content is the candidate's content without native names. *)
Lemma gate_thaw st l c cand K :
  hash_collision_free → wf_store st → st !! l = Some c →
  closed (length st) cand →
  match K with
  | CrioArrayT => ∃ items, cand = VArr items
  | CrioObjectT => ∃ fields, cand = VObj fields
  end →
  ∃ r st', returnCorrectObject (VCrio l) cand K st = (Ok r, st')
           ∧ st `prefix_of` st' ∧ wf_store st'
           ∧ slot_ok (length st') r
           ∧ is_Some (instance st' r)
           ∧ thaw st' r = strip (content st cand).
Proof.
  intros Hinj Hwf Hc Hcl HK. pose proof (proj1 Hwf) as Hs.
  pose proof (Hs _ _ Hc) as Hok.
  rewrite (gate_decides st l c cand K Hc Hok).
  destruct (decide (hash st cand = c_hashCode c)) as [Heq|Hne].
  - exists (VCrio l), st. split; [done|]. split; [done|]. split; [done|].
    split; [simpl; by eapply lookup_lt_Some|]. split; [simpl; by rewrite Hc|].
    destruct (proj2 Hwf _ _ Hc) as (st0 & raw & Hh0 & Hth0).
    rewrite Hh0 in Heq. apply Hinj in Heq. by rewrite Heq.
  - rewrite (construct_raw K cand st HK).
    destruct (getRealValue cand st) as [r st'] eqn:Hrun.
    destruct (getRealValue_spec cand st r st' Hwf Hcl Hrun)
      as (Hp & Hwf' & Hokr & Hth).
    exists r, st'. split; [done|]. split; [done|]. split; [done|].
    split; [done|]. split; [|done].
    destruct (getRealValue_raw_result cand st r st' (kind_raw K cand HK) Hrun)
      as (l' & -> & Hl'). simpl. apply lookup_lt_is_Some_2. lia.
Qed.
End gate_content.

(** ** Freezing and thawing *)

(** X1.  [crio(v).thaw()].  In a well-formed store whose collections have
    plain names, the collection built from a plain array or object [v] that
    has plain names (no property named [__proto__] or like a member of the
    classes or of [Object.prototype]) and holds only collections of the store
    thaws to the content of that input without the properties named
    [$$hashCode], [$$type] or [length]: the call [thaw()] returns it, and so
    does the [thaw] of its class; for plain data in which no object has such a
    property, that is [v] itself. *)
Theorem thaw_of_crio `{Utils} :
  ∀ (v : value) (st : store) (r : value) (st' : store) (c : frozen),
    wf_store st → plain_store st → closed (length st) v → plain_names v →
    is_raw v = true → crio v st = (Ok r, st') → instance st' r = Some c →
    thaw_method r st' = (Ok (strip (content st v)), st')
    ∧ (c_type c = CrioArrayT →
       CrioArray_thaw r st' = (Ok (strip (content st v)), st'))
    ∧ (c_type c = CrioObjectT →
       CrioObject_thaw r st' = (Ok (strip (content st v)), st'))
    ∧ (closed 0 v → reserved_free v → strip (content st v) = v).
Proof.
  intros v st r st' c Hwf Hps Hcl Hpn Hraw Hrun Hc.
  rewrite (crio_raw v st Hraw) in Hrun.
  destruct (getRealValue v st) as [r0 st0] eqn:E. inversion Hrun; subst.
  destruct (getRealValue_spec v st r st' Hwf Hcl E) as (_ & Hwf' & _ & Hth).
  pose proof (normal_plain_names st v (proj1 Hwf) Hps Hcl Hpn) as Hpt.
  split; [|split; [|split]].
  - by apply thaws_to; [apply Hwf'|rewrite Hc| |].
  - by apply (class_thaws_to st' r c); [apply Hwf'| | |].
  - by apply (class_thaws_to st' r c); [apply Hwf'| | |].
  - intros Hplain Hrf.
    rewrite (strip_content_reserved_free st v (proj1 Hwf) Hrf).
    by rewrite (content_plain st v Hplain).
Qed.

(** [crio([1, 2, 3]).thaw()] is [[1, 2, 3]]. *)
Lemma thaw_of_crio_witness :
  thaw_method (VCrio 0) store_123
  = (Ok (strip (content [] array_123)), store_123).
Proof.
  refine (proj1 (thaw_of_crio (H := tree_utils) array_123 []
                   (VCrio 0) store_123 _ _ _ _ I eq_refl eq_refl eq_refl)).
  - apply wf_store_nil.
  - constructor.
  - vm_compute. exact I.
Defined.

(** ** [equals] *)

Section equals.
Context `{Utils}.

Lemma equals_instances st la lb ca cb :
  st !! la = Some ca → st !! lb = Some cb → cell_ok la ca → cell_ok lb cb →
  CrioArray_equals (VCrio la) (VCrio lb) st
  = (Ok (bool_decide (c_hashCode ca = c_hashCode cb)), st)
  ∧ CrioObject_equals (VCrio la) (VCrio lb) st
    = (Ok (bool_decide (c_hashCode ca = c_hashCode cb)), st).
Proof.
  intros Ha Hb Hoka Hokb. unfold CrioArray_equals, CrioObject_equals.
  cbn [isCrio negb].
  by rewrite (get_hashCode st la ca Ha Hoka), (get_hashCode st lb cb Hb Hokb).
Qed.
End equals.





(** ** Searching an indexed collection *)

Lemma array_like_lookup st this c i :
  instance st this = Some c → i < c_length c →
  array_like st this !! i = Some (crio_prop c (KIdx i)).
Proof.
  destruct this; try done. simpl. intros -> Hi.
  by rewrite list_lookup_fmap, lookup_seq_lt.
Qed.

Lemma array_like_lookup_inv st this c i y :
  instance st this = Some c → array_like st this !! i = Some y →
  i < c_length c ∧ y = crio_prop c (KIdx i).
Proof.
  intros Hc Hy. pose proof (lookup_lt_Some _ _ _ Hy) as Hi.
  rewrite (array_like_length st this c Hc) in Hi. split; [done|].
  rewrite (array_like_lookup st this c i Hc Hi) in Hy. by inversion Hy.
Qed.

Lemma instance_not_null st this c :
  instance st this = Some c → ∃ l, this = VCrio l ∧ st !! l = Some c.
Proof. destruct this; try done. intros Hc. by eexists. Qed.

Lemma find_from_spec (fn : value → value → nat → value → value)
      (t this : value) (items : list value) :
  ∀ k,
    (findIndex_from fn t this items k = (-1)%Z
     ∧ find_from fn t this items k = VUndef
     ∧ ∀ i y, items !! i = Some y → truthy (fn t y (k + i) this) = false)
    ∨ (∃ i x, findIndex_from fn t this items k = Z.of_nat (k + i)
              ∧ find_from fn t this items k = x
              ∧ items !! i = Some x
              ∧ truthy (fn t x (k + i) this) = true
              ∧ ∀ j y, j < i → items !! j = Some y →
                       truthy (fn t y (k + j) this) = false).
Proof.
  induction items as [|x rest IH]; intros k; cbn [findIndex_from find_from].
  - left. by repeat split.
  - destruct (truthy (fn t x k this)) eqn:Hx.
    + right. exists 0, x. rewrite Nat.add_0_r.
      repeat split; auto. intros j y Hj. lia.
    + destruct (IH (S k)) as [(Hz & Hv & Hall)|(i & y & Hz & Hv & Hi & Hy & Hall)].
      * left. repeat split; auto. intros [|i] y Hy; simpl in Hy.
        -- inversion Hy; subst. by rewrite Nat.add_0_r.
        -- replace (k + S i) with (S k + i) by lia. by apply Hall.
      * right. exists (S i), y.
        replace (k + S i) with (S k + i) by lia.
        repeat split; auto. intros [|j] w Hj Hw; simpl in Hw.
        -- inversion Hw; subst. by rewrite Nat.add_0_r.
        -- replace (k + S j) with (S k + j) by lia. apply Hall; [lia|done].
Qed.

(** X4.  [find] and [findIndex] agree.  On a collection of length [n],
    [findIndex(fn)] is either -1, when the callback is falsy at every index
    below [n], and then [find(fn)] is [undefined]; or the least index at which
    the callback is truthy, and then [find(fn)] is the element there. *)
Theorem find_findIndex_agree :
  ∀ (st : store) (this : value) (c : frozen)
    (fn : value → value → nat → value → value) (thisArg : value),
    instance st this = Some c →
    let test := λ i, truthy (fn (or_this this thisArg)
                                (crio_prop c (KIdx i)) i this) in
    ∃ z x,
      CrioArray_findIndex this fn thisArg st = (Ok z, st)
      ∧ CrioArray_find this fn thisArg st = (Ok x, st)
      ∧ ((z = (-1)%Z ∧ x = VUndef
          ∧ ∀ i, i < c_length c → test i = false)
         ∨ (∃ i, i < c_length c ∧ z = Z.of_nat i
                 ∧ x = crio_prop c (KIdx i) ∧ test i = true
                 ∧ ∀ j, j < i → test j = false)).
Proof.
  intros st this c fn thisArg Hc test.
  destruct (instance_not_null st this c Hc) as (l & -> & Hl).
  unfold CrioArray_findIndex, CrioArray_find.
  set (t := or_this (VCrio l) thisArg) in *.
  set (items := array_like st (VCrio l)).
  eexists _, _. split; [reflexivity|]. split; [reflexivity|].
  destruct (find_from_spec fn t (VCrio l) items 0)
    as [(Hz & Hv & Hall)|(i & y & Hz & Hv & Hi & Hy & Hall)].
  - left. repeat split; auto. intros i Hi.
    apply (Hall i). by apply array_like_lookup.
  - right. exists i.
    destruct (array_like_lookup_inv st (VCrio l) c i y Hc Hi) as [Hlt ->].
    repeat split; auto. intros j Hj. apply (Hall j); [done|].
    apply array_like_lookup; [done|lia].
Qed.

(** On [[1, 2, 3]], the first element greater than 1. *)
Lemma find_findIndex_agree_witness :
  CrioArray_findIndex (VCrio 0)
    (λ _ x _ _, VBool (bool_decide (number_gt (to_number x) 1 = true)))
    VUndef store_123 = (Ok 1%Z, store_123)
  ∧ CrioArray_find (VCrio 0)
      (λ _ x _ _, VBool (bool_decide (number_gt (to_number x) 1 = true)))
      VUndef store_123 = (Ok (VNum 2), store_123).
Proof.
  destruct (find_findIndex_agree store_123 (VCrio 0) _
              (λ _ x _ _, VBool (bool_decide (number_gt (to_number x) 1 = true)))
              VUndef eq_refl) as (z & x & Hz & Hx & _).
  vm_compute in Hz. vm_compute in Hx. inversion Hz. inversion Hx.
  split; reflexivity.
Defined.

Lemma forallb_imap {A} (f : nat → A → bool) (l : list A) :
  forallb id (imap f l) = true ↔ ∀ i x, l !! i = Some x → f i x = true.
Proof.
  revert f. induction l as [|a r IH]; intros f; cbn [imap forallb].
  - split; [by intros _ i x|done].
  - rewrite andb_true_iff, (IH (f ∘ S)). unfold id at 1. split.
    + intros [Ha Hr] [|i] x Hx; simpl in Hx.
      * by inversion Hx; subst.
      * by apply (Hr i).
    + intros Hall. split; [by apply (Hall 0)|]. intros i x Hx.
      by apply (Hall (S i)).
Qed.

Lemma existsb_imap {A} (f : nat → A → bool) (l : list A) :
  existsb id (imap f l) = true ↔ ∃ i x, l !! i = Some x ∧ f i x = true.
Proof.
  revert f. induction l as [|a r IH]; intros f; cbn [imap existsb].
  - split; [done|]. by intros (i & x & Hx & _).
  - rewrite orb_true_iff, (IH (f ∘ S)). unfold id at 1. split.
    + intros [Ha|(i & x & Hx & Hf)]; [by exists 0, a|by exists (S i), x].
    + intros ([|i] & x & Hx & Hf); simpl in Hx.
      * inversion Hx; subst. by left.
      * right. by exists i, x.
Qed.

Lemma existsb_negb_forallb (l : list bool) :
  existsb id l = negb (forallb id (map negb l)).
Proof.
  induction l as [|b r IH]; [done|]. cbn [existsb forallb map].
  rewrite IH. unfold id at 1 3. by destruct b.
Qed.

(** X5.  [every] and [some] are the two quantifiers over the elements.
    Called without a [thisArg] on an indexed collection of length [n], in a
    store that respects I3, [every(fn)] is true exactly when the callback is
    truthy at every index below [n] and [some(fn)] exactly when it is truthy
    at one, the callback's [this] being [undefined] under [every] and the
    collection under [some]; so [every] is true and [some] false on the empty
    collection, and [some(fn)] is the negation of [every] of the negated
    callback.  Called with a [thisArg] that is an indexed collection, [every]
    tests the elements of that argument instead of the receiver's. *)
Theorem every_some_quantify :
  ∀ (st : store) (this : value) (c : frozen)
    (fn : value → value → nat → value → value),
    shape_ok st → instance st this = Some c → c_type c = CrioArrayT →
    ∃ e s,
      CrioArray_every this fn VUndef st = (Ok e, st)
      ∧ CrioArray_some this fn VUndef st = (Ok s, st)
      ∧ (e = true ↔ ∀ i, i < c_length c →
                         truthy (fn VUndef (crio_prop c (KIdx i)) i this) = true)
      ∧ (s = true ↔ ∃ i, i < c_length c
                         ∧ truthy (fn this (crio_prop c (KIdx i)) i this) = true)
      ∧ (c_length c = 0 → e = true ∧ s = false)
      ∧ CrioArray_every this
          (λ _ x i a, VBool (negb (truthy (fn this x i a)))) VUndef st
        = (Ok (negb s), st)
      ∧ (∀ other co, instance st other = Some co → c_type co = CrioArrayT →
                     CrioArray_every this fn other st
                     = CrioArray_every other fn VUndef st).
Proof.
  intros st this c fn _ Hc _.
  destruct (instance_not_null st this c Hc) as (l & -> & Hl).
  unfold CrioArray_every, CrioArray_some. cbn [or_this isUndefined].
  eexists _, _. split; [reflexivity|]. split; [reflexivity|].
  split; [|split; [|split; [|split]]].
  - rewrite forallb_imap. split.
    + intros Hall i Hi. apply (Hall i). by apply array_like_lookup.
    + intros Hall i x Hx.
      destruct (array_like_lookup_inv st (VCrio l) c i x Hc Hx) as [Hi ->].
      by apply Hall.
  - rewrite existsb_imap. split.
    + intros (i & x & Hx & Hf).
      destruct (array_like_lookup_inv st (VCrio l) c i x Hc Hx) as [Hi ->].
      by exists i.
    + intros (i & Hi & Hf). exists i, (crio_prop c (KIdx i)).
      split; [by apply array_like_lookup|done].
  - intros Hn. pose proof (array_like_length st (VCrio l) c Hc) as Hlen.
    rewrite Hn in Hlen. apply nil_length_inv in Hlen. by rewrite Hlen.
  - f_equal. f_equal. rewrite existsb_negb_forallb, negb_involutive.
    f_equal. change (map negb ?l) with (negb <$> l). rewrite fmap_imap.
    apply imap_ext. intros i x _. simpl.
    by destruct (truthy (fn (VCrio l) x i (VCrio l))).
  - intros other co Hco _.
    destruct (instance_not_null st other co Hco) as (lo & -> & Hlo). done.
Qed.

(** On [[1, 2, 3]]: not every element is greater than 1, one is. *)
Lemma every_some_quantify_witness :
  CrioArray_every (VCrio 0)
    (λ _ x _ _, VBool (bool_decide (number_gt (to_number x) 1 = true)))
    VUndef store_123 = (Ok false, store_123)
  ∧ CrioArray_some (VCrio 0)
      (λ _ x _ _, VBool (bool_decide (number_gt (to_number x) 1 = true)))
      VUndef store_123 = (Ok true, store_123).
Proof.
  destruct (every_some_quantify store_123 (VCrio 0) _
              (λ _ x _ _, VBool (bool_decide (number_gt (to_number x) 1 = true)))
              (proj1 (crio_wf (H := tree_utils) array_123 [] wf_store_nil I))
              eq_refl eq_refl) as (e & s & He & Hs & _).
  vm_compute in He. vm_compute in Hs. inversion He. inversion Hs.
  split; reflexivity.
Defined.

Lemma indexOf_from_spec (item : value) (items : list value) :
  ∀ k,
    (indexOf_from item items k = (-1)%Z
     ∧ ∀ i y, items !! i = Some y → strict_equals y item = false)
    ∨ (∃ i y, indexOf_from item items k = Z.of_nat (k + i)
              ∧ items !! i = Some y ∧ strict_equals y item = true
              ∧ ∀ j w, j < i → items !! j = Some w →
                       strict_equals w item = false).
Proof.
  induction items as [|x rest IH]; intros k; cbn [indexOf_from].
  - left. by split.
  - destruct (strict_equals x item) eqn:Hx.
    + right. exists 0, x. rewrite Nat.add_0_r.
      repeat split; auto. intros j w Hj. lia.
    + destruct (IH (S k)) as [(Hz & Hall)|(i & y & Hz & Hi & Hy & Hall)].
      * left. split; [done|]. intros [|i] y Hy; simpl in Hy.
        -- by inversion Hy; subst.
        -- by apply (Hall i).
      * right. exists (S i), y.
        replace (k + S i) with (S k + i) by lia.
        repeat split; auto. intros [|j] w Hj Hw; simpl in Hw.
        -- by inversion Hw; subst.
        -- apply (Hall j); [lia|done].
Qed.

Lemma lastIndexOf_from_spec (item : value) (items : list value) :
  ∀ k,
    (lastIndexOf_from item items k = (-1)%Z
     ∧ ∀ i y, items !! i = Some y → strict_equals y item = false)
    ∨ (∃ i y, lastIndexOf_from item items k = Z.of_nat (k + i)
              ∧ items !! i = Some y ∧ strict_equals y item = true
              ∧ ∀ j w, i < j → items !! j = Some w →
                       strict_equals w item = false).
Proof.
  induction items as [|x rest IH]; intros k; cbn [lastIndexOf_from].
  - left. by split.
  - destruct (IH (S k)) as [(Hz & Hall)|(i & y & Hz & Hi & Hy & Hall)].
    + rewrite Hz. cbn [Z.eqb Pos.eqb]. destruct (strict_equals x item) eqn:Hx.
      * right. exists 0, x. rewrite Nat.add_0_r.
        repeat split; auto. intros [|j] w Hj Hw; [lia|]. by apply (Hall j).
      * left. split; [done|]. intros [|i] y Hy; simpl in Hy.
        -- by inversion Hy; subst.
        -- by apply (Hall i).
    + rewrite Hz.
      replace (Z.of_nat (S k + i) =? -1)%Z with false
        by (symmetry; apply Z.eqb_neq; lia).
      right. exists (S i), y. replace (k + S i) with (S k + i) by lia.
      repeat split; auto. intros [|j] w Hj Hw; [lia|].
      apply (Hall j); [lia|done].
Qed.

(** X6.  [indexOf], [lastIndexOf] and [includes].  On a collection of length
    [n] either no element is strictly equal to the item, and then [indexOf]
    and [lastIndexOf] are -1 and [includes] is false; or [indexOf] is the
    least and [lastIndexOf] the greatest index below [n] holding the item, and
    [includes] is true. *)
Theorem indexOf_first_last :
  ∀ (st : store) (this : value) (c : frozen) (item : value),
    instance st this = Some c →
    let same := λ i, strict_equals (crio_prop c (KIdx i)) item in
    ∃ first last found,
      CrioArray_indexOf this item st = (Ok first, st)
      ∧ CrioArray_lastIndexOf this item st = (Ok last, st)
      ∧ CrioArray_includes this item st = (Ok found, st)
      ∧ ((first = (-1)%Z ∧ last = (-1)%Z ∧ found = false
          ∧ ∀ i, i < c_length c → same i = false)
         ∨ (∃ i j, i ≤ j ∧ j < c_length c
                   ∧ first = Z.of_nat i ∧ last = Z.of_nat j ∧ found = true
                   ∧ same i = true ∧ same j = true
                   ∧ ∀ k, k < c_length c → same k = true → i ≤ k ∧ k ≤ j)).
Proof.
  intros st this c item Hc same.
  destruct (instance_not_null st this c Hc) as (l & -> & Hl).
  unfold CrioArray_includes, bind, ret, CrioArray_indexOf, CrioArray_lastIndexOf.
  set (items := array_like st (VCrio l)).
  eexists _, _, _. split; [reflexivity|]. split; [reflexivity|].
  split; [reflexivity|].
  destruct (indexOf_from_spec item items 0)
    as [(Hz & Hall)|(i & y & Hz & Hi & Hy & Hbefore)].
  - left. rewrite Hz.
    destruct (lastIndexOf_from_spec item items 0)
      as [(Hz' & _)|(j & w & _ & Hj & Hw & _)].
    + repeat split; auto. intros i Hi. apply (Hall i).
      by apply array_like_lookup.
    + rewrite (Hall j w Hj) in Hw. done.
  - right.
    destruct (lastIndexOf_from_spec item items 0)
      as [(_ & Hall)|(j & w & Hz' & Hj & Hw & Hafter)].
    { rewrite (Hall i y Hi) in Hy. done. }
    rewrite Hz, Hz'. cbn [Nat.add].
    destruct (array_like_lookup_inv st (VCrio l) c i y Hc Hi) as [Hil ->].
    destruct (array_like_lookup_inv st (VCrio l) c j w Hc Hj) as [Hjl ->].
    assert (i ≤ j) as Hij.
    { destruct (decide (i ≤ j)); [done|].
      rewrite (Hafter i _ ltac:(lia) Hi) in Hy. done. }
    exists i, j. subst same. cbn beta.
    split; [done|]. split; [done|]. split; [done|]. split; [done|].
    split; [by destruct i|]. split; [done|]. split; [done|].
    intros k Hk Hsame.
    pose proof (array_like_lookup st (VCrio l) c k Hc Hk) as Hlk.
    fold items in Hlk. split.
    + destruct (decide (i ≤ k)); [done|].
      rewrite (Hbefore k _ ltac:(lia) Hlk) in Hsame. done.
    + destruct (decide (k ≤ j)); [done|].
      rewrite (Hafter k _ ltac:(lia) Hlk) in Hsame. done.
Qed.

(** On [[1, 2, 3]], the item 2 is at index 1 only. *)
Lemma indexOf_first_last_witness :
  CrioArray_indexOf (VCrio 0) (VNum 2) store_123 = (Ok 1%Z, store_123)
  ∧ CrioArray_lastIndexOf (VCrio 0) (VNum 2) store_123 = (Ok 1%Z, store_123)
  ∧ CrioArray_includes (VCrio 0) (VNum 2) store_123 = (Ok true, store_123).
Proof.
  destruct (indexOf_first_last store_123 (VCrio 0) _ (VNum 2) eq_refl)
    as (first & last & found & H1 & H2 & H3 & _).
  vm_compute in H1. vm_compute in H2. vm_compute in H3.
  inversion H1. inversion H2. inversion H3. repeat split; reflexivity.
Defined.

(** ** Collections built from values that need no normalising *)

Lemma slot_ok_not_raw b x : slot_ok b x → is_raw x = false.
Proof. by destruct x. Qed.

Lemma array_like_slot_ok st this c :
  shape_ok st → instance st this = Some c →
  Forall (slot_ok (length st)) (array_like st this).
Proof.
  intros Hs Hc. destruct (instance_not_null st this c Hc) as (l & -> & Hl).
  cbn [array_like]. rewrite Hl. apply Forall_fmap, Forall_forall.
  intros i _. simpl. apply (slot_ok_mono l).
  - apply lookup_lt_Some in Hl. lia.
  - apply crio_prop_idx_ok. by apply Hs.
Qed.

(** ** Candidates with plain names *)

Lemma slot_plain_names b x : slot_ok b x → plain_names x = true.
Proof. by destruct x. Qed.

Lemma array_like_plain_names st this c :
  shape_ok st → instance st this = Some c →
  Forall (λ x, plain_names x = true) (array_like st this).
Proof.
  intros Hs Hc. eapply List.Forall_impl; [|by apply (array_like_slot_ok st this c)].
  intros x. apply slot_plain_names.
Qed.

Lemma own_enumerable_plain_names st l c :
  shape_ok st → plain_store st → st !! l = Some c →
  plain_names (VObj (own_enumerable st (VCrio l))) = true.
Proof.
  intros Hs Hp Hl. pose proof (Hs _ _ Hl) as Hok.
  cbn [own_enumerable plain_names]. rewrite Hl.
  pose proof (plain_store_cell st l c Hp Hl) as Hk.
  pose proof (ok_slots _ _ Hok) as Hsl.
  rewrite List.forallb_forall in *. rewrite List.Forall_forall in Hsl.
  intros kv Hkv. rewrite (Hk kv Hkv). cbn [andb].
  by apply (slot_plain_names l), Hsl.
Qed.

Lemma crio_prop_plain_names l c k :
  cell_ok l c → plain_names (crio_prop c k) = true.
Proof.
  intros Hok. unfold crio_prop.
  destruct (field_lookup k (c_slots c)) as [x|] eqn:Hx.
  - apply (slot_plain_names l).
    apply (field_lookup_Some_Forall _ _ _ _ (ok_slots _ _ Hok) Hx).
  - repeat (destruct (decide _); [done|]). done.
Qed.

Lemma get_prop_plain_names st o k a :
  shape_ok st → plain_names o = true → get_prop st o k = Ok a →
  plain_names a = true.
Proof.
  intros Hs Ho. destruct o; cbn [get_prop]; try (by intros [= <-]); try done.
  - destruct k; intros [= <-]; [|by destruct (decide _)].
    unfold item_at. destruct (chars s !! i) as [x|] eqn:E; [|done].
    assert (Forall (λ x, plain_names x = true) (chars s)) as Hch.
    { clear. induction s as [|a r IH]; cbn [chars]; by constructor. }
    by apply (Forall_lookup_1 _ _ _ _ Hch E).
  - destruct k; intros [= <-]; [|by destruct (decide _)].
    unfold item_at. destruct (items !! i) as [x|] eqn:E; [|done].
    cbn [plain_names] in Ho. rewrite List.forallb_forall in Ho.
    apply Ho, list_elem_of_In. by eapply list_elem_of_lookup_2.
  - intros [= <-]. destruct (field_lookup k fields) as [x|] eqn:E; [|done].
    cbn [plain_names] in Ho. rewrite List.forallb_forall in Ho.
    apply field_lookup_elem, list_elem_of_In, Ho in E.
    by apply andb_true_iff in E as [_ E].
  - destruct (st !! l) as [c|] eqn:Hl; intros [= <-]; [|done].
    by apply (crio_prop_plain_names l), Hs.
Qed.

Lemma plain_names_imap (f : nat → value → value) (items : list value) :
  (∀ i x, items !! i = Some x → plain_names (f i x) = true) →
  plain_names (VArr (imap f items)) = true.
Proof.
  cbn [plain_names]. revert f.
  induction items as [|x r IH]; intros f Hf; cbn [imap forallb]; [done|].
  rewrite (Hf 0 x eq_refl). apply IH. intros i y Hy. by apply (Hf (S i)).
Qed.

(** The gate, on a candidate with plain names: what it returns thaws to the
    candidate's content without native names. *)
Lemma gate_thaws `{Utils} st l c cand K :
  hash_collision_free → wf_store st → plain_store st → st !! l = Some c →
  closed (length st) cand → plain_names cand = true →
  match K with
  | CrioArrayT => ∃ items, cand = VArr items
  | CrioObjectT => ∃ fields, cand = VObj fields
  end →
  ∃ r st', returnCorrectObject (VCrio l) cand K st = (Ok r, st')
           ∧ st `prefix_of` st' ∧ wf_store st'
           ∧ is_Some (instance st' r)
           ∧ thaw st' r = strip (content st cand)
           ∧ thaw_method r st' = (Ok (strip (content st cand)), st').
Proof.
  intros Hinj Hwf Hps Hl Hcl Hpn HK.
  destruct (gate_thaw st l c cand K Hinj Hwf Hl Hcl HK)
    as (r & st' & Hrun & Hp & Hwf' & _ & Hir & Hth).
  exists r, st'. do 5 (split; [done|]).
  apply thaws_to; [apply Hwf'|done|done|].
  apply normal_plain_names; [apply Hwf|done|done|by apply Is_true_true].
Qed.

Section flat.
Context `{Utils}.

Lemma getRealValue_not_raw v st :
  is_raw v = false → getRealValue v st = (v, st).
Proof. by destruct v. Qed.

Lemma forEach_getRealValue_flat items st :
  Forall (λ x, is_raw x = false) items →
  forEach getRealValue items st = (items, st).
Proof.
  induction 1 as [|x r Hx _ IH]; [done|]. cbn [forEach].
  by rewrite (getRealValue_not_raw x st Hx), IH.
Qed.

Lemma forEach_getRealValue_app l1 l2 st :
  forEach getRealValue (l1 ++ l2) st
  = (let '(r1, st1) := forEach getRealValue l1 st in
     let '(r2, st2) := forEach getRealValue l2 st1 in
     (r1 ++ r2, st2)).
Proof.
  revert st. induction l1 as [|x r IH]; intros st; cbn [forEach app].
  - by destruct (forEach getRealValue l2 st).
  - destruct (getRealValue x st) as [b st1]. rewrite IH.
    destruct (forEach getRealValue r st1) as [bs st2].
    by destruct (forEach getRealValue l2 st2).
Qed.

(** The cell [new CrioArray(items)] allocates when no item is a plain array
    or object: nothing else is allocated and the items are the slots. *)
Lemma CrioArray_new_flat items st :
  Forall (λ x, is_raw x = false) items →
  ∃ c, CrioArray_new (VArr items) st = (Ok (VCrio (length st)), st ++ [c])
       ∧ c_type c = CrioArrayT
       ∧ c_length c = length items
       ∧ c_slots c = index_slots items
       ∧ c_hashCode c = hash st (VArr items).
Proof.
  intros Hflat. unfold CrioArray_new. cbn [getRealValue].
  rewrite (forEach_getRealValue_flat items st Hflat). unfold alloc.
  eexists. split; [reflexivity|]. by repeat split.
Qed.

Lemma array_like_new (st : store) c items :
  c_length c = length items → c_slots c = index_slots items →
  array_like (st ++ [c]) (VCrio (length st)) = items.
Proof.
  intros Hlen Hslots. cbn [array_like].
  rewrite list_lookup_middle by done. rewrite Hlen.
  transitivity (map id items); [|apply map_id].
  rewrite <- (map_item_at id). apply map_ext. intros i.
  rewrite crio_prop_idx, Hslots, field_lookup_index_slots. done.
Qed.

Lemma cell_ok_index_slots b c items :
  c_type c = CrioArrayT → c_length c = length items →
  c_slots c = index_slots items → Forall (slot_ok b) items →
  cell_ok b c.
Proof.
  intros Ht Hlen Hslots Hok. constructor; rewrite ?Hslots.
  - rewrite <- (index_slots_values items) in Hok.
    by rewrite Forall_fmap in Hok.
  - rewrite index_slots_keys. apply NoDup_fmap_2; [|apply NoDup_seq].
    by intros ?? [=].
  - apply List.Forall_forall. intros [k x] Hin.
    assert (k ∈ (index_slots items).*1) as Hk.
    { apply list_elem_of_fmap. exists (k, x). split; [done|].
      by apply list_elem_of_In. }
    rewrite index_slots_keys in Hk.
    apply list_elem_of_fmap in Hk as (i & -> & _). done.
  - by rewrite index_slots_length.
  - intros _. by rewrite index_slots_keys, Hlen.
Qed.

Lemma shape_ok_snoc (st : store) c :
  shape_ok st → cell_ok (length st) c → shape_ok (st ++ [c]).
Proof.
  intros Hs Hc l c0 Hl. destruct (decide (l < length st)) as [Hlt|Hge].
  - rewrite lookup_app_l in Hl by done. by apply Hs.
  - assert (l = length st) as ->.
    { apply lookup_lt_Some in Hl. rewrite length_app in Hl. simpl in Hl. lia. }
    rewrite list_lookup_middle in Hl by done. by inversion Hl; subst.
Qed.

(** What a method that ends in [new CrioArray(items)] returns, for items
    that are primitives or collections of the store. *)
Lemma CrioArray_new_slots items st :
  shape_ok st → Forall (slot_ok (length st)) items →
  ∃ c, CrioArray_new (VArr items) st = (Ok (VCrio (length st)), st ++ [c])
       ∧ shape_ok (st ++ [c])
       ∧ instance (st ++ [c]) (VCrio (length st)) = Some c
       ∧ c_type c = CrioArrayT
       ∧ c_length c = length items
       ∧ c_hashCode c = hash st (VArr items)
       ∧ array_like (st ++ [c]) (VCrio (length st)) = items.
Proof.
  intros Hs Hok.
  destruct (CrioArray_new_flat items st) as (c & Hrun & Ht & Hlen & Hsl & Hh).
  { eapply List.Forall_impl; [|exact Hok]. intros x. apply slot_ok_not_raw. }
  exists c. split; [done|]. split.
  { apply shape_ok_snoc; [done|]. by apply cell_ok_index_slots with items. }
  split; [simpl; by rewrite list_lookup_middle|].
  split; [done|]. split; [done|]. split; [done|].
  by apply array_like_new.
Qed.
End flat.

(** ** [push], [pop] and [shift] *)

Lemma fresh_not_receiver (st : store) this c :
  instance st this = Some c → VCrio (length st) ≠ this.
Proof.
  intros Hc <-. simpl in Hc. apply lookup_lt_Some in Hc. lia.
Qed.

Lemma CrioArray_push_new `{Utils} this items st :
  CrioArray_push this items st
  = CrioArray_new (VArr (array_like st this ++ items)) st.
Proof.
  unfold CrioArray_push, CrioArray_concat, concat_items.
  cbn. by rewrite app_nil_r.
Qed.

Lemma clamp_index_nat len n :
  clamp_index len (Z.of_nat n) = Nat.min n len.
Proof.
  unfold clamp_index. rewrite decide_False by lia. by rewrite Nat2Z.id.
Qed.

Lemma to_integer_num z : to_integer (VNum z) = z.
Proof. done. Qed.

Lemma slice_items_pop (items : list value) :
  slice_items items [VNum 0; VNum (Z.of_nat (length items) - 1)]
  = take (length items - 1) items.
Proof.
  unfold slice_items. rewrite !to_integer_num.
  rewrite (clamp_index_nat _ 0). cbn [Nat.min drop]. rewrite Nat.sub_0_r.
  f_equal. unfold clamp_index.
  destruct (decide (Z.of_nat (length items) - 1 < 0)%Z); lia.
Qed.

Lemma slice_items_shift (items : list value) :
  slice_items items [VNum 1; VNum (Z.of_nat (length items))]
  = drop 1 items.
Proof.
  unfold slice_items. rewrite !to_integer_num.
  rewrite (clamp_index_nat _ 1), (clamp_index_nat _ (length items)).
  rewrite Nat.min_id. destruct items as [|x r]; [done|].
  cbn [length]. replace (Nat.min 1 (S (length r))) with 1 by lia.
  change (drop 1 (x :: r)) with r. apply take_ge. lia.
Qed.

(** X7.  [push] appends.  On an indexed collection of a store that respects
    I3, pushing primitives or collections returns a new collection, never the
    receiver, that holds the receiver's elements followed by the items, its
    length the sum of the two; also when no item is pushed, where [concat]
    would return the receiver. *)
Theorem push_appends `{Utils} :
  ∀ (st : store) (this : value) (c : frozen) (items : list value),
    shape_ok st → instance st this = Some c → c_type c = CrioArrayT →
    Forall (slot_ok (length st)) items →
    ∃ r st' c',
      CrioArray_push this items st = (Ok r, st')
      ∧ r ≠ this ∧ st `prefix_of` st' ∧ shape_ok st'
      ∧ instance st' r = Some c'
      ∧ c_type c' = CrioArrayT
      ∧ c_length c' = c_length c + length items
      ∧ array_like st' r = array_like st this ++ items
      ∧ array_like st' this = array_like st this.
Proof.
  intros st this c items Hs Hc _ Hitems.
  pose proof (array_like_slot_ok st this c Hs Hc) as Hclone.
  pose proof (array_like_length st this c Hc) as Hlen.
  destruct (CrioArray_new_slots (array_like st this ++ items) st Hs)
    as (c' & Hrun & Hs' & Hc' & Ht' & Hlen' & _ & Hlike).
  { by apply Forall_app. }
  exists (VCrio (length st)), (st ++ [c']), c'.
  split; [by rewrite CrioArray_push_new|].
  split; [by eapply fresh_not_receiver|].
  split; [by apply prefix_app_r|]. split; [done|]. split; [done|].
  split; [done|].
  split; [by rewrite Hlen', length_app, Hlen|]. split; [done|].
  destruct (instance_not_null st this c Hc) as (l & -> & Hl).
  cbn [array_like]. by rewrite (lookup_app_l_Some _ _ _ _ Hl), Hl.
Qed.

(** [crio([1, 2, 3]).push(4)] holds [1, 2, 3, 4]. *)
Lemma push_appends_witness :
  ∃ r st', CrioArray_push (H := tree_utils) (VCrio 0) [VNum 4] store_123
           = (Ok r, st')
           ∧ array_like st' r = [VNum 1; VNum 2; VNum 3; VNum 4].
Proof.
  destruct (push_appends (H := tree_utils) store_123 (VCrio 0) _ [VNum 4]
              (proj1 (crio_wf (H := tree_utils) array_123 []
                        wf_store_nil I))
              eq_refl eq_refl (Forall_cons_2 _ (VNum 4) [] I (Forall_nil_2 _)))
    as (r & st' & c' & Hrun & _ & _ & _ & _ & _ & _ & Hlike & _).
  exists r, st'. split; [exact Hrun|exact Hlike].
Defined.

(** X8.  [pop] and [shift].  In a store that respects I3, each returns a new
    collection, never the receiver:  [pop] one holding the receiver's elements
    but the last, [shift] one holding them but the first.  On an empty
    collection both return a new empty collection and nothing is thrown. *)
Theorem pop_shift_drop `{Utils} :
  ∀ (st : store) (this : value) (c : frozen),
    shape_ok st → instance st this = Some c →
    (∃ r st' c',
       CrioArray_pop this st = (Ok r, st')
       ∧ r ≠ this ∧ shape_ok st' ∧ instance st' r = Some c'
       ∧ c_length c' = c_length c - 1
       ∧ array_like st' r = take (c_length c - 1) (array_like st this))
    ∧ (∃ r st' c',
         CrioArray_shift this st = (Ok r, st')
         ∧ r ≠ this ∧ shape_ok st' ∧ instance st' r = Some c'
         ∧ c_length c' = c_length c - 1
         ∧ array_like st' r = drop 1 (array_like st this)).
Proof.
  intros st this c Hs Hc.
  pose proof (array_like_slot_ok st this c Hs Hc) as Hclone.
  pose proof (array_like_length st this c Hc) as Hlen.
  split.
  - destruct (CrioArray_new_slots (take (c_length c - 1) (array_like st this))
                st Hs) as (c' & Hrun & Hs' & Hc' & _ & Hlen' & _ & Hlike).
    { by apply Forall_take. }
    exists (VCrio (length st)), (st ++ [c']), c'.
    split.
    { unfold CrioArray_pop. rewrite Hc. unfold CrioArray_slice.
      rewrite <- Hlen at 1. by rewrite slice_items_pop, Hlen. }
    split; [by eapply fresh_not_receiver|]. split; [done|]. split; [done|].
    split; [|done]. rewrite Hlen', length_take. lia.
  - destruct (CrioArray_new_slots (drop 1 (array_like st this)) st Hs)
      as (c' & Hrun & Hs' & Hc' & _ & Hlen' & _ & Hlike).
    { by apply Forall_drop. }
    exists (VCrio (length st)), (st ++ [c']), c'.
    split.
    { unfold CrioArray_shift. rewrite Hc. unfold CrioArray_slice.
      rewrite <- Hlen. by rewrite slice_items_shift. }
    split; [by eapply fresh_not_receiver|]. split; [done|]. split; [done|].
    split; [|done]. rewrite Hlen', length_drop. lia.
Qed.

(** [crio([1, 2, 3]).pop()] holds [1, 2]. *)
Lemma pop_shift_drop_witness :
  ∃ r st', CrioArray_pop (H := tree_utils) (VCrio 0) store_123 = (Ok r, st')
           ∧ array_like st' r = [VNum 1; VNum 2].
Proof.
  destruct (proj1 (pop_shift_drop (H := tree_utils) store_123 (VCrio 0) _
                     (proj1 (crio_wf (H := tree_utils) array_123 []
                               wf_store_nil I)) eq_refl))
    as (r & st' & c' & Hrun & _ & _ & _ & _ & Hlike).
  exists r, st'. split; [exact Hrun|exact Hlike].
Defined.

(** ** One value normalised among values that need none *)

Lemma slot_ok_closed b x : slot_ok b x → closed b x.
Proof. destruct x; try done. simpl. intros Hl. by apply bool_decide_pack. Qed.

Lemma Forall_slot_ok_closed b (items : list value) :
  Forall (slot_ok b) items → closed b (VArr items).
Proof.
  intros Hok. cbn [closed]. apply forallb_True.
  eapply List.Forall_impl; [|exact Hok]. apply slot_ok_closed.
Qed.

Lemma get_hashCode_hidden st l c :
  st !! l = Some c → field_lookup (KStr "$$hashCode") (c_slots c) = None →
  get_prop st (VCrio l) (KStr "$$hashCode") = Ok (VNum (c_hashCode c)).
Proof.
  intros Hc Hno. cbn [get_prop]. rewrite Hc. unfold crio_prop. by rewrite Hno.
Qed.

Lemma equals_hidden st la lb ca cb :
  st !! la = Some ca → st !! lb = Some cb →
  field_lookup (KStr "$$hashCode") (c_slots ca) = None →
  field_lookup (KStr "$$hashCode") (c_slots cb) = None →
  c_hashCode ca = c_hashCode cb →
  CrioArray_equals (VCrio la) (VCrio lb) st = (Ok true, st)
  ∧ CrioObject_equals (VCrio la) (VCrio lb) st = (Ok true, st).
Proof.
  intros Ha Hb Hna Hnb Hh. unfold CrioArray_equals, CrioObject_equals.
  cbn [isCrio negb].
  rewrite (get_hashCode_hidden st la ca Ha Hna).
  rewrite (get_hashCode_hidden st lb cb Hb Hnb).
  cbn [strict_equals]. by rewrite bool_decide_eq_true_2 by congruence.
Qed.

Section one_raw.
Context `{Utils}.

Lemma getRealValue_result_not_raw v st : is_raw (getRealValue v st).1 = false.
Proof.
  destruct v; try done.
  - by destruct (getRealValue_array_fresh items st) as (st1 & c & -> & _).
  - by destruct (getRealValue_object_fresh fields st) as (st1 & c & -> & _).
Qed.

(** [new CrioArray(l1 ++ x :: l2)] where only [x] may be a plain array or
    object: the store grows by what normalising [x] allocates, then by the
    cell, whose slots are the items with [x] normalised. *)
Lemma CrioArray_new_one l1 x l2 st x' st1 :
  Forall (λ y, is_raw y = false) l1 → Forall (λ y, is_raw y = false) l2 →
  getRealValue x st = (x', st1) →
  ∃ c, CrioArray_new (VArr (l1 ++ x :: l2)) st
       = (Ok (VCrio (length st1)), st1 ++ [c])
       ∧ c_type c = CrioArrayT
       ∧ c_length c = length (l1 ++ x' :: l2)
       ∧ c_slots c = index_slots (l1 ++ x' :: l2)
       ∧ c_hashCode c = hash st1 (VArr (l1 ++ x :: l2)).
Proof.
  intros H1 H2 Hx. unfold CrioArray_new. cbn [getRealValue].
  rewrite forEach_getRealValue_app, (forEach_getRealValue_flat l1 st H1).
  cbn [forEach]. rewrite Hx, (forEach_getRealValue_flat l2 st1 H2).
  unfold alloc. eexists. split; [reflexivity|].
  split; [done|]. split; [|done]. cbn [c_length].
  rewrite !length_app. done.
Qed.
End one_raw.

(** X9.  [push] then [pop], [unshift] then [shift].  Let the hash be a
    function of the content alone, in a store that respects I3.  On an indexed
    collection whose hash code is the hash of its own content, pushing any
    value and popping, or unshifting any value and shifting, returns a
    collection that is not the receiver, holds exactly the receiver's
    elements, and [equals] the receiver. *)
Theorem pop_of_push `{Utils} :
  hash_of_content →
  ∀ (st : store) (this : value) (c : frozen) (x : value),
    shape_ok st → instance st this = Some c → c_type c = CrioArrayT →
    hash_consistent st this →
    (∃ r st',
       (let* pushed := CrioArray_push this [x] in CrioArray_pop pushed) st
       = (Ok r, st')
       ∧ r ≠ this
       ∧ array_like st' r = array_like st this
       ∧ CrioArray_equals r this st' = (Ok true, st'))
    ∧ (∃ r st',
         (let* longer := CrioArray_unshift this [x] in CrioArray_shift longer) st
         = (Ok r, st')
         ∧ r ≠ this
         ∧ array_like st' r = array_like st this
         ∧ CrioArray_equals r this st' = (Ok true, st')).
Proof.
  intros HI4 st this c x Hs Hc Ht (c0 & Hc0 & Hh).
  rewrite Hc in Hc0. inversion Hc0; subst c0. clear Hc0.
  destruct (instance_not_null st this c Hc) as (l & -> & Hl).
  pose proof (Hs _ _ Hl) as Hok.
  pose proof (array_like_slot_ok st (VCrio l) c Hs Hc) as Hclone.
  set (clone := array_like st (VCrio l)) in *.
  assert (Forall (λ y, is_raw y = false) clone) as Hflat.
  { eapply List.Forall_impl; [|exact Hclone]. intros y. apply slot_ok_not_raw. }
  destruct (getRealValue x st) as [x' st1] eqn:Hx.
  pose proof (getRealValue_prefix x st) as Hp1. rewrite Hx in Hp1. simpl in Hp1.
  pose proof (getRealValue_result_not_raw x st) as Hx'. rewrite Hx in Hx'.
  simpl in Hx'.
  assert (∀ (c1 c2 : frozen),
            c_slots c2 = index_slots clone →
            c_hashCode c2 = hash (st1 ++ [c1]) (VArr clone) →
            CrioArray_equals (VCrio (length (st1 ++ [c1]))) (VCrio l)
                             ((st1 ++ [c1]) ++ [c2])
            = (Ok true, (st1 ++ [c1]) ++ [c2])) as Hequal.
  { intros c1 c2 Hsl2 Hh2.
    apply (equals_hidden _ _ _ c2 c).
    - by rewrite list_lookup_middle.
    - apply (prefix_lookup_Some st); [done|].
      etrans; [exact Hp1|]. etrans; by apply prefix_app_r.
    - rewrite Hsl2. apply field_lookup_index_slots_name.
    - by apply (field_lookup_native _ _ (ok_native _ _ Hok)).
    - rewrite Hh2, Hh. apply HI4.
      rewrite (content_stable st (st1 ++ [c1]) (VArr clone) Hs).
      + unfold clone. rewrite (content_clone_array st l c Hs Hl Ht).
        symmetry. apply (content_thaw _ _ _ (S l)); [done|simpl; lia].
      + etrans; [exact Hp1|]. by apply prefix_app_r.
      + by apply Forall_slot_ok_closed. }
  assert (∀ c1 : frozen, VCrio (length (st1 ++ [c1])) ≠ VCrio l) as Hfresh.
  { intros c1 [= E]. apply lookup_lt_Some in Hl. apply prefix_length in Hp1.
    rewrite length_app in E. simpl in E. lia. }
  split.
  - destruct (CrioArray_new_one clone x [] st x' st1 Hflat (Forall_nil_2 _) Hx)
      as (c1 & Hrun1 & Ht1 & Hlen1 & Hsl1 & _).
    pose proof (array_like_new st1 c1 _ Hlen1 Hsl1) as Hlike1.
    destruct (CrioArray_new_flat clone (st1 ++ [c1]) Hflat)
      as (c2 & Hrun2 & Ht2 & Hlen2 & Hsl2 & Hh2).
    exists (VCrio (length (st1 ++ [c1]))), ((st1 ++ [c1]) ++ [c2]).
    split.
    { unfold bind. rewrite CrioArray_push_new. fold clone. rewrite Hrun1.
      unfold CrioArray_pop. cbn [instance].
      rewrite list_lookup_middle by done. unfold CrioArray_slice.
      rewrite Hlike1, Hlen1. rewrite slice_items_pop.
      rewrite length_app. cbn [length]. rewrite Nat.add_1_r.
      cbn [Nat.sub]. rewrite Nat.sub_0_r, take_app_length. exact Hrun2. }
    split; [apply Hfresh|].
    split; [by apply array_like_new|]. by apply Hequal.
  - destruct (CrioArray_new_one [] x clone st x' st1 (Forall_nil_2 _) Hflat Hx)
      as (c1 & Hrun1 & Ht1 & Hlen1 & Hsl1 & _).
    pose proof (array_like_new st1 c1 _ Hlen1 Hsl1) as Hlike1.
    destruct (CrioArray_new_flat clone (st1 ++ [c1]) Hflat)
      as (c2 & Hrun2 & Ht2 & Hlen2 & Hsl2 & Hh2).
    exists (VCrio (length (st1 ++ [c1]))), ((st1 ++ [c1]) ++ [c2]).
    split.
    { unfold bind, CrioArray_unshift. fold clone.
      change ([x] ++ clone) with ([] ++ x :: clone). rewrite Hrun1.
      unfold CrioArray_shift. cbn [instance].
      rewrite list_lookup_middle by done. unfold CrioArray_slice.
      rewrite Hlike1, Hlen1. rewrite slice_items_shift. exact Hrun2. }
    split; [apply Hfresh|].
    split; [by apply array_like_new|]. by apply Hequal.
Qed.

(** [crio([1, 2, 3]).push([4]).pop()]. *)
Lemma pop_of_push_witness :
  ∃ r st',
    (let* pushed := CrioArray_push (H := tree_utils) (VCrio 0)
                                   [VArr [VNum 4]] in
     CrioArray_pop (H := tree_utils) pushed) store_123 = (Ok r, st')
    ∧ r ≠ VCrio 0
    ∧ array_like st' r = array_like store_123 (VCrio 0)
    ∧ CrioArray_equals r (VCrio 0) st' = (Ok true, st').
Proof.
  refine (proj1 (pop_of_push (H := tree_utils) tree_hash_of_content
                   store_123 (VCrio 0) _ (VArr [VNum 4])
                   (proj1 (crio_wf (H := tree_utils) array_123 []
                             wf_store_nil I))
                   eq_refl eq_refl _)).
  eexists. split; [reflexivity|]. vm_compute. reflexivity.
Defined.

(** ** Iterating and listing an indexed collection *)

Lemma CrioArray_drain st this c :
  instance st this = Some c →
  ∀ k i, i + k = c_length c →
         drain (CrioArray_next st) (S k) {| ai_this := this; ai_index := i |}
         = Some (drop i (array_like st this)).
Proof.
  intros Hc k. pose proof (array_like_length st this c Hc) as Hlen.
  induction k as [|k IH]; intros i Hi.
  - cbn [drain]. unfold CrioArray_next. cbn [ai_this ai_index]. rewrite Hc.
    replace (c_length c <=? i) with true by (symmetry; apply Nat.leb_le; lia).
    rewrite drop_ge; [done|]. lia.
  - change (drain (CrioArray_next st) (S (S k)) ?it)
      with (let '((v, done), it') := CrioArray_next st it in
            if done then Some []
            else cons v <$> drain (CrioArray_next st) (S k) it').
    unfold CrioArray_next at 1. cbn [ai_this ai_index]. rewrite Hc.
    replace (c_length c <=? i) with false by (symmetry; apply Nat.leb_gt; lia).
    rewrite (IH (S i)) by lia.
    rewrite (drop_S _ (crio_prop c (KIdx i)) i); [done|].
    apply array_like_lookup; [done|lia].
Qed.

Lemma key_name_index_slots (items : list value) :
  map key_name (index_slots items).*1
  = map (λ i, VStr (pretty i)) (seq 0 (length items)).
Proof.
  rewrite index_slots_keys.
  change (KIdx <$> seq 0 (length items)) with (map KIdx (seq 0 (length items))).
  by rewrite map_map.
Qed.

(** X10.  Iterating an indexed collection.  A loop over the iterator of a
    collection of length [n] sees its [n] elements in index order, the call
    of [next] number [i] giving element [i], not done, while [i < n], and
    being done from then on; in a store that respects I3 these are also what
    [values()] lists, [keys()] lists the indices as strings, and [entries()]
    the pairs of an index and its element. *)
Theorem CrioArray_iteration_yields_items :
  ∀ (st : store) (this : value) (c : frozen),
    instance st this = Some c →
    drain (CrioArray_next st) (S (c_length c)) (CrioArray_iterator this)
    = Some (array_like st this)
    ∧ (∀ i, i < c_length c →
            (CrioArray_next st {| ai_this := this; ai_index := i |}).1
            = (crio_prop c (KIdx i), false))
    ∧ (∀ i, c_length c ≤ i →
            (CrioArray_next st {| ai_this := this; ai_index := i |}).1.2 = true)
    ∧ (shape_ok st → c_type c = CrioArrayT →
       values st this = array_like st this
       ∧ keys st this = map (λ i, VStr (pretty i)) (seq 0 (c_length c))
       ∧ entries st this
         = imap (λ i x, VArr [VStr (pretty i); x]) (array_like st this)).
Proof.
  intros st this c Hc. split; [|split; [|split]].
  - unfold CrioArray_iterator.
    rewrite (CrioArray_drain st this c Hc (c_length c) 0); [done|lia].
  - intros i Hi. unfold CrioArray_next. cbn [ai_this ai_index]. rewrite Hc.
    cbn [fst]. f_equal. apply Nat.leb_gt. lia.
  - intros i Hi. unfold CrioArray_next. cbn [ai_this ai_index]. rewrite Hc.
    cbn [fst snd]. by apply Nat.leb_le.
  - intros Hs Ht.
    destruct (instance_not_null st this c Hc) as (l & -> & Hl).
    pose proof (Hs _ _ Hl) as Hok.
    pose proof (cell_ok_slots_index l c Hok Ht) as Hslots.
    pose proof (array_like_cell l c Hok Ht) as Hlike.
    unfold values, keys, entries, OBJECT_KEYS. cbn [own_enumerable array_like].
    rewrite Hl, Hlike. split; [done|]. split.
    + rewrite Hslots, key_name_index_slots.
      by rewrite length_fmap, <- (ok_length _ _ Hok).
    + rewrite Hslots at 1. unfold index_slots.
      change (map ?f (imap ?g ?l)) with (f <$> imap g l).
      rewrite fmap_imap. by apply imap_ext.
Qed.

(** The loop over [crio([1, 2, 3])]. *)
Lemma CrioArray_iteration_yields_items_witness :
  drain (CrioArray_next store_123) 4 (CrioArray_iterator (VCrio 0))
  = Some [VNum 1; VNum 2; VNum 3].
Proof.
  exact (proj1 (CrioArray_iteration_yields_items store_123 (VCrio 0) _
                  eq_refl)).
Defined.

(** ** [concat] *)

Lemma concat_items_whole b (items args : list value) :
  Forall (slot_ok b) args → concat_items items args = items ++ args.
Proof.
  intros Hargs. unfold concat_items. f_equal.
  induction Hargs as [|a r Ha _ IH]; [done|].
  cbn [mbind list_bind]. change (list_bind _ _ ?f r) with (mbind (M := list) f r).
  rewrite IH. by destruct a.
Qed.

(** X11.  [concat] does not spread a collection.  In a store that respects I3,
    called with primitives and collections of the store, at least one,
    [concat] returns a new collection holding the receiver's elements followed
    by the arguments themselves: a collection handed to [concat] becomes one
    element of the result, its elements are not appended. *)
Theorem concat_keeps_collections_whole `{Utils} :
  ∀ (st : store) (this : value) (c : frozen) (args : list value),
    shape_ok st → instance st this = Some c →
    args ≠ [] → Forall (slot_ok (length st)) args →
    ∃ r st' c',
      CrioArray_concat this args st = (Ok r, st')
      ∧ r ≠ this ∧ shape_ok st'
      ∧ instance st' r = Some c'
      ∧ c_length c' = c_length c + length args
      ∧ array_like st' r = array_like st this ++ args.
Proof.
  intros st this c args Hs Hc Hne Hargs.
  pose proof (array_like_slot_ok st this c Hs Hc) as Hclone.
  pose proof (array_like_length st this c Hc) as Hlen.
  destruct (CrioArray_new_slots (array_like st this ++ args) st Hs)
    as (c' & Hrun & Hs' & Hc' & _ & Hlen' & _ & Hlike).
  { by apply Forall_app. }
  exists (VCrio (length st)), (st ++ [c']), c'.
  split.
  { destruct args as [|a args]; [done|]. unfold CrioArray_concat.
    by rewrite (concat_items_whole (length st)). }
  split; [by eapply fresh_not_receiver|]. split; [done|]. split; [done|].
  split; [|done]. by rewrite Hlen', length_app, Hlen.
Qed.

(** [crio([1, 2, 3])] concatenated with itself has four elements, the last
    being the collection. *)
Lemma concat_keeps_collections_whole_witness :
  ∃ r st', CrioArray_concat (H := tree_utils) (VCrio 0) [VCrio 0] store_123
           = (Ok r, st')
           ∧ array_like st' r = [VNum 1; VNum 2; VNum 3; VCrio 0].
Proof.
  destruct (concat_keeps_collections_whole (H := tree_utils)
              store_123 (VCrio 0) _ [VCrio 0]
              (proj1 (crio_wf (H := tree_utils) array_123 []
                        wf_store_nil I))
              eq_refl ltac:(discriminate)
              (Forall_cons_2 (slot_ok 1) (VCrio 0) []
                 ltac:(vm_compute; lia) (Forall_nil_2 _)))
    as (r & st' & c' & Hrun & _ & _ & _ & _ & Hlike).
  exists r, st'. split; [exact Hrun|exact Hlike].
Defined.

(** ** [set]: what the other slots hold *)

Lemma set_candidate_split (items : list value) i v :
  i ≤ length items →
  (if decide (i < length items) then <[i:=v]> items
   else resize i items ++ [v])
  = take i items ++ v :: drop (S i) items.
Proof.
  intros Hi. destruct (decide (i < length items)) as [Hlt|Hge].
  - by apply insert_take_drop.
  - assert (i = length items) as -> by lia.
    rewrite resize_length, firstn_all, drop_ge; [done|lia].
Qed.

Lemma CrioArray_set_candidate `{Utils} this c i v st :
  instance st this = Some c → i ≤ c_length c →
  CrioArray_set this (VNum (Z.of_nat i)) v st
  = returnCorrectObject this
      (VArr (take i (array_like st this) ++ v :: drop (S i) (array_like st this)))
      CrioArrayT st.
Proof.
  intros Hc Hi. unfold CrioArray_set. rewrite Hc.
  cbn [to_number number_gt from_option].
  replace (Z.of_nat (c_length c) <? Z.of_nat i)%Z with false
    by (symmetry; apply Z.ltb_ge; lia).
  unfold key_of_number. rewrite decide_True by lia. rewrite Nat2Z.id.
  unfold shallowCloneArray. cbn [raw_set].
  rewrite set_candidate_split; [done|].
  by rewrite (array_like_length st this c Hc).
Qed.

Lemma lookup_take_cons_drop {A} (l : list A) i j (v : A) :
  j ≠ i → i ≤ length l →
  (take i l ++ v :: drop (S i) l) !! j = l !! j.
Proof.
  intros Hne Hi. destruct (decide (j < i)) as [Hlt|Hge].
  - rewrite lookup_app_l by (rewrite length_take; lia).
    by rewrite lookup_take_lt.
  - rewrite lookup_app_r by (rewrite length_take; lia).
    rewrite length_take. replace (i `min` length l) with i by lia.
    rewrite lookup_cons_ne_0 by lia. rewrite lookup_drop. f_equal. lia.
Qed.

(** X12.  [set] shares the slots it does not write.  On an indexed collection
    of length [n] in a store that respects I3, [set(i, v)] with [i] at most
    [n] returns either the receiver or a new collection in which every index
    below [n] other than [i] reads the very value it reads in the receiver, a
    nested collection being the same instance, index [i] reads [v] as
    [getRealValue] normalises it, and [length] is the greater of [n] and [i +
    1]. *)
Theorem CrioArray_set_shares_slots `{Utils} :
  ∀ (st : store) (this : value) (c : frozen) (i : nat) (v : value)
    (r : value) (st' : store),
    shape_ok st → instance st this = Some c → i ≤ c_length c →
    CrioArray_set this (VNum (Z.of_nat i)) v st = (Ok r, st') →
    (∀ j, j < c_length c → j ≠ i →
          get_prop st' r (KIdx j) = get_prop st this (KIdx j))
    ∧ ((r = this ∧ st' = st)
       ∨ (r ≠ this
          ∧ get_prop st' r (KIdx i) = Ok (getRealValue v st).1
          ∧ get_prop st' r (KStr "length")
            = Ok (VNum (Z.of_nat (Nat.max (c_length c) (S i)))))).
Proof.
  intros st this c i v r st' Hs Hc Hi Hrun.
  rewrite (CrioArray_set_candidate this c i v st Hc Hi) in Hrun.
  destruct (instance_not_null st this c Hc) as (l & -> & Hl).
  pose proof (Hs _ _ Hl) as Hok.
  pose proof (array_like_slot_ok st (VCrio l) c Hs Hc) as Hclone.
  pose proof (array_like_length st (VCrio l) c Hc) as Hlen.
  set (clone := array_like st (VCrio l)) in *.
  rewrite (gate_decides st l c _ _ Hl Hok) in Hrun.
  destruct (decide _) as [Heq|Hne] in Hrun.
  { inversion Hrun; subst. split; [done|]. by left. }
  cbn [construct] in Hrun.
  assert (Forall (λ y, is_raw y = false) clone) as Hflat.
  { eapply List.Forall_impl; [|exact Hclone]. intros y. apply slot_ok_not_raw. }
  destruct (getRealValue v st) as [v' st1] eqn:Hv.
  destruct (CrioArray_new_one (take i clone) v (drop (S i) clone) st v' st1)
    as (c' & Hnew & Ht' & Hlen' & Hsl' & _); auto.
  { by apply Forall_take. }
  { by apply Forall_drop. }
  rewrite Hnew in Hrun. inversion Hrun; subst r st'. clear Hrun.
  pose proof (getRealValue_prefix v st) as Hp1. rewrite Hv in Hp1. simpl in Hp1.
  assert (∀ j, get_prop (st1 ++ [c']) (VCrio (length st1)) (KIdx j)
               = Ok (default VUndef
                       ((take i clone ++ v' :: drop (S i) clone) !! j))) as Hget.
  { intros j. cbn [get_prop]. rewrite list_lookup_middle by done.
    by rewrite crio_prop_idx, Hsl', field_lookup_index_slots. }
  split.
  - intros j Hj Hji. rewrite Hget, lookup_take_cons_drop by (done || lia).
    cbn [get_prop]. rewrite Hl. unfold clone.
    by rewrite (array_like_lookup st (VCrio l) c j Hc Hj).
  - right. split.
    { intros [= E]. apply lookup_lt_Some in Hl. apply prefix_length in Hp1. lia. }
    split.
    + rewrite Hget. rewrite lookup_app_r by (rewrite length_take; lia).
      rewrite length_take. replace (i `min` length clone) with i by lia.
      by rewrite Nat.sub_diag.
    + cbn [get_prop]. rewrite list_lookup_middle by done. unfold crio_prop.
      rewrite Hsl', field_lookup_index_slots_name. rewrite decide_True by done.
      rewrite Hlen'. do 3 f_equal.
      rewrite length_app, length_take. cbn [length]. rewrite length_drop. lia.
Qed.

(** [crio([1, 2, 3]).set(1, 9)] still reads 3 at index 2. *)
Lemma CrioArray_set_shares_slots_witness :
  get_prop (CrioArray_set (H := tree_utils)
              (VCrio 0) (VNum 1) (VNum 9) store_123).2 (VCrio 1) (KIdx 2)
  = get_prop store_123 (VCrio 0) (KIdx 2).
Proof.
  refine (proj1 (CrioArray_set_shares_slots (H := tree_utils)
                   store_123 (VCrio 0) _ 1 (VNum 9) (VCrio 1) _
                   (proj1 (crio_wf (H := tree_utils) array_123 []
                             wf_store_nil I))
                   eq_refl _ eq_refl) 2 _ _).
  - vm_compute. lia.
  - vm_compute. lia.
  - discriminate.
Defined.

(** ** [set], then [thaw] *)

Lemma field_lookup_None_keys k (fs : list (key * value)) :
  field_lookup k fs = None ↔ k ∉ fs.*1.
Proof.
  induction fs as [|[k' w] r IH]; cbn [field_lookup].
  - split; [intros _; apply not_elem_of_nil|done].
  - rewrite fmap_cons, not_elem_of_cons. cbn [fst].
    destruct (decide (k' = k)) as [->|Hne]; [split; [done|by intros [? _]]|].
    rewrite IH. split; [by split|by intros [_ ?]].
Qed.

Lemma field_set_new k x (fs : list (key * value)) :
  field_lookup k fs = None → field_set k x fs = fs ++ [(k, x)].
Proof.
  induction fs as [|[k' w] r IH]; cbn [field_lookup field_set]; [done|].
  destruct (decide (k' = k)); [done|]. intros Hr. by rewrite IH.
Qed.

Lemma field_set_nodup k x (fs : list (key * value)) :
  NoDup fs.*1 → NoDup (field_set k x fs).*1.
Proof.
  intros Hnd. destruct (field_lookup k fs) as [w|] eqn:Hk.
  - by rewrite field_set_keys.
  - rewrite (field_set_new k x fs Hk), fmap_app.
    apply list.NoDup_app. split; [done|]. split; [|apply list.NoDup_singleton].
    intros k' Hk' Hin. apply list_elem_of_singleton in Hin. subst k'.
    by apply (field_lookup_None_keys k fs).
Qed.

Lemma closed_field_set n k x (fs : list (key * value)) :
  closed n (VObj fs) → closed n x → closed n (VObj (field_set k x fs)).
Proof.
  cbn [closed]. intros Ho Hx. apply andb_True in Ho as [Ho Hnd].
  apply andb_True. split.
  - apply forallb_True. apply forallb_True in Ho.
    clear Hnd. induction fs as [|[k' w] r IH]; cbn [field_set].
    + by repeat constructor.
    + inversion Ho; subst. destruct (decide (k' = k)).
      * by constructor.
      * constructor; [done|by apply IH].
  - apply bool_decide_pack, field_set_nodup. by apply bool_decide_unpack in Hnd.
Qed.

Lemma own_enumerable_closed st l c :
  shape_ok st → st !! l = Some c →
  closed (length st) (VObj (own_enumerable st (VCrio l))).
Proof.
  intros Hs Hl. pose proof (Hs _ _ Hl) as Hok. cbn [own_enumerable closed].
  rewrite Hl. apply andb_True. split.
  - apply forallb_True. eapply List.Forall_impl; [|exact (ok_slots _ _ Hok)].
    intros [k x] Hx. cbn [snd] in *. apply slot_ok_closed.
    eapply slot_ok_mono; [|exact Hx]. apply lookup_lt_Some in Hl. lia.
  - apply bool_decide_pack, (ok_nodup _ _ Hok).
Qed.

Lemma thaw_array_items st l c :
  shape_ok st → st !! l = Some c → c_type c = CrioArrayT →
  ∃ ts, thaw st (VCrio l) = VArr ts
        ∧ map (λ x, strip (content st x)) (array_like st (VCrio l)) = ts
        ∧ length ts = c_length c.
Proof.
  intros Hs Hl Ht.
  pose proof (content_clone_array st l c Hs Hl Ht) as Hcl.
  pose proof (strip_thaw st (VCrio l) (S l) Hs ltac:(simpl; lia)) as Hst.
  set (clone := array_like st (VCrio l)) in *.
  cbn [content] in Hcl. rewrite <- Hcl in Hst. cbn [strip] in Hst.
  inversion Hst as [E].
  exists (map (content st) clone). split; [done|]. split.
  - etrans; [symmetry; apply map_map|exact E].
  - rewrite length_map. by apply array_like_length.
Qed.

Lemma thaw_object_fields st l c :
  shape_ok st → st !! l = Some c → c_type c = CrioObjectT →
  ∃ fs, thaw st (VCrio l) = VObj fs
        ∧ strip (content st (VObj (own_enumerable st (VCrio l)))) = VObj fs.
Proof.
  intros Hs Hl Ht.
  pose proof (content_clone_object st l c Hs Hl Ht) as Hcl.
  pose proof (strip_thaw st (VCrio l) (S l) Hs ltac:(simpl; lia)) as Hst.
  rewrite (thaw_cell st l c Hs Hl), Ht in *.
  eexists. split; [reflexivity|]. by rewrite Hcl.
Qed.

Lemma set_then_thaw_core `{Utils} st l c v :
  hash_collision_free → wf_store st → st !! l = Some c →
  closed (length st) v →
  (c_type c = CrioArrayT →
   ∀ i, i ≤ c_length c →
        ∃ r st' ts,
          CrioArray_set (VCrio l) (VNum (Z.of_nat i)) v st = (Ok r, st')
          ∧ wf_store st' ∧ is_Some (instance st' r)
          ∧ thaw st (VCrio l) = VArr ts
          ∧ length ts = c_length c
          ∧ thaw st' r
            = VArr (take i ts ++ strip (content st v) :: drop (S i) ts))
  ∧ (c_type c = CrioObjectT →
     ∀ k, is_native (to_key st k) = false →
          ∃ r st' fs,
            CrioObject_set (VCrio l) k v st = (Ok r, st')
            ∧ wf_store st' ∧ is_Some (instance st' r)
            ∧ thaw st (VCrio l) = VObj fs
            ∧ thaw st' r
              = VObj (field_set (to_key st k) (strip (content st v)) fs)).
Proof.
  intros Hinj Hwf Hl Hclv. pose proof (proj1 Hwf) as Hs.
  assert (instance st (VCrio l) = Some c) as Hc by done.
  split.
  - intros Ht i Hi.
    rewrite (CrioArray_set_candidate (VCrio l) c i v st Hc Hi).
    set (clone := array_like st (VCrio l)).
    destruct (gate_thaw st l c
                (VArr (take i clone ++ v :: drop (S i) clone)) CrioArrayT
                Hinj Hwf Hl) as (r & st' & Hrun & _ & Hwf' & _ & Hir & Hth).
    { pose proof (array_like_slot_ok st (VCrio l) c Hs Hc) as Hclone.
      fold clone in Hclone. cbn [closed]. apply forallb_True.
      apply Forall_app. split; [|constructor; [done|]].
      - apply Forall_take. eapply List.Forall_impl; [|exact Hclone].
        apply slot_ok_closed.
      - apply Forall_drop. eapply List.Forall_impl; [|exact Hclone].
        apply slot_ok_closed. }
    { by eexists. }
    destruct (thaw_array_items st l c Hs Hl Ht) as (ts & Hts & Hmap & Hlen).
    exists r, st', ts. split; [done|]. split; [done|]. split; [done|].
    split; [done|]. split; [done|].
    rewrite Hth. cbn [content strip]. f_equal. rewrite map_map.
    rewrite map_app. cbn [map]. fold clone in Hmap.
    rewrite <- Hmap. change (map ?f ?x) with (f <$> x).
    by rewrite fmap_take, fmap_drop.
  - intros Ht k Hk. unfold CrioObject_set. cbn [raw_set].
    destruct (gate_thaw st l c
                (VObj (field_set (to_key st k) v (own_enumerable st (VCrio l))))
                CrioObjectT Hinj Hwf Hl)
      as (r & st' & Hrun & _ & Hwf' & _ & Hir & Hth).
    { apply closed_field_set; [|done]. by apply (own_enumerable_closed st l c). }
    { by eexists. }
    destruct (thaw_object_fields st l c Hs Hl Ht) as (fs & Hfs & Hstrip).
    exists r, st', fs. split; [done|]. split; [done|]. split; [done|].
    split; [done|].
    rewrite Hth. cbn [content strip] in *. f_equal.
    rewrite content_field_set, (strip_field_set _ _ _ Hk).
    by inversion Hstrip.
Qed.

(** X13.  [set], then [thaw].  Let the hash have no collision, in a
    well-formed store whose collections have plain names, and let [v] have
    plain names and hold only collections of the store.  Thawing what
    [set(i, v)] returns on an indexed collection, [i] at most the length,
    gives the thawed receiver with the content of [v], without native names,
    at index [i].  Thawing what [set(k, v)] returns on a keyed collection, for
    a primitive key that is neither a native name nor [__proto__] nor the
    name of a member, and that is already a key of the receiver or spells no
    array index, gives the thawed receiver with that content at [k], in the
    place [k] had or else last. *)
Theorem set_then_thaw `{Utils} :
  hash_collision_free →
  ∀ (st : store) (this : value) (c : frozen) (v : value),
    wf_store st → plain_store st → instance st this = Some c →
    closed (length st) v → plain_names v →
    (c_type c = CrioArrayT →
     ∀ i, i ≤ c_length c →
          ∃ r st' ts,
            CrioArray_set this (VNum (Z.of_nat i)) v st = (Ok r, st')
            ∧ thaw_method this st = (Ok (VArr ts), st)
            ∧ thaw_method r st'
              = (Ok (VArr (take i ts ++ strip (content st v) :: drop (S i) ts)),
                 st'))
    ∧ (c_type c = CrioObjectT →
       ∀ k, primitive k = true → is_native (to_key st k) = false →
            plain_key (to_key st k) = true →
            is_name (to_key st k) = true
            ∨ is_Some (field_lookup (to_key st k) (c_slots c)) →
            ∃ r st' fs,
              CrioObject_set this k v st = (Ok r, st')
              ∧ thaw_method this st = (Ok (VObj fs), st)
              ∧ thaw_method r st'
                = (Ok (VObj (field_set (to_key st k) (strip (content st v)) fs)),
                   st')).
Proof.
  intros Hinj st this c v Hwf Hps Hc Hclv Hpv.
  destruct (instance_not_null st this c Hc) as (l & -> & Hl).
  destruct (set_then_thaw_core st l c v Hinj Hwf Hl Hclv) as [Harr Hobj].
  destruct (receiver_thaws st (VCrio l) c (proj1 Hwf) Hps Hc) as [Hthis Hpt].
  pose proof (normal_plain_names st v (proj1 Hwf) Hps Hclv Hpv) as Hpn.
  split.
  - intros Ht i Hi.
    destruct (Harr Ht i Hi) as (r & st' & ts & Hrun & Hwf' & Hir & Hts & _ & Hth).
    exists r, st', ts. split; [done|]. rewrite Hts in Hthis, Hpt.
    split; [done|]. apply thaws_to; [apply Hwf'|done|done|].
    apply plain_names_array in Hpt. apply plain_names_array.
    apply Forall_app. split; [by apply Forall_take|].
    constructor; [done|by apply Forall_drop].
  - intros Ht k _ Hk Hpk _.
    destruct (Hobj Ht k Hk) as (r & st' & fs & Hrun & Hwf' & Hir & Hfs & Hth).
    exists r, st', fs. split; [done|]. rewrite Hfs in Hthis, Hpt.
    split; [done|]. apply thaws_to; [apply Hwf'|done|done|].
    by apply plain_names_field_set.
Qed.

(** [crio([1, 2, 3]).set(1, {a: 1}).thaw()] is [[1, {a: 1}, 3]]. *)
Lemma set_then_thaw_witness :
  ∃ r st' ts,
    CrioArray_set (H := tree_utils) (VCrio 0) (VNum 1) object_a1 store_123
    = (Ok r, st')
    ∧ thaw_method (VCrio 0) store_123 = (Ok (VArr ts), store_123)
    ∧ thaw_method r st'
      = (Ok (VArr (take 1 ts ++ strip (content store_123 object_a1)
                     :: drop 2 ts)), st').
Proof.
  refine (proj1 (set_then_thaw (H := tree_utils) tree_hash_collision_free
                   store_123 (VCrio 0) _ object_a1
                   (crio_wf (H := tree_utils) array_123 [] wf_store_nil I)
                   _ eq_refl _ I) eq_refl 1 _).
  - repeat constructor.
  - vm_compute. exact I.
  - vm_compute. lia.
Defined.

(** ** Native names are never stored *)

Lemma forEach_app {A B} (fn : A → store → B * store) (l1 l2 : list A) st :
  forEach fn (l1 ++ l2) st
  = (let '(r1, st1) := forEach fn l1 st in
     let '(r2, st2) := forEach fn l2 st1 in
     (r1 ++ r2, st2)).
Proof.
  revert st. induction l1 as [|x r IH]; intros st; cbn [forEach app].
  - by destruct (forEach fn l2 st).
  - destruct (fn x st) as [b st1]. rewrite IH.
    destruct (forEach fn r st1) as [bs st2].
    by destruct (forEach fn l2 st2).
Qed.

Section native_names.
Context `{Utils}.

Lemma forEach_field_fn_flat (fs : list (key * value)) st :
  Forall (λ kv, is_raw kv.2 = false) fs →
  Forall (λ kv, is_native kv.1 = false) fs →
  forEach field_fn fs st = (map Some fs, st).
Proof.
  intros Hraw Hnat. induction fs as [|[k x] r IH]; [done|].
  inversion Hraw; subst. inversion Hnat; subst. cbn [fst snd] in *.
  cbn [forEach]. unfold field_fn at 1. cbn [fst snd].
  match goal with E : is_native k = false |- _ => rewrite E end.
  rewrite getRealValue_not_raw by done. by rewrite IH.
Qed.

Lemma omap_id_Some {A} (l : list A) : omap id (map Some l) = l.
Proof. induction l as [|a r IH]; [done|]. cbn. by rewrite IH. Qed.

Lemma cell_slots_flat l c :
  cell_ok l c → Forall (λ kv, is_raw kv.2 = false) (c_slots c).
Proof.
  intros Hok. eapply List.Forall_impl; [|exact (ok_slots _ _ Hok)].
  intros [k x]. apply slot_ok_not_raw.
Qed.

(** [new CrioObject(clone)] for the clone of a collection with one native
    name written to it: the write is dropped, and the cell made has the
    slots of the collection. *)
Lemma CrioObject_new_native l c k v st :
  cell_ok l c → is_native k = true →
  CrioObject_new (VObj (field_set k v (c_slots c))) st
  = (Ok (VCrio (length st)),
     st ++ [{| c_type := CrioObjectT;
               c_hashCode := hash st (VObj (field_set k v (c_slots c)));
               c_length := length (c_slots c);
               c_slots := c_slots c |}]).
Proof.
  intros Hok Hk. unfold CrioObject_new. cbn [getRealValue].
  change (forEach _ ?fs st) with (forEach field_fn fs st).
  rewrite (field_set_new k v (c_slots c))
    by (by apply (field_lookup_native _ _ (ok_native _ _ Hok))).
  rewrite forEach_app.
  rewrite (forEach_field_fn_flat (c_slots c) st (cell_slots_flat l c Hok)
             (ok_native _ _ Hok)).
  cbn [forEach]. unfold field_fn. cbn [fst snd]. rewrite Hk.
  unfold alloc. rewrite omap_app, omap_id_Some. cbn [omap list_omap id].
  by rewrite app_nil_r.
Qed.
End native_names.

(** X14.  Writing a native name.  On a keyed collection of a store that
    respects I3, [set(k, v)] with [k] one of [$$hashCode], [$$type] and
    [length] returns a collection with the receiver's slots and the receiver's
    [length]: every property but [$$hashCode] reads as it reads in the
    receiver, and the collection thaws to what the receiver thaws to.  The
    value [v] is stored nowhere. *)
Theorem CrioObject_set_native_name `{Utils} :
  ∀ (st : store) (this : value) (c : frozen) (k v : value)
    (r : value) (st' : store),
    shape_ok st → instance st this = Some c → c_type c = CrioObjectT →
    is_native (to_key st k) = true →
    CrioObject_set this k v st = (Ok r, st') →
    shape_ok st'
    ∧ own_enumerable st' r = own_enumerable st this
    ∧ (∀ k', k' ≠ KStr "$$hashCode" →
             get_prop st' r k' = get_prop st this k')
    ∧ thaw st' r = thaw st this.
Proof.
  intros st this c k v r st' Hs Hc Ht Hk Hrun.
  destruct (instance_not_null st this c Hc) as (l & -> & Hl).
  pose proof (Hs _ _ Hl) as Hok.
  unfold CrioObject_set in Hrun. cbn [raw_set own_enumerable] in Hrun.
  rewrite Hl in Hrun.
  rewrite (gate_decides st l c _ _ Hl Hok) in Hrun.
  destruct (decide _) as [Heq|Hne] in Hrun.
  { by inversion Hrun; subst. }
  cbn [construct] in Hrun.
  rewrite (CrioObject_new_native l c _ v st Hok Hk) in Hrun.
  inversion Hrun; subst r st'. clear Hrun.
  set (c' := {| c_type := CrioObjectT; c_hashCode := _;
                c_length := length (c_slots c); c_slots := c_slots c |}).
  assert (cell_ok (length st) c') as Hok'.
  { pose proof (lookup_lt_Some _ _ _ Hl) as Hlt.
    constructor; cbn [c_slots c_length c_type c']; try apply Hok; try done.
    eapply List.Forall_impl; [|exact (ok_slots _ _ Hok)].
    intros kv. apply slot_ok_mono. lia. }
  assert (shape_ok (st ++ [c'])) as Hs' by (by apply shape_ok_snoc).
  assert ((st ++ [c']) !! length st = Some c') as Hl'
      by (by rewrite list_lookup_middle).
  split; [done|]. split; [|split].
  - cbn [own_enumerable]. by rewrite Hl', Hl.
  - intros k' Hk'. cbn [get_prop]. rewrite Hl', Hl. unfold crio_prop.
    cbn [c_slots c_length c_type c']. rewrite Ht, (ok_length _ _ Hok).
    destruct (field_lookup k' (c_slots c)); [done|].
    destruct (decide (k' = KStr "length")); [done|].
    destruct (decide (k' = KStr "$$hashCode")); [by destruct Hk'|done].
  - rewrite (thaw_cell _ _ c' Hs' Hl'), (thaw_cell st l c Hs Hl), Ht.
    cbn [c_type c_slots c']. f_equal. apply map_ext_in. intros [k0 x] Hin.
    cbn [fst snd]. f_equal. apply thaw_stable; [done|by apply prefix_app_r|].
    pose proof (ok_slots _ _ Hok) as Hsl. rewrite List.Forall_forall in Hsl.
    eapply slot_ok_mono; [|exact (Hsl (k0, x) Hin)].
    apply lookup_lt_Some in Hl. lia.
Qed.

(** [crio({a: 1}).set('length', 5)] still has length 1. *)
Lemma CrioObject_set_native_name_witness :
  get_prop (CrioObject_set (H := tree_utils)
              (VCrio 0) (VStr "length") (VNum 5) store_a1).2
           (VCrio 1) (KStr "length")
  = get_prop store_a1 (VCrio 0) (KStr "length").
Proof.
  refine (proj1 (proj2 (proj2
            (CrioObject_set_native_name (H := tree_utils)
               store_a1 (VCrio 0) _ (VStr "length") (VNum 5) (VCrio 1) _
               (proj1 (crio_wf (H := tree_utils) object_a1 []
                         wf_store_nil I))
               eq_refl eq_refl eq_refl eq_refl))) (KStr "length") _).
  discriminate.
Defined.

(** ** Key paths *)




(** ** [setIn] through a slot that holds no collection *)

Lemma thaw_primitive_slot st st' l c p :
  shape_ok st → st !! l = Some c → c_type c = CrioObjectT →
  (∀ l', field_lookup p (c_slots c) ≠ Some (VCrio l')) →
  ∃ fs x, thaw st (VCrio l) = VObj fs
          ∧ get_prop st' (VObj fs) p = Ok x
          ∧ isArray st' x = false ∧ isObject st' x = false.
Proof.
  intros Hs Hl Ht Hno. pose proof (Hs _ _ Hl) as Hok.
  rewrite (thaw_cell st l c Hs Hl), Ht. eexists _, _. split; [reflexivity|].
  cbn [get_prop]. rewrite (field_lookup_fmap_values (thaw st)).
  split; [reflexivity|].
  destruct (field_lookup p (c_slots c)) as [y|] eqn:Hy; [|done].
  pose proof (field_lookup_Some_Forall _ _ _ _ (ok_slots _ _ Hok) Hy) as Hsl.
  cbn [snd] in Hsl.
  destruct y as [| | | | | | |l']; try done; try (by destruct (Hno l'));
    cbn [fmap option_fmap option_map default from_option id];
    by rewrite thaw_plain.
Qed.

(** X16.  [setIn] makes the objects that are missing.  Let the hash have no
    collision, in a well-formed store whose collections have plain names, and
    let [v] have plain names and hold only collections of the store.  On a
    keyed collection, when the slot at [k0] holds a primitive, or is absent
    and [k0] spells no array index, [setIn([k0, k1], v)], for primitive keys
    that are neither native names nor [__proto__] nor names of members, puts
    there a new object whose only property is [k1], holding [v]: the result
    thaws to the thawed receiver with [{k1: v}] at [k0], the content of [v]
    taken without native names.  What the slot held is dropped. *)
Theorem setIn_makes_missing_objects `{Utils} :
  hash_collision_free →
  ∀ (st : store) (this : value) (c : frozen) (k0 k1 v : value),
    wf_store st → plain_store st →
    instance st this = Some c → c_type c = CrioObjectT →
    primitive k0 = true → primitive k1 = true →
    is_native (to_key st k0) = false → is_native (to_key st k1) = false →
    plain_key (to_key st k0) = true → plain_key (to_key st k1) = true →
    (∀ l', field_lookup (to_key st k0) (c_slots c) ≠ Some (VCrio l')) →
    is_name (to_key st k0) = true
    ∨ is_Some (field_lookup (to_key st k0) (c_slots c)) →
    closed (length st) v → plain_names v →
    ∃ r st' fs,
      CrioObject_setIn this (VArr [k0; k1]) v st = (Ok r, st')
      ∧ thaw_method this st = (Ok (VObj fs), st)
      ∧ thaw_method r st'
        = (Ok (VObj (field_set (to_key st k0)
                       (VObj [(to_key st k1, strip (content st v))]) fs)),
           st').
Proof.
  intros Hinj st this c k0 k1 v Hwf Hps Hc Ht _ _ Hn0 Hn1 Hpk0 Hpk1 Hno _
         Hclv Hpv.
  pose proof (proj1 Hwf) as Hs.
  destruct (receiver_thaws st this c Hs Hps Hc) as [Hthis Hpt].
  pose proof (normal_plain_names st v Hs Hps Hclv Hpv) as Hpn.
  destruct (instance_not_null st this c Hc) as (l & -> & Hl).
  destruct (thaw_primitive_slot st st l c (to_key st k0) Hs Hl Ht Hno)
    as (fs & x & Hfs & Hget & Hxa & Hxo).
  set (p0 := to_key st k0) in *. set (p1 := to_key st k1) in *.
  assert (deepAssign [p0; p1] v false (VObj fs) st
          = (Ok (VObj (field_set p0 (VObj [(p1, v)]) fs)), st)) as Hdeep.
  { change (deepAssign [p0; p1] v false (VObj fs) st)
      with (match get_prop st (VObj fs) p0 with
            | Throw e => (Throw e, st)
            | Ok currentValue =>
                let vivify := negb (isArray st currentValue)
                              && negb (isObject st currentValue) in
                match (if vivify then raw_set (VObj fs) p0 (VObj [])
                       else Ok (VObj fs)) with
                | Throw e => (Throw e, st)
                | Ok currentObject1 =>
                    let slot := if vivify then VObj [] else currentValue in
                    (let* child := deepAssign [p1] v false slot in
                     lift (raw_set currentObject1 p0 child)) st
                end
            end).
    rewrite Hget. cbn zeta. rewrite Hxa, Hxo. cbn [negb andb raw_set].
    unfold bind.
    assert (deepAssign [p1] v false (VObj []) st = (Ok (VObj [(p1, v)]), st))
      as ->.
    { cbn. by rewrite decide_True. }
    unfold lift. cbn [raw_set]. by rewrite field_set_twice. }
  destruct (gate_thaw st l c (VObj (field_set p0 (VObj [(p1, v)]) fs))
              CrioObjectT Hinj Hwf Hl)
    as (r & st' & Hrun & _ & Hwf' & _ & Hir & Hth).
  { apply closed_field_set.
    - rewrite <- Hfs. apply (thaw_closed _ _ _ (S l)); [done|simpl; lia].
    - cbn [closed forallb fst snd]. rewrite andb_True. split.
      + by rewrite andb_True.
      + apply bool_decide_pack. apply list.NoDup_singleton. }
  { by eexists. }
  rewrite Hfs in Hthis, Hpt.
  exists r, st', fs. split; [|split; [done|]].
  - unfold CrioObject_setIn, assignOnDeepMatch.
    cbn [isArray negb instance array_like map]. rewrite Hl, Ht.
    rewrite bool_decide_eq_false_2 by done. fold p0 p1.
    unfold bind at 1. rewrite Hthis.
    unfold bind. by rewrite Hdeep.
  - apply thaws_to; [apply Hwf'|done| |].
    + rewrite Hth. cbn [content strip]. f_equal.
      rewrite content_field_set, (strip_field_set _ _ _ Hn0). f_equal.
      * cbn [content strip map omap list_omap fst snd]. by rewrite Hn1.
      * pose proof (content_thaw st st (VCrio l) (S l) Hs ltac:(simpl; lia))
          as E1.
        pose proof (strip_thaw st (VCrio l) (S l) Hs ltac:(simpl; lia)) as E2.
        rewrite Hfs in E1, E2. cbn [content] in E1. injection E1 as E1.
        rewrite E1. cbn [strip] in E2. by injection E2.
    + apply plain_names_field_set; [done| |done].
      cbn [plain_names forallb fst snd]. fold p1. by rewrite Hpk1, Hpn.
Qed.

(** [crio({a: 1}).setIn(['a', 'b'], 2)]: the number at [a] gives way to
    [{b: 2}]. *)
Lemma setIn_makes_missing_objects_witness :
  ∃ r st' fs,
    CrioObject_setIn (H := tree_utils) (VCrio 0) (VArr [VStr "a"; VStr "b"])
                     (VNum 2) store_a1 = (Ok r, st')
    ∧ thaw_method (VCrio 0) store_a1 = (Ok (VObj fs), store_a1)
    ∧ thaw_method r st'
      = (Ok (VObj (field_set (KStr "a") (VObj [(KStr "b", VNum 2)]) fs)), st').
Proof.
  refine (setIn_makes_missing_objects (H := tree_utils)
            tree_hash_collision_free store_a1 (VCrio 0) _
            (VStr "a") (VStr "b") (VNum 2)
            (crio_wf (H := tree_utils) object_a1 [] wf_store_nil I) _
            eq_refl eq_refl eq_refl eq_refl eq_refl eq_refl eq_refl eq_refl
            _ (or_introl eq_refl) I I).
  - repeat constructor.
  - intros l'. vm_compute. discriminate.
Defined.

(** ** [mutate] and the folds *)

Section changed.
Context `{Utils}.

(** The tail shared by [mutate], [reduce] and [reduceRight]: the receiver
    when the hash of the result is its hash code, the result normalised
    otherwise. *)
Lemma changed_or_receiver st l c result :
  hash_collision_free → wf_store st → st !! l = Some c →
  closed (length st) result →
  ∃ r st',
    (if hasChanged st (VCrio l) result
     then let '(r, st') := getRealValue result st in (Ok r, st')
     else (Ok (VCrio l), st)) = (Ok r, st')
    ∧ st `prefix_of` st' ∧ wf_store st'
    ∧ thaw st' r = strip (content st result)
    ∧ (primitive result = true → r = result ∧ st' = st)
    ∧ (primitive result = false → is_Some (instance st' r)).
Proof.
  intros Hinj Hwf Hl Hcl. pose proof (proj1 Hwf) as Hs.
  pose proof (Hs _ _ Hl) as Hok.
  rewrite (hasChanged_instance st l c result Hl Hok).
  destruct (c_hashCode c =? hash st result)%Z eqn:Hh; cbn [negb].
  - apply Z.eqb_eq in Hh.
    destruct (proj2 Hwf _ _ Hl) as (st0 & raw & Hh0 & Hth0).
    rewrite Hh0 in Hh. apply Hinj in Hh.
    exists (VCrio l), st. split; [done|]. split; [done|]. split; [done|].
    split; [by rewrite <- Hh|]. split; [|by (intros _; simpl; rewrite Hl)].
    intros Hprim. pose proof (thaw_crio_raw st l c Hs Hl) as Hraw.
    rewrite Hth0, Hh, (strip_content_primitive st result Hprim) in Hraw.
    by destruct result.
  - destruct (getRealValue result st) as [r st'] eqn:Hrun.
    destruct (getRealValue_spec result st r st' Hwf Hcl Hrun)
      as (Hp & Hwf' & _ & Hth).
    exists r, st'. split; [done|]. split; [done|]. split; [done|].
    split; [done|]. split.
    + intros Hprim.
      rewrite (getRealValue_primitive result st Hprim) in Hrun.
      by inversion Hrun.
    + intros Hprim. destruct result as [| | | | |items|fields|l2]; try done.
      * destruct (getRealValue_raw_result (VArr items) _ _ _ eq_refl Hrun)
          as (l' & -> & Hl').
        simpl. apply lookup_lt_is_Some_2. lia.
      * destruct (getRealValue_raw_result (VObj fields) _ _ _ eq_refl Hrun)
          as (l' & -> & Hl').
        simpl. apply lookup_lt_is_Some_2. lia.
      * cbn [getRealValue] in Hrun. inversion Hrun; subst.
        cbn [closed] in Hcl. apply bool_decide_unpack in Hcl.
        simpl. by apply lookup_lt_is_Some_2.
Qed.
End changed.

(** X17.  [mutate] returns what the callback made.  Let the hash have no
    collision, in a well-formed store whose collections have plain names.
    The callback is handed the thawed collection, which [thaw()] returns
    without throwing, and its [this] is the collection unless a [thisArg] is
    given.  Whatever it returns, as long as that has plain names and holds
    only collections of the store, [mutate], of either class, returns the
    result itself, allocating nothing, when it is a primitive, and otherwise
    a collection that thaws to the content of the result without native
    names. *)
Theorem mutate_returns_result `{Utils} :
  hash_collision_free →
  ∀ (st : store) (this : value) (c : frozen)
    (fn : value → value → value → value) (thisArg : value),
    wf_store st → plain_store st → instance st this = Some c →
    let result := fn (or_this this thisArg) (thaw st this) this in
    closed (length st) result → plain_names result →
    ∃ r st',
      thaw_method this st = (Ok (thaw st this), st)
      ∧ CrioArray_mutate this fn thisArg st = (Ok r, st')
      ∧ CrioObject_mutate this fn thisArg st = (Ok r, st')
      ∧ st `prefix_of` st'
      ∧ (primitive result = true → r = result ∧ st' = st)
      ∧ (primitive result = false →
         thaw_method r st' = (Ok (strip (content st result)), st')).
Proof.
  intros Hinj st this c fn thisArg Hwf Hps Hc result Hcl Hpr.
  destruct (receiver_thaws st this c (proj1 Hwf) Hps Hc) as [Hthis _].
  destruct (instance_not_null st this c Hc) as (l & -> & Hl).
  destruct (changed_or_receiver st l c _ Hinj Hwf Hl Hcl)
    as (r & st' & Hrun & Hp & Hwf' & Hth & Hprim & Hinst).
  exists r, st'. unfold CrioArray_mutate, CrioObject_mutate, bind.
  rewrite Hthis. fold result. rewrite Hrun.
  do 4 (split; [done|]). split; [done|].
  intros Hnp. apply thaws_to; [apply Hwf'|by apply Hinst|done|].
  by apply normal_plain_names; [apply Hwf| | |].
Qed.

(** On [[1, 2, 3]], a callback that appends 4 to the thawed array. *)
Lemma mutate_returns_result_witness :
  ∃ r st',
    CrioArray_mutate (H := tree_utils) (VCrio 0)
      (λ _ thawed _, VArr (array_like [] thawed ++ [VNum 4])) VUndef store_123
    = (Ok r, st')
    ∧ thaw_method r st'
      = (Ok (VArr [VNum 1; VNum 2; VNum 3; VNum 4]), st').
Proof.
  destruct (mutate_returns_result (H := tree_utils) tree_hash_collision_free
              store_123 (VCrio 0) _
              (λ _ thawed _, VArr (array_like [] thawed ++ [VNum 4])) VUndef
              (crio_wf (H := tree_utils) array_123 [] wf_store_nil I)
              ltac:(repeat constructor)
              eq_refl ltac:(vm_compute; exact I) ltac:(vm_compute; exact I))
    as (r & st' & _ & Hrun & _ & _ & _ & Hth).
  exists r, st'. split; [exact Hrun|exact (Hth eq_refl)].
Defined.

(** X18.  [reduce] and [reduceRight] fold from the initial value.  Let the
    hash have no collision, in a well-formed store whose collections have
    plain names.  On an indexed collection, [reduce(fn, object)] folds the
    callback over the elements from the first with [object] as the initial
    accumulator, [reduceRight] from the last, also when [object] is
    [undefined].  When the reduction has plain names and holds only
    collections of the store, each returns the reduction itself, allocating
    nothing, when it is a primitive, and otherwise a collection that thaws to
    its content without native names.  On an empty collection the reduction is
    [object], and nothing is thrown. *)
Theorem reduce_folds_from_initial `{Utils} :
  hash_collision_free →
  ∀ (st : store) (this : value) (c : frozen)
    (fn : value → value → nat → value → value) (object thisArg : value),
    wf_store st → plain_store st →
    instance st this = Some c → c_type c = CrioArrayT →
    let reduction :=
      fold_left (λ acc ix, fn acc ix.2 ix.1 this)
                (imap pair (array_like st this)) object in
    let reductionRight :=
      fold_right (λ ix acc, fn acc ix.2 ix.1 this) object
                 (imap pair (array_like st this)) in
    (closed (length st) reduction → plain_names reduction →
     ∃ r st',
       CrioArray_reduce this fn object thisArg st = (Ok r, st')
       ∧ (primitive reduction = true → r = reduction ∧ st' = st)
       ∧ (primitive reduction = false →
          thaw_method r st' = (Ok (strip (content st reduction)), st')))
    ∧ (closed (length st) reductionRight → plain_names reductionRight →
       ∃ r st',
         CrioArray_reduceRight this fn object thisArg st = (Ok r, st')
         ∧ (primitive reductionRight = true → r = reductionRight ∧ st' = st)
         ∧ (primitive reductionRight = false →
            thaw_method r st'
            = (Ok (strip (content st reductionRight)), st')))
    ∧ (c_length c = 0 → reduction = object ∧ reductionRight = object).
Proof.
  intros Hinj st this c fn object thisArg Hwf Hps Hc _ reduction reductionRight.
  destruct (instance_not_null st this c Hc) as (l & -> & Hl).
  split; [|split].
  - intros Hcl Hpn.
    destruct (changed_or_receiver st l c _ Hinj Hwf Hl Hcl)
      as (r & st' & Hrun & _ & Hwf' & Hth & Hprim & Hinst).
    exists r, st'. unfold CrioArray_reduce. fold reduction. rewrite Hrun.
    split; [done|]. split; [done|].
    intros Hnp. apply thaws_to; [apply Hwf'|by apply Hinst|done|].
    by apply normal_plain_names; [apply Hwf| | |].
  - intros Hcl Hpn.
    destruct (changed_or_receiver st l c _ Hinj Hwf Hl Hcl)
      as (r & st' & Hrun & _ & Hwf' & Hth & Hprim & Hinst).
    exists r, st'. unfold CrioArray_reduceRight. fold reductionRight.
    rewrite Hrun. split; [done|]. split; [done|].
    intros Hnp. apply thaws_to; [apply Hwf'|by apply Hinst|done|].
    by apply normal_plain_names; [apply Hwf| | |].
  - intros Hn. pose proof (array_like_length st (VCrio l) c Hc) as Hlen.
    rewrite Hn in Hlen. apply nil_length_inv in Hlen.
    unfold reduction, reductionRight. by rewrite Hlen.
Qed.

(** The sum of [[1, 2, 3]] from 0 is the number 6. *)
Lemma reduce_folds_from_initial_witness :
  CrioArray_reduce (H := tree_utils) (VCrio 0)
    (λ acc x _ _, VNum (to_integer acc + to_integer x)) (VNum 0) VUndef
    store_123
  = (Ok (VNum 6), store_123).
Proof.
  destruct (proj1 (reduce_folds_from_initial (H := tree_utils)
                     tree_hash_collision_free store_123 (VCrio 0) _
                     (λ acc x _ _, VNum (to_integer acc + to_integer x))
                     (VNum 0) VUndef
                     (crio_wf (H := tree_utils) array_123 [] wf_store_nil I)
                     ltac:(repeat constructor)
                     eq_refl eq_refl) I I)
    as (r & st' & Hrun & Hprim & _).
  destruct (Hprim eq_refl) as [-> ->]. exact Hrun.
Defined.

(** ** Calls that change nothing *)








(** ** [merge] *)

Lemma crio_prop_closed n l c k :
  cell_ok l c → l ≤ n → closed n (crio_prop c k).
Proof.
  intros Hok Hl. unfold crio_prop.
  destruct (field_lookup k (c_slots c)) as [x|] eqn:Hx.
  - apply slot_ok_closed. apply (slot_ok_mono l); [done|].
    apply (field_lookup_Some_Forall _ _ _ _ (ok_slots _ _ Hok) Hx).
  - repeat (destruct (decide _); [done|]). done.
Qed.

Lemma item_at_closed n (items : list value) i :
  forallb (closed n) items → closed n (item_at items i).
Proof.
  intros Hc. unfold item_at. destruct (items !! i) as [x|] eqn:Hx; [|done].
  apply forallb_True in Hc. rewrite List.Forall_forall in Hc.
  apply Hc. apply list_elem_of_In. by eapply list_elem_of_lookup_2.
Qed.

Lemma chars_closed n s : forallb (closed n) (chars s) = true.
Proof. induction s as [|a r IH]; [done|]. done. Qed.

Lemma get_prop_closed st o k a :
  shape_ok st → closed (length st) o → get_prop st o k = Ok a →
  closed (length st) a.
Proof.
  intros Hs Ho. destruct o; cbn [get_prop]; try (by intros [= <-]); try done.
  - destruct k as [i|n]; intros [= <-].
    + apply item_at_closed. by rewrite chars_closed.
    + by destruct (decide _).
  - destruct k as [i|n]; intros [= <-].
    + by apply item_at_closed.
    + by destruct (decide _).
  - intros [= <-]. cbn [closed] in Ho. apply andb_True in Ho as [Ho _].
    destruct (field_lookup k fields) as [x|] eqn:Hx; [|done].
    apply forallb_True in Ho.
    apply (field_lookup_Some_Forall _ _ _ _ Ho Hx).
  - destruct (st !! l) as [c|] eqn:Hl; intros [= <-]; [|done].
    apply (crio_prop_closed _ l); [by apply Hs|].
    apply lookup_lt_Some in Hl. lia.
Qed.

Lemma mapi_result_ok {A B} (f : nat → A → result B) (g : nat → A → B) l :
  (∀ i x, f i x = Ok (g i x)) →
  ∀ k, mapi_result f k l = Ok (imap (λ i, g (k + i)) l).
Proof.
  intros Hf. induction l as [|x r IH]; intros k; cbn [mapi_result imap];
    [done|].
  rewrite Hf, (IH (S k)), Nat.add_0_r. do 2 f_equal.
  apply imap_ext. intros i y _. simpl. f_equal. lia.
Qed.

(** What [object[i]] reads, for an [object] that is neither [undefined]
    nor [null]. *)
Lemma get_prop_total st object k :
  object ≠ VUndef → object ≠ VNull →
  ∃ a, get_prop st object k = Ok a.
Proof.
  intros Hu Hn. destruct object; try done; cbn [get_prop]; eauto.
  - destruct k; eauto.
  - destruct k; eauto.
  - destruct (st !! l); eauto.
Qed.

Lemma closed_imap n (f : nat → value → value) (items : list value) :
  (∀ i x, items !! i = Some x → closed n (f i x)) →
  forallb (closed n) (imap f items).
Proof.
  revert f. induction items as [|x r IH]; intros f Hf; cbn [imap forallb];
    [done|].
  apply andb_True. split; [by apply (Hf 0)|].
  apply IH. intros i y Hy. by apply (Hf (S i)).
Qed.

(** X20.  [merge] on an indexed collection goes by index.  Let the hash have
    no collision, in a well-formed store whose collections have plain names.
    [merge(object)], for an [object] that is neither [undefined] nor [null],
    has plain names and holds only collections of the store, returns a
    collection of the receiver's length: thawed, it holds at each index [i] of
    the receiver the content of [object[i]] when that is truthy, and the
    receiver's own element when it is falsy or missing.  Elements of [object]
    past the receiver's length are left out. *)
Theorem CrioArray_merge_by_index `{Utils} :
  hash_collision_free →
  ∀ (st : store) (this : value) (c : frozen) (object : value),
    wf_store st → plain_store st →
    instance st this = Some c → c_type c = CrioArrayT →
    closed (length st) object → plain_names object →
    object ≠ VUndef → object ≠ VNull →
    ∃ r st' ts,
      CrioArray_merge this [object] st = (Ok r, st')
      ∧ thaw_method this st = (Ok (VArr ts), st)
      ∧ length ts = c_length c
      ∧ thaw_method r st'
        = (Ok (VArr (imap (λ i t,
                             match get_prop st object (KIdx i) with
                             | Ok a =>
                                 if truthy a then strip (content st a) else t
                             | Throw _ => t
                             end) ts)), st').
Proof.
  intros Hinj st this c object Hwf Hps Hc Ht Hcl Hpo Hu Hn.
  pose proof (proj1 Hwf) as Hs. apply Is_true_true in Hpo.
  destruct (receiver_thaws st this c Hs Hps Hc) as [Hthis _].
  destruct (instance_not_null st this c Hc) as (l & -> & Hl).
  set (clone := array_like st (VCrio l)).
  set (pick := λ (i : nat) (x : value),
         match get_prop st object (KIdx i) with
         | Ok a => if truthy a then a else x
         | Throw _ => x
         end).
  assert (merge_each st [object] (VArr clone) = Ok (VArr (imap pick clone)))
    as Hmerge.
  { cbn [merge_each merge_one].
    rewrite (mapi_result_ok _ pick clone); [done|].
    intros i x. unfold pick.
    by destruct (get_prop_total st object (KIdx i) Hu Hn) as [a ->]. }
  destruct (gate_thaws st l c (VArr (imap pick clone)) CrioArrayT
              Hinj Hwf Hps Hl)
    as (r & st' & Hrun & _ & _ & _ & _ & Hth).
  { cbn [closed]. apply closed_imap. intros i x Hx. unfold pick.
    assert (Is_true (closed (length st) x)) as Hclx.
    { pose proof (array_like_slot_ok st (VCrio l) c Hs Hc) as Hok.
      rewrite List.Forall_forall in Hok. apply slot_ok_closed, Hok.
      apply list_elem_of_In. by eapply list_elem_of_lookup_2. }
    destruct (get_prop st object (KIdx i)) as [a|] eqn:Ha; [|done].
    destruct (truthy a); [|done].
    apply (get_prop_closed st object (KIdx i) a Hs Hcl Ha). }
  { apply plain_names_imap. intros i x Hx. unfold pick.
    assert (plain_names x = true) as Hpx.
    { apply (Forall_lookup_1 _ _ _ _
               (array_like_plain_names st (VCrio l) c Hs Hc) Hx). }
    destruct (get_prop st object (KIdx i)) as [a|] eqn:Ha; [|done].
    destruct (truthy a); [|done].
    by apply (get_prop_plain_names st object (KIdx i) a). }
  { by eexists. }
  destruct (thaw_array_items st l c Hs Hl Ht) as (ts & Hts & Hmap & Hlen).
  rewrite Hts in Hthis.
  exists r, st', ts. split; [|split; [done|split; [done|]]].
  - unfold CrioArray_merge. cbn [isCrio negb]. unfold shallowCloneArray.
    fold clone. by rewrite Hmerge.
  - rewrite Hth. do 2 f_equal. cbn [content strip]. f_equal. rewrite map_map.
    fold clone in Hmap. rewrite <- Hmap.
    change (map ?f ?x) with (f <$> x). rewrite fmap_imap, imap_fmap.
    apply imap_ext. intros i x _. unfold pick. cbn.
    destruct (get_prop st object (KIdx i)) as [a|]; [|done].
    by destruct (truthy a).
Qed.

(** [crio([1, 2, 3]).merge([0, 9, 8, 7])] thaws to [[1, 9, 8]]. *)
Lemma CrioArray_merge_by_index_witness :
  ∃ r st', CrioArray_merge (H := tree_utils) (VCrio 0)
             [VArr [VNum 0; VNum 9; VNum 8; VNum 7]] store_123 = (Ok r, st')
           ∧ thaw_method r st' = (Ok (VArr [VNum 1; VNum 9; VNum 8]), st').
Proof.
  destruct (CrioArray_merge_by_index (H := tree_utils)
              tree_hash_collision_free store_123 (VCrio 0) _
              (VArr [VNum 0; VNum 9; VNum 8; VNum 7])
              (crio_wf (H := tree_utils) array_123 [] wf_store_nil I)
              ltac:(repeat constructor)
              eq_refl eq_refl I I ltac:(discriminate) ltac:(discriminate))
    as (r & st' & ts & Hrun & Hts & _ & Hth).
  exists r, st'. split; [exact Hrun|].
  vm_compute in Hts. inversion Hts. subst ts. exact Hth.
Defined.

Lemma assign_props_fields (fs props : list (key * value)) :
  assign_props (VObj fs) props
  = Ok (VObj (fold_left (λ acc kv, field_set kv.1 kv.2 acc) props fs)).
Proof.
  revert fs. induction props as [|[k x] r IH]; intros fs; [done|].
  cbn [assign_props raw_set fold_left fst snd]. apply IH.
Qed.

Lemma assign_each_fields st (objects : list value) :
  ∀ fs,
    assign_each st objects (VObj fs)
    = Ok (VObj (fold_left (λ acc kv, field_set kv.1 kv.2 acc)
                          (objects ≫= own_enumerable st) fs)).
Proof.
  induction objects as [|o r IH]; intros fs; [done|].
  cbn [assign_each]. rewrite assign_props_fields, IH.
  cbn [mbind list_bind].
  change (list_bind _ _ ?f r) with (mbind (M := list) f r).
  by rewrite fold_left_app.
Qed.

Lemma strip_field_set_native k x (fs : list (key * value)) :
  is_native k = true →
  omap (λ kv, if is_native kv.1 then None else Some (kv.1, strip kv.2))
       (field_set k x fs)
  = omap (λ kv, if is_native kv.1 then None else Some (kv.1, strip kv.2)) fs.
Proof.
  intros Hk. induction fs as [|[k' w] r IH].
  - cbn [field_set omap list_omap fst snd]. by rewrite Hk.
  - cbn [field_set]. destruct (decide (k' = k)) as [->|Hne].
    + cbn [omap list_omap fst snd]. by rewrite Hk.
    + cbn [omap list_omap fst snd]. by rewrite IH.
Qed.

(** [Object.assign] on a clone, seen on content without native names. *)
Lemma strip_content_assign st (props : list (key * value)) :
  ∀ fs,
    strip (content st (VObj (fold_left (λ acc kv, field_set kv.1 kv.2 acc)
                                       props fs)))
    = match strip (content st (VObj fs)) with
      | VObj fs' =>
          VObj (fold_left
                  (λ acc kv, if is_native kv.1 then acc
                             else field_set kv.1 (strip (content st kv.2)) acc)
                  props fs')
      | other => other
      end.
Proof.
  induction props as [|[k x] r IH]; intros fs; [done|].
  cbn [fold_left fst snd]. rewrite IH. cbn [content strip]. f_equal.
  rewrite content_field_set. destruct (is_native k) eqn:Hk.
  - by rewrite strip_field_set_native.
  - by rewrite strip_field_set.
Qed.

Lemma own_enumerable_values_closed st o :
  shape_ok st → closed (length st) o →
  Forall (λ kv, closed (length st) kv.2) (own_enumerable st o).
Proof.
  intros Hs Ho. destruct o; cbn [own_enumerable]; try by constructor.
  - rewrite <- (Forall_fmap snd (λ x, Is_true (closed (length st) x))).
    change (index_slots (chars s)).*2 with ((index_slots (chars s)).*2).
    rewrite index_slots_values. apply forallb_True. by rewrite chars_closed.
  - rewrite <- (Forall_fmap snd (λ x, Is_true (closed (length st) x))).
    rewrite index_slots_values. by apply forallb_True.
  - cbn [closed] in Ho. apply andb_True in Ho as [Ho _].
    by apply forallb_True in Ho.
  - destruct (st !! l) as [c|] eqn:Hl; [|by constructor].
    eapply List.Forall_impl; [|exact (ok_slots _ _ (Hs _ _ Hl))].
    intros [k x] Hx. cbn [snd] in *. apply slot_ok_closed.
    eapply slot_ok_mono; [|exact Hx]. apply lookup_lt_Some in Hl. lia.
Qed.

Lemma closed_assign n (props : list (key * value)) :
  Forall (λ kv, closed n kv.2) props →
  ∀ fs, closed n (VObj fs) →
        closed n (VObj (fold_left (λ acc kv, field_set kv.1 kv.2 acc) props fs)).
Proof.
  induction 1 as [|[k x] r Hx _ IH]; intros fs Hfs; [done|].
  cbn [fold_left fst snd]. apply IH. by apply closed_field_set.
Qed.

Lemma Forall_bind_closed st (objects : list value) :
  shape_ok st → Forall (λ o, closed (length st) o) objects →
  Forall (λ kv, closed (length st) kv.2) (objects ≫= own_enumerable st).
Proof.
  intros Hs. induction 1 as [|o r Ho _ IH]; [constructor|].
  cbn [mbind list_bind]. apply Forall_app. split; [|exact IH].
  by apply own_enumerable_values_closed.
Qed.

Section merge_content.
Context `{Utils}.

End merge_content.

Lemma own_enumerable_plain st o :
  shape_ok st → plain_store st → plain_names o = true →
  plain_names (VObj (own_enumerable st o)) = true.
Proof.
  intros Hs Hp Ho. destruct o; cbn [own_enumerable]; try done.
  - cbn [plain_names]. apply List.forallb_forall. intros kv Hkv.
    unfold index_slots in Hkv. apply list_elem_of_In in Hkv.
    apply list_elem_of_lookup in Hkv as [i Hi].
    apply list_lookup_imap_Some in Hi as (x & Hx & ->). cbn [fst snd plain_key].
    assert (Forall (λ x, plain_names x = true) (chars s)) as Hch.
    { clear. induction s as [|a r IH]; cbn [chars]; by constructor. }
    by rewrite (Forall_lookup_1 _ _ _ _ Hch Hx).
  - cbn [plain_names] in *. rewrite List.forallb_forall in *. intros kv Hkv.
    unfold index_slots in Hkv. apply list_elem_of_In in Hkv.
    apply list_elem_of_lookup in Hkv as [i Hi].
    apply list_lookup_imap_Some in Hi as (x & Hx & ->). cbn [fst snd plain_key].
    apply Ho, list_elem_of_In. by eapply list_elem_of_lookup_2.
  - destruct (st !! l) as [c|] eqn:Hl; [|done].
    pose proof (own_enumerable_plain_names st l c Hs Hp Hl) as Hc.
    cbn [own_enumerable] in Hc. by rewrite Hl in Hc.
Qed.

Lemma plain_names_assign (props : list (key * value)) :
  plain_names (VObj props) = true →
  ∀ fs, plain_names (VObj fs) = true →
        plain_names (VObj (fold_left (λ acc kv, field_set kv.1 kv.2 acc)
                                     props fs)) = true.
Proof.
  induction props as [|[k x] r IH]; intros Hp fs Hfs; [done|].
  cbn [plain_names forallb fst snd] in Hp.
  apply andb_true_iff in Hp as [Hkx Hr]. apply andb_true_iff in Hkx as [Hk Hx].
  cbn [fold_left fst snd]. apply IH; [done|].
  by apply plain_names_field_set.
Qed.

Lemma plain_names_bind st (objects : list value) :
  shape_ok st → plain_store st →
  Forall (λ o, plain_names o) objects →
  plain_names (VObj (objects ≫= own_enumerable st)) = true.
Proof.
  intros Hs Hp. induction 1 as [|o r Ho _ IH]; [done|].
  cbn [mbind list_bind]. cbn [plain_names] in *. rewrite forallb_app.
  apply andb_true_iff. split; [|exact IH].
  apply Is_true_true in Ho. by apply (own_enumerable_plain st o Hs Hp).
Qed.

(** X21.  [merge] on a keyed collection assigns in order.  Let the hash have
    no collision, in a well-formed store whose collections have plain names,
    and let the objects have plain names and hold only collections of the
    store.  When every property of the objects is already a key of the
    receiver or has a name that spells no array index, [merge(...objects)]
    returns a collection that thaws to the thawed receiver after the own
    enumerable properties of the objects have been assigned to it one by one,
    in argument order and each object in its own key order, so a later value
    replaces an earlier one; from each value native names are left out, and a
    property of an object that is itself a native name is not assigned. *)
Theorem CrioObject_merge_assigns `{Utils} :
  hash_collision_free →
  ∀ (st : store) (this : value) (c : frozen) (objects : list value),
    wf_store st → plain_store st →
    instance st this = Some c → c_type c = CrioObjectT →
    Forall (λ o, closed (length st) o) objects →
    Forall (λ o, plain_names o) objects →
    Forall (λ kv, is_name kv.1 = true
                  ∨ is_Some (field_lookup kv.1 (c_slots c)))
           (objects ≫= own_enumerable st) →
    ∃ r st' fs,
      CrioObject_merge this objects st = (Ok r, st')
      ∧ thaw_method this st = (Ok (VObj fs), st)
      ∧ thaw_method r st'
        = (Ok (VObj (fold_left
                       (λ acc kv,
                          if is_native kv.1 then acc
                          else field_set kv.1 (strip (content st kv.2)) acc)
                       (objects ≫= own_enumerable st) fs)), st').
Proof.
  intros Hinj st this c objects Hwf Hps Hc Ht Hobjects Hplain _.
  pose proof (proj1 Hwf) as Hs.
  destruct (receiver_thaws st this c Hs Hps Hc) as [Hthis _].
  destruct (instance_not_null st this c Hc) as (l & -> & Hl).
  set (slots := own_enumerable st (VCrio l)).
  set (cand := VObj (fold_left (λ acc kv, field_set kv.1 kv.2 acc)
                               (objects ≫= own_enumerable st) slots)).
  destruct (gate_thaws st l c cand CrioObjectT Hinj Hwf Hps Hl)
    as (r & st' & Hrun & _ & _ & _ & _ & Hth).
  { apply closed_assign; [by apply Forall_bind_closed|].
    by apply (own_enumerable_closed st l c). }
  { apply plain_names_assign; [by apply plain_names_bind|].
    by apply (own_enumerable_plain_names st l c). }
  { by eexists. }
  destruct (thaw_object_fields st l c Hs Hl Ht) as (fs & Hfs & Hstrip).
  rewrite Hfs in Hthis.
  exists r, st', fs. split; [|split; [done|]].
  - unfold CrioObject_merge. cbn [isCrio negb]. fold slots.
    by rewrite assign_each_fields.
  - rewrite Hth. do 2 f_equal. unfold cand.
    rewrite strip_content_assign. fold slots in Hstrip. by rewrite Hstrip.
Qed.

(** [crio({a: 1}).merge({a: 2, b: 3}, {b: 4})] thaws to [{a: 2, b: 4}]. *)
Lemma CrioObject_merge_assigns_witness :
  ∃ r st',
    CrioObject_merge (H := tree_utils) (VCrio 0)
      [VObj [(KStr "a", VNum 2); (KStr "b", VNum 3)]; VObj [(KStr "b", VNum 4)]]
      store_a1 = (Ok r, st')
    ∧ thaw_method r st'
      = (Ok (VObj [(KStr "a", VNum 2); (KStr "b", VNum 4)]), st').
Proof.
  destruct (CrioObject_merge_assigns (H := tree_utils)
              tree_hash_collision_free store_a1 (VCrio 0) _
              [VObj [(KStr "a", VNum 2); (KStr "b", VNum 3)];
               VObj [(KStr "b", VNum 4)]]
              (crio_wf (H := tree_utils) object_a1 [] wf_store_nil I)
              ltac:(repeat constructor)
              eq_refl eq_refl
              ltac:(repeat constructor; vm_compute; exact I)
              ltac:(repeat constructor)
              ltac:(repeat constructor; left; reflexivity))
    as (r & st' & fs & Hrun & Hfs & Hth).
  exists r, st'. split; [exact Hrun|].
  vm_compute in Hfs. inversion Hfs. subst fs. exact Hth.
Defined.

(** ** The class of what a method returns *)

Section kinds.
Context `{Utils}.

Lemma construct_kind K cand st r st' :
  is_raw cand = true → construct K cand st = (Ok r, st') →
  ∃ l' c', r = VCrio l' ∧ st' !! l' = Some c' ∧ c_type c' = K.
Proof.
  intros Hraw Hrun. destruct K, cand; try done; cbn [construct] in Hrun.
  - unfold CrioArray_new in Hrun.
    destruct (getRealValue_array_fresh items st) as (st1 & c & E & _ & Ht & _).
    rewrite E in Hrun. inversion Hrun; subst.
    exists (length st1), c. by rewrite list_lookup_middle.
  - unfold CrioObject_new in Hrun.
    destruct (forEach getRealValue items st) as [items' st1].
    unfold alloc in Hrun. inversion Hrun; subst.
    eexists (length st1), _. by rewrite list_lookup_middle.
  - unfold CrioObject_new in Hrun.
    destruct (getRealValue_object_fresh fields st) as (st1 & c & E & _ & Ht & _).
    rewrite E in Hrun. inversion Hrun; subst.
    exists (length st1), c. by rewrite list_lookup_middle.
Qed.

Lemma gate_kind st l c cand K r st' :
  st !! l = Some c → c_type c = K → is_raw cand = true →
  returnCorrectObject (VCrio l) cand K st = (Ok r, st') →
  ∃ l' c', r = VCrio l' ∧ st' !! l' = Some c' ∧ c_type c' = K.
Proof.
  intros Hl Ht Hraw Hrun. unfold returnCorrectObject in Hrun.
  destruct (hasChanged st (VCrio l) cand).
  - by apply (construct_kind K cand st).
  - inversion Hrun; subst. by exists l, c.
Qed.
End kinds.





Lemma raw_set_raw o k x o' : raw_set o k x = Ok o' → is_raw o' = true.
Proof.
  destruct o; try done; cbn [raw_set].
  - destruct k as [i|n]; [by intros [= <-]|].
    destruct (decide (n = "length")); [|by intros [= <-]].
    destruct (to_number x) as [z|]; [|done].
    destruct (decide (0 ≤ z)%Z); [by intros [= <-]|done].
  - by intros [= <-].
Qed.

Lemma thaw_instance_raw st l c :
  st !! l = Some c → is_raw (thaw st (VCrio l)) = true.
Proof.
  intros Hl. unfold thaw. pose proof (lookup_lt_Some _ _ _ Hl) as Hlt.
  destruct (length st) as [|n] eqn:Hn; [lia|]. cbn [thaw_item].
  rewrite Hl. by destruct (c_type c).
Qed.

Section class_closure.
Context `{Utils}.

Lemma deepAssign_raw keys v isMerge :
  ∀ o st o' st',
    is_raw o = true → deepAssign keys v isMerge o st = (Ok o', st') →
    is_raw o' = true.
Proof.
  destruct keys as [|key rest]; intros o st o' st' Hraw Hrun.
  - cbn [deepAssign ret] in Hrun. by inversion Hrun; subst.
  - cbn [deepAssign] in Hrun.
    destruct (get_prop st o key) as [currentValue|]; [|done].
    set (vivify := negb (isArray st currentValue)
                   && negb (isObject st currentValue)) in Hrun.
    destruct (if vivify then raw_set o key (VObj []) else Ok o)
      as [o1|]; [|done].
    assert (∀ (m : M value) x st1,
              (let* x := m in lift (raw_set o1 key x)) st = (Ok x, st1) →
              is_raw x = true) as Hlast.
    { intros m x st1. unfold bind, lift.
      destruct (m st) as [[y|e] st2]; [|done].
      destruct (raw_set o1 key y) eqn:Hs; [|done].
      intros [= <- <-]. by eapply raw_set_raw. }
    destruct rest; by eapply Hlast.
Qed.

Lemma merge_each_raw st objects :
  ∀ clone clone', is_raw clone = true →
                  merge_each st objects clone = Ok clone' →
                  is_raw clone' = true.
Proof.
  induction objects as [|o r IH]; intros clone clone' Hraw; cbn [merge_each].
  - by intros [= <-].
  - destruct (merge_one st o clone) as [c1|] eqn:Hm; [|done].
    apply IH. unfold merge_one in Hm. destruct clone; try done.
    by destruct (mapi_result _ _ _); inversion Hm.
Qed.

Lemma assignOnDeepMatch_kind st l c keys v isMerge r st' :
  st !! l = Some c →
  assignOnDeepMatch (VCrio l) keys v isMerge st = (Ok r, st') →
  ∃ l' c', r = VCrio l' ∧ st' !! l' = Some c' ∧ c_type c' = c_type c.
Proof.
  intros Hl Hrun. unfold assignOnDeepMatch in Hrun.
  cbn [instance isArray] in Hrun. rewrite Hl in Hrun. unfold bind in Hrun.
  destruct (thaw_method (VCrio l) st) as [[t|e] st0] eqn:Hthaw; [|done].
  apply thaw_method_sound in Hthaw as [-> ->].
  pose proof (deepAssign_extends (map (to_key st) (array_like st keys)) v
                isMerge (thaw st (VCrio l)) st) as Hp.
  destruct (deepAssign _ v isMerge (thaw st (VCrio l)) st)
    as [[root|e] st1] eqn:Hdeep; [|done].
  simpl in Hp.
  pose proof (deepAssign_raw _ _ _ _ _ _ _ (thaw_instance_raw st l c Hl) Hdeep)
    as Hraw.
  assert ((if bool_decide (c_type c = CrioArrayT) then CrioArrayT
           else CrioObjectT) = c_type c) as HK by (by destruct (c_type c)).
  rewrite HK in Hrun.
  eapply (gate_kind st1 l c); [|reflexivity|exact Hraw|exact Hrun].
  by apply (prefix_lookup_Some st).
Qed.

Lemma CrioArray_new_kind items st r st' :
  CrioArray_new (VArr items) st = (Ok r, st') →
  ∃ l' c', r = VCrio l' ∧ st' !! l' = Some c' ∧ c_type c' = CrioArrayT.
Proof. by apply (construct_kind CrioArrayT (VArr items)). Qed.
End class_closure.

(** X23.  Every structural method returns a collection of its own class.
    Called on a collection of its class, each of [concat], [copyWithin],
    [fill], [filter], [map], [merge], [mergeIn], [pop], [push], [set],
    [setIn], [shift], [slice], [sort], [splice] and [unshift] of [CrioArray],
    and of [merge], [mergeIn], [set] and [setIn] of [CrioObject], either
    throws or returns a collection of the store, of the class of the
    receiver: never a plain array or object, never a primitive. *)
Theorem operations_return_their_class `{Utils} :
  ∀ (op : operation) (this : value) (st : store) (c : frozen)
    (r : value) (st' : store),
    instance st this = Some c → c_type c = operation_class op →
    perform op this st = (Ok r, st') →
    ∃ c', instance st' r = Some c' ∧ c_type c' = c_type c.
Proof.
  intros op this st c r st' Hc Ht Hrun.
  destruct (instance_not_null st this c Hc) as (l & -> & Hl).
  assert ((∃ l' c', r = VCrio l' ∧ st' !! l' = Some c' ∧ c_type c' = c_type c)
          → ∃ c', instance st' r = Some c' ∧ c_type c' = c_type c) as Hdone.
  { intros (l' & c' & -> & Hl' & Ht'). by exists c'. }
  assert (∀ items, CrioArray_new (VArr items) st = (Ok r, st') →
                   c_type c = CrioArrayT →
                   ∃ l' c', r = VCrio l' ∧ st' !! l' = Some c'
                            ∧ c_type c' = c_type c) as Hnew.
  { intros items Hn ->. by apply (CrioArray_new_kind items st). }
  assert (∀ cand, returnCorrectObject (VCrio l) cand (c_type c) st = (Ok r, st') →
                  is_raw cand = true →
                  ∃ l' c', r = VCrio l' ∧ st' !! l' = Some c'
                           ∧ c_type c' = c_type c) as Hgate.
  { intros cand Hg Hraw. by apply (gate_kind st l c cand (c_type c)). }
  assert (∃ l' c', VCrio l = VCrio l' ∧ st !! l' = Some c'
                   ∧ c_type c' = c_type c) as Hsame by (by exists l, c).
  apply Hdone.
  destruct op; cbn [perform operation_class] in Hrun, Ht.
  - destruct arrays as [|a arrays].
    + by injection Hrun as <- <-.
    + by eapply Hnew.
  - unfold CrioArray_copyWithin in Hrun. rewrite <- Ht in Hrun.
    by eapply Hgate.
  - unfold CrioArray_fill in Hrun. rewrite <- Ht in Hrun. by eapply Hgate.
  - unfold CrioArray_filter in Hrun. rewrite <- Ht in Hrun. by eapply Hgate.
  - unfold CrioArray_map in Hrun. rewrite <- Ht in Hrun. by eapply Hgate.
  - unfold CrioArray_merge in Hrun. cbn [isCrio negb] in Hrun.
    destruct (merge_each st objects _) as [clone'|] eqn:Hm; [|done].
    rewrite <- Ht in Hrun. eapply Hgate; [exact Hrun|].
    eapply (merge_each_raw st objects); [|exact Hm]. done.
  - unfold CrioArray_mergeIn in Hrun. destruct (negb _); [done|].
    destruct objects as [|o objects].
    + by injection Hrun as <- <-.
    + by eapply assignOnDeepMatch_kind.
  - unfold CrioArray_pop in Hrun. rewrite Hc in Hrun. by eapply Hnew.
  - by eapply Hnew.
  - unfold CrioArray_set in Hrun. rewrite Hc in Hrun.
    destruct (number_gt _ _); [done|].
    destruct (raw_set _ _ v) as [clone'|] eqn:Hs; [|done].
    rewrite <- Ht in Hrun. eapply Hgate; [exact Hrun|]. by eapply raw_set_raw.
  - unfold CrioArray_setIn in Hrun. destruct (negb _); [done|].
    by eapply assignOnDeepMatch_kind.
  - unfold CrioArray_shift in Hrun. rewrite Hc in Hrun. by eapply Hnew.
  - destruct args as [|a args].
    + by injection Hrun as <- <-.
    + by eapply Hnew.
  - unfold CrioArray_sort in Hrun. rewrite <- Ht in Hrun. by eapply Hgate.
  - unfold CrioArray_splice in Hrun. rewrite <- Ht in Hrun. by eapply Hgate.
  - destruct items as [|a items].
    + by injection Hrun as <- <-.
    + by eapply Hnew.
  - unfold CrioObject_merge in Hrun. cbn [isCrio negb] in Hrun.
    rewrite assign_each_fields in Hrun. rewrite <- Ht in Hrun. by eapply Hgate.
  - unfold CrioObject_mergeIn in Hrun. destruct (negb _); [done|].
    destruct objects as [|o objects].
    + by injection Hrun as <- <-.
    + by eapply assignOnDeepMatch_kind.
  - unfold CrioObject_set in Hrun. cbn [raw_set] in Hrun.
    rewrite <- Ht in Hrun. by eapply Hgate.
  - unfold CrioObject_setIn in Hrun. destruct (negb _); [done|].
    by eapply assignOnDeepMatch_kind.
Qed.

(** [crio([1, 2, 3]).set(1, 9)] is an indexed collection. *)
Lemma operations_return_their_class_witness :
  ∃ c', instance (perform (H := tree_utils) (ArraySet (VNum 1) (VNum 9))
                          (VCrio 0) store_123).2 (VCrio 1) = Some c'
        ∧ c_type c' = CrioArrayT.
Proof.
  exact (operations_return_their_class (H := tree_utils)
           (ArraySet (VNum 1) (VNum 9)) (VCrio 0) store_123 _ (VCrio 1) _
           eq_refl eq_refl eq_refl).
Defined.

(** ** Well-formed stores stay well formed *)

Lemma resize_closed n m (items : list value) :
  Forall (λ x, closed n x) items → Forall (λ x, closed n x) (resize m items).
Proof.
  intros Hc. unfold resize. apply Forall_app. split.
  - by apply Forall_take.
  - by apply Forall_replicate.
Qed.

Lemma closed_array n (items : list value) :
  closed n (VArr items) ↔ Forall (λ x, closed n x) items.
Proof. cbn [closed]. apply forallb_True. Qed.

Lemma raw_set_closed n o k x o' :
  closed n o → closed n x → raw_set o k x = Ok o' → closed n o'.
Proof.
  intros Ho Hx. destruct o; try done; cbn [raw_set].
  - apply closed_array in Ho. destruct k as [i|s].
    + intros [= <-]. apply closed_array. destruct (decide _).
      * by apply Forall_insert.
      * apply Forall_app. split; [by apply resize_closed|by constructor].
    + destruct (decide (s = "length")); [|intros [= <-]; by apply closed_array].
      destruct (to_number x) as [z|]; [|done].
      destruct (decide (0 ≤ z)%Z); [|done].
      intros [= <-]. by apply closed_array, resize_closed.
  - intros [= <-]. by apply closed_field_set.
Qed.

Lemma raw_set_same_kind o k x o' :
  raw_set o k x = Ok o' →
  ((∃ items, o = VArr items) → ∃ items', o' = VArr items')
  ∧ ((∃ fields, o = VObj fields) → ∃ fields', o' = VObj fields').
Proof.
  destruct o; try done; cbn [raw_set].
  - intros Hs. split; [intros _|by intros [? ?]].
    destruct k as [i|s]; [inversion Hs; by eexists|].
    destruct (decide (s = "length")); [|inversion Hs; by eexists].
    destruct (to_number x) as [z|]; [|done].
    destruct (decide (0 ≤ z)%Z); [inversion Hs; by eexists|done].
  - intros [= <-]. split; [by intros [? ?]|by eexists].
Qed.

Section well_formed.
Context `{Utils}.

Lemma deepAssign_plain keys v :
  ∀ o st, ∃ res, deepAssign keys v false o st = (res, st).
Proof.
  induction keys as [|key rest IH]; intros o st; [by eexists|].
  cbn [deepAssign].
  destruct (get_prop st o key) as [cv|]; [|by eexists].
  set (vivify := negb (isArray st cv) && negb (isObject st cv)).
  destruct (if vivify then raw_set o key (VObj []) else Ok o) as [o1|];
    [|by eexists].
  destruct rest as [|key' rest'].
  - unfold bind, ret, lift. by eexists.
  - unfold bind, lift.
    destruct (IH (if vivify then VObj [] else cv) st) as [res ->].
    destruct res; by eexists.
Qed.

Lemma deepAssign_closed keys v st :
  shape_ok st → closed (length st) v →
  ∀ o o' st',
    closed (length st) o → deepAssign keys v false o st = (Ok o', st') →
    closed (length st) o'
    ∧ ((∃ items, o = VArr items) → ∃ items', o' = VArr items')
    ∧ ((∃ fields, o = VObj fields) → ∃ fields', o' = VObj fields').
Proof.
  intros Hs Hv. induction keys as [|key rest IH]; intros o o' st' Ho Hrun.
  { cbn [deepAssign ret] in Hrun. by inversion Hrun; subst. }
  cbn [deepAssign] in Hrun.
  destruct (get_prop st o key) as [cv|] eqn:Hcv; [|done].
  pose proof (get_prop_closed st o key cv Hs Ho Hcv) as Hclcv.
  set (vivify := negb (isArray st cv) && negb (isObject st cv)) in Hrun.
  destruct (if vivify then raw_set o key (VObj []) else Ok o) as [o1|] eqn:Ho1;
    [|done].
  assert (Is_true (closed (length st) o1)
          ∧ ((∃ items, o = VArr items) → ∃ items', o1 = VArr items')
          ∧ ((∃ fields, o = VObj fields) → ∃ fields', o1 = VObj fields'))
    as (Hclo1 & Harr1 & Hobj1).
  { destruct vivify.
    - split; [by eapply (raw_set_closed _ o key (VObj []))|].
      by apply (raw_set_same_kind o key (VObj [])).
    - by inversion Ho1; subst. }
  assert (Is_true (closed (length st) (if vivify then VObj [] else cv)))
    as Hslot by (by destruct vivify).
  assert (∀ x, Is_true (closed (length st) x) →
               lift (raw_set o1 key x) st = (Ok o', st') →
               Is_true (closed (length st) o')
               ∧ ((∃ items, o = VArr items) → ∃ items', o' = VArr items')
               ∧ ((∃ fields, o = VObj fields) → ∃ fields', o' = VObj fields'))
    as Hlast.
  { intros x Hx. unfold lift. intros [= Hset _].
    split; [by eapply (raw_set_closed _ o1 key x)|].
    destruct (raw_set_same_kind o1 key x o' Hset) as [Ha Hb].
    split; [intros Hk; by apply Ha, Harr1|intros Hk; by apply Hb, Hobj1]. }
  destruct rest as [|key' rest'].
  - unfold bind, ret in Hrun. by apply (Hlast v).
  - unfold bind in Hrun.
    destruct (deepAssign_plain (key' :: rest') v
                (if vivify then VObj [] else cv) st) as [res Hres].
    rewrite Hres in Hrun. destruct res as [child|]; [|done].
    destruct (IH _ _ _ Hslot Hres) as (Hchild & _).
    by apply (Hlast child).
Qed.

Lemma gate_wf st l c cand K :
  wf_store st → st !! l = Some c → closed (length st) cand →
  match K with
  | CrioArrayT => ∃ items, cand = VArr items
  | CrioObjectT => ∃ fields, cand = VObj fields
  end →
  wf_store (returnCorrectObject (VCrio l) cand K st).2.
Proof.
  intros Hwf Hl Hcl HK. unfold returnCorrectObject.
  destruct (hasChanged st (VCrio l) cand); [|done].
  rewrite (construct_raw K cand st HK).
  destruct (getRealValue cand st) as [r st'] eqn:Hrun.
  by destruct (getRealValue_spec cand st r st' Hwf Hcl Hrun) as (_ & ? & _).
Qed.

Lemma CrioArray_new_wf items st :
  wf_store st → Forall (λ x, closed (length st) x) items →
  wf_store (CrioArray_new (VArr items) st).2.
Proof.
  intros Hwf Hcl. unfold CrioArray_new.
  destruct (getRealValue (VArr items) st) as [r st'] eqn:Hrun.
  destruct (getRealValue_spec (VArr items) st r st' Hwf) as (_ & ? & _); auto.
  by apply closed_array.
Qed.

Lemma array_like_closed st this c :
  shape_ok st → instance st this = Some c →
  Forall (λ x, closed (length st) x) (array_like st this).
Proof.
  intros Hs Hc. eapply List.Forall_impl; [|by apply (array_like_slot_ok st this c)].
  apply slot_ok_closed.
Qed.

Lemma merge_each_closed st objects :
  shape_ok st → Forall (λ x, closed (length st) x) objects →
  ∀ items clone',
    Forall (λ x, closed (length st) x) items →
    merge_each st objects (VArr items) = Ok clone' →
    ∃ items', clone' = VArr items'
              ∧ Forall (λ x, closed (length st) x) items'.
Proof.
  intros Hs. induction 1 as [|o r Ho _ IH]; intros items clone' Hitems;
    cbn [merge_each].
  - intros [= <-]. by exists items.
  - cbn [merge_one].
    destruct (mapi_result _ 0 items) as [items1|] eqn:Hm; [|done].
    apply IH. clear IH. revert items1 Hm. generalize 0.
    induction Hitems as [|x rest Hx _ IHr]; intros k items1; cbn [mapi_result].
    + intros [= <-]. constructor.
    + destruct (get_prop st o (KIdx k)) as [a|] eqn:Ha; [|done].
      destruct (mapi_result _ (S k) rest) as [rest1|] eqn:Hr; [|done].
      intros [= <-]. constructor; [|by apply (IHr (S k))].
      destruct (truthy a); [|done].
      by apply (get_prop_closed st o (KIdx k) a).
Qed.
End well_formed.

Lemma Forall_kept {A} (P : A → Prop) (keep : nat → A → bool) (l : list A) :
  Forall P l →
  Forall P (omap id (imap (λ i x, if keep i x then Some x else None) l)).
Proof.
  intros Hl. revert keep. induction Hl as [|x r Hx _ IH]; intros keep;
    cbn [imap omap list_omap]; [constructor|].
  destruct (keep 0 x); cbn [id].
  - constructor; [done|]. apply (IH (keep ∘ S)).
  - apply (IH (keep ∘ S)).
Qed.

Lemma concat_items_closed n (items arrays : list value) :
  Forall (λ x, closed n x) items → Forall (λ x, closed n x) arrays →
  Forall (λ x, closed n x) (concat_items items arrays).
Proof.
  intros Hi Ha. unfold concat_items. apply Forall_app. split; [done|].
  induction Ha as [|a r Hx _ IH]; [constructor|].
  cbn [mbind list_bind]. apply Forall_app. split; [|exact IH].
  destruct a; try (by constructor). by apply closed_array.
Qed.

(** X24.  Well-formed stores stay well formed.  A store is well formed when
    every slot of every collection holds a primitive or a collection made
    before it (I3), no collection has two slots of one key or a slot named
    [$$hashCode], [$$type] or [length], [length] counts the slots, an indexed
    collection has the keys 0 to [length - 1], and every hash code is the hash
    of a raw input the collection is the normal form of.  Take such a store
    whose slots have plain names: none is named as a member of the two classes
    or of [Object.prototype], [__proto__] among them.  Every structural method
    but [mergeIn], [copyWithin] and [sort] among them, called on a collection
    of its class with arguments closed in the store, all of plain names (the
    values handed over, what the callback of [map] returns, the key of [set]
    of a keyed collection and the keys of the path of [setIn]; the index of
    [set] of an indexed collection a number or a string that spells one), and
    [sort] leaving a permutation of the clone, leaves a well-formed store,
    whether it returns or throws. *)
Theorem operations_keep_store_well_formed `{Utils} :
  ∀ (op : operation) (this : value) (st : store) (c : frozen),
    wf_store st → plain_store st → instance st this = Some c →
    c_type c = operation_class op →
    closed_operation (length st) op →
    plain_operation st op →
    wf_store (perform op this st).2.
Proof.
  intros op this st c Hwf Hplain Hc Ht Hop _. pose proof (proj1 Hwf) as Hs.
  destruct (instance_not_null st this c Hc) as (l & -> & Hl).
  pose proof (array_like_closed st (VCrio l) c Hs Hc) as Hclone.
  assert (∀ items, Forall (λ x, Is_true (closed (length st) x)) items →
                   wf_store (returnCorrectObject (VCrio l) (VArr items)
                               CrioArrayT st).2) as Hgate.
  { intros items Hitems. apply (gate_wf st l c); auto.
    - by apply closed_array.
    - by eexists. }
  assert (∀ keys v,
            Is_true (closed (length st) v) →
            wf_store (assignOnDeepMatch (VCrio l) keys v false st).2) as Hdeep.
  { intros keys v Hv. unfold assignOnDeepMatch. unfold bind.
    rewrite (thaw_method_plain st (VCrio l) c Hs Hplain Hc).
    destruct (deepAssign_plain (map (to_key st) (array_like st keys)) v
                (thaw st (VCrio l)) st) as [res Hres].
    rewrite Hres. destruct res as [root|]; [|done].
    destruct (deepAssign_closed _ v st Hs Hv _ _ _
                (thaw_closed _ st (VCrio l) (S l) Hs ltac:(simpl; lia)) Hres)
      as (Hroot & Harr & Hobj).
    apply (gate_wf st l c); auto. cbn [isArray]. rewrite Hl.
    rewrite (thaw_cell st l c Hs Hl) in Harr, Hobj.
    destruct (c_type c).
    - rewrite bool_decide_eq_true_2 by done. apply Harr. by eexists.
    - rewrite bool_decide_eq_false_2 by done. apply Hobj. by eexists. }
  destruct op; cbn [perform closed_operation operation_class] in *.
  - destruct arrays as [|a arrays]; [done|]. unfold CrioArray_concat.
    apply CrioArray_new_wf; [done|]. by apply concat_items_closed.
  - unfold CrioArray_copyWithin. apply Hgate. unfold copyWithin_items.
    apply Forall_app. split; [by apply Forall_take|].
    apply Forall_app. split; [by apply Forall_take, Forall_drop|].
    by apply Forall_drop.
  - unfold CrioArray_fill. apply Hgate. unfold fill_items.
    apply closed_array, closed_imap. intros i y Hy.
    destruct (decide _).
    + destruct (args !! 0) as [x|] eqn:Hx; [|done].
      rewrite List.Forall_forall in Hop. apply Hop, list_elem_of_In.
      by eapply list_elem_of_lookup_2.
    + rewrite List.Forall_forall in Hclone. apply Hclone, list_elem_of_In.
      by eapply list_elem_of_lookup_2.
  - unfold CrioArray_filter. apply Hgate.
    by apply (Forall_kept _ (λ i x, truthy (fn x i (VCrio l)))).
  - unfold CrioArray_map. apply Hgate.
    apply closed_array, closed_imap. intros i y Hy. apply Hop.
    rewrite List.Forall_forall in Hclone. apply Hclone, list_elem_of_In.
    by eapply list_elem_of_lookup_2.
  - unfold CrioArray_merge. cbn [isCrio negb]. unfold shallowCloneArray.
    destruct (merge_each st objects (VArr (array_like st (VCrio l))))
      as [clone'|] eqn:Hm; [|done].
    destruct (merge_each_closed st objects Hs Hop _ clone' Hclone Hm)
      as (items' & -> & Hitems').
    by apply Hgate.
  - done.
  - unfold CrioArray_pop. rewrite Hc. unfold CrioArray_slice.
    apply CrioArray_new_wf; [done|]. unfold slice_items.
    by apply Forall_take, Forall_drop.
  - rewrite CrioArray_push_new. apply CrioArray_new_wf; [done|].
    by apply Forall_app.
  - unfold CrioArray_set. rewrite Hc. destruct (number_gt _ _); [done|].
    unfold shallowCloneArray.
    destruct (raw_set (VArr (array_like st (VCrio l))) _ v)
      as [clone'|] eqn:Hset; [|done].
    destruct (proj1 (raw_set_same_kind _ _ _ _ Hset)) as [items' ->];
      [by eexists|].
    apply Hgate, closed_array.
    eapply raw_set_closed; [|exact Hop|exact Hset]. by apply closed_array.
  - unfold CrioArray_setIn. destruct (negb _); [done|]. by apply Hdeep.
  - unfold CrioArray_shift. rewrite Hc. unfold CrioArray_slice.
    apply CrioArray_new_wf; [done|]. unfold slice_items.
    by apply Forall_take, Forall_drop.
  - destruct args as [|a args]; [done|]. unfold CrioArray_slice.
    apply CrioArray_new_wf; [done|]. unfold slice_items.
    by apply Forall_take, Forall_drop.
  - unfold CrioArray_sort. apply Hgate. by rewrite Hop.
  - unfold CrioArray_splice. apply Hgate. unfold splice_items.
    apply Forall_app. split; [by apply Forall_take|].
    apply Forall_app. split; by apply Forall_drop.
  - destruct items as [|a items]; [done|]. unfold CrioArray_unshift.
    apply CrioArray_new_wf; [done|]. by apply Forall_app.
  - unfold CrioObject_merge. cbn [isCrio negb]. rewrite assign_each_fields.
    apply (gate_wf st l c); auto; [|by eexists].
    apply closed_assign; [by apply Forall_bind_closed|].
    by apply (own_enumerable_closed st l c).
  - done.
  - unfold CrioObject_set. cbn [raw_set].
    apply (gate_wf st l c); auto; [|by eexists].
    apply closed_field_set; [|done]. by apply (own_enumerable_closed st l c).
  - unfold CrioObject_setIn. destruct (negb _); [done|]. by apply Hdeep.
Qed.

(** The store after [crio([1, 2, 3]).push({a: 1})]. *)
Lemma operations_keep_store_well_formed_witness :
  wf_store (H := tree_utils)
    (perform (H := tree_utils) (ArrayPush [object_a1]) (VCrio 0) store_123).2.
Proof.
  refine (operations_keep_store_well_formed (H := tree_utils)
            (ArrayPush [object_a1]) (VCrio 0) store_123 _
            (crio_wf (H := tree_utils) array_123 [] wf_store_nil I)
            _ eq_refl eq_refl _ _); repeat constructor.
Defined.

(** ** The entry function *)

(** X25.  [crio] returns, and is idempotent.  Let [v] be a value as the
    embedding has them: a finite tree of plain arrays, plain objects,
    primitives and collections of the store, so without a cycle (which the
    recursion of the source would follow without end).  [crio(v)] returns.  A
    value that is not a plain array or object comes back as it is and nothing
    is allocated; a plain array or object comes back as a collection allocated
    by the call.  Applied to its own result, [crio], like [getRealValue],
    returns that result and allocates nothing. *)
Theorem crio_is_idempotent `{Utils} :
  ∀ (v : value) (st : store),
    ∃ r st',
      crio v st = (Ok r, st')
      ∧ crio r st' = (Ok r, st')
      ∧ getRealValue r st' = (r, st')
      ∧ (is_raw v = false → r = v ∧ st' = st)
      ∧ (is_raw v = true →
         ∃ l c, r = VCrio l ∧ st' !! l = Some c ∧ length st ≤ l).
Proof.
  intros v st.
  assert (∀ l c (s : store), s !! l = Some c →
                             crio (VCrio l) s = (Ok (VCrio l), s)) as Hcell.
  { intros l c s Hl. unfold crio. cbn [isArray isObject]. rewrite Hl.
    destruct (c_type c); by cbn. }
  destruct (is_raw v) eqn:Hraw.
  - destruct (getRealValue_raw_fresh v st Hraw) as (st1 & c & E & Hp & _).
    exists (VCrio (length st1)), (st1 ++ [c]).
    split; [by rewrite (crio_raw v st Hraw), E|].
    split; [apply (Hcell _ c); by rewrite list_lookup_middle|].
    split; [done|]. split; [done|]. intros _.
    exists (length st1), c. split; [done|].
    split; [by rewrite list_lookup_middle|by apply prefix_length].
  - exists v, st.
    assert (crio v st = (Ok v, st)) as Hv.
    { destruct v as [| | | | | | |l]; try done. unfold crio.
      cbn [isArray isObject]. destruct (st !! l) as [c|]; [|done].
      destruct (c_type c); by cbn. }
    split; [done|]. split; [done|].
    split; [by apply getRealValue_not_raw|]. split; done.
Qed.

(** ** What a collection lists *)

Lemma Forall_getRealValue_spec `{Utils} {A} (f : A → value) (l : list A) :
  Forall (λ a, ∀ st r st', wf_store st → closed (length st) (f a) →
                           getRealValue (f a) st = (r, st') →
                           construct_post (f a) st r st') l.
Proof.
  apply list.Forall_true. intros a st r st'. apply getRealValue_spec.
Qed.

(** X26.  The keys of a collection follow its input.  In a well-formed store,
    take a plain object that holds only collections of the store and whose
    property names, at every depth, are plain: none is named as a member of
    the two classes or of [Object.prototype], [__proto__] among them.  The
    collection [crio] builds from it lists as [keys()] the names of the
    input's properties, in the input's order, without [$$hashCode], [$$type]
    and [length], and its [length] is their number; the one built from such a
    plain array lists the indices as strings, and its [length] is the number
    of elements. *)
Theorem keys_follow_the_input `{Utils} :
  ∀ (st : store) (r : value) (st' : store),
    wf_store st →
    (∀ fields,
       closed (length st) (VObj fields) →
       plain_names (VObj fields) = true →
       crio (VObj fields) st = (Ok r, st') →
       keys st' r
       = map key_name (filter (λ k, is_native k = false) fields.*1)
       ∧ get_prop st' r (KStr "length")
         = Ok (VNum (Z.of_nat
                       (length (filter (λ k, is_native k = false) fields.*1)))))
    ∧ (∀ items,
         closed (length st) (VArr items) →
         plain_names (VArr items) = true →
         crio (VArr items) st = (Ok r, st') →
         keys st' r = map (λ i, VStr (pretty i)) (seq 0 (length items))
         ∧ get_prop st' r (KStr "length")
           = Ok (VNum (Z.of_nat (length items)))).
Proof.
  intros st r st' Hwf. split.
  - intros fields Hcl _ Hrun. unfold crio in Hrun.
    cbn [isArray isObject CrioObject_new getRealValue] in Hrun.
    change (forEach _ fields st) with (forEach field_fn fields st) in Hrun.
    destruct (forEach field_fn fields st) as [slots st1] eqn:Hfields.
    unfold alloc in Hrun. inversion Hrun; subst r st'. clear Hrun.
    cbn [closed] in Hcl. apply andb_True in Hcl as [Hcl _].
    destruct (forEach_fields fields (Forall_getRealValue_spec snd fields)
                st slots st1 Hwf Hcl Hfields) as (_ & _ & _ & Hkeys & _).
    unfold keys, OBJECT_KEYS. cbn [own_enumerable get_prop].
    rewrite list_lookup_middle by done. cbn [c_slots].
    split; [by rewrite Hkeys|].
    unfold crio_prop. cbn [c_slots c_length].
    assert (field_lookup (KStr "length") (omap id slots) = None) as ->.
    { apply field_lookup_None_keys. rewrite Hkeys.
      intros Hin. by apply list_elem_of_filter in Hin as [Hin _]. }
    rewrite decide_True by done. by rewrite <- Hkeys, length_fmap.
  - intros items Hcl _ Hrun. unfold crio in Hrun.
    cbn [isArray CrioArray_new getRealValue] in Hrun.
    destruct (forEach getRealValue items st) as [items' st1] eqn:Hitems.
    unfold alloc in Hrun. inversion Hrun; subst r st'. clear Hrun.
    cbn [closed] in Hcl.
    destruct (forEach_getRealValue items (Forall_getRealValue_spec id items)
                st items' st1 Hwf Hcl Hitems) as (_ & _ & _ & Hlen & _).
    unfold keys, OBJECT_KEYS. cbn [own_enumerable get_prop].
    rewrite list_lookup_middle by done. cbn [c_slots].
    split; [by rewrite key_name_index_slots, Hlen|].
    unfold crio_prop. cbn [c_slots c_length].
    rewrite field_lookup_index_slots_name. by rewrite decide_True.
Qed.

(** The keys of [crio({length: 5, a: 1})]. *)
Lemma keys_follow_the_input_witness :
  keys (crio (H := tree_utils) object_length_a []).2 (VCrio 0) = [VStr "a"].
Proof.
  exact (proj1 (proj1 (keys_follow_the_input (H := tree_utils)
                         [] (VCrio 0) _ wf_store_nil)
                  [(KStr "length", VNum 5); (KStr "a", VNum 1)]
                  ltac:(vm_compute; exact I) eq_refl eq_refl)).
Defined.

(** ** Thawing gives plain data *)

(** X27.  [thaw] returns plain data, and freezing it again gives an equal
    collection.  In a well-formed store whose slots have plain names (none is
    named as a member of the two classes or of [Object.prototype]), [thaw] of
    a collection returns: the method of its class, with the calls of [thaw] it
    makes on the collections it holds, gives a value that holds no collection
    at any depth and no property named [$$hashCode], [$$type] or [length], and
    the store is as it was.  Let the hash be a function of the content alone:
    [crio] of the thawed data of a collection whose hash code is the hash of
    its own content is a new collection that thaws to the same data and
    [equals] the original. *)
Theorem thaw_gives_plain_data `{Utils} :
  ∀ (st : store) (this : value) (c : frozen),
    wf_store st → plain_store st → instance st this = Some c →
    ∃ t,
      thaw_method this st = (Ok t, st)
      ∧ (c_type c = CrioArrayT → CrioArray_thaw this st = (Ok t, st))
      ∧ (c_type c = CrioObjectT → CrioObject_thaw this st = (Ok t, st))
      ∧ closed 0 t
      ∧ strip t = t
      ∧ (hash_of_content → hash_consistent st this →
         ∃ r st',
           crio t st = (Ok r, st')
           ∧ r ≠ this
           ∧ thaw_method r st' = (Ok t, st')
           ∧ CrioArray_equals r this st' = (Ok true, st')
           ∧ CrioObject_equals r this st' = (Ok true, st')).
Proof.
  intros st this c Hwf Hplain Hc. pose proof (proj1 Hwf) as Hs.
  destruct (receiver_thaws st this c Hs Hplain Hc) as [Hthaw Hnames].
  destruct (class_thaws_to st this c _ Hs Hc eq_refl Hnames) as [Harr Hobj].
  destruct (instance_not_null st this c Hc) as (l & -> & Hl).
  set (T := thaw st (VCrio l)) in *. exists T.
  assert (slot_ok (S l) (VCrio l)) as Hslot by (simpl; lia).
  split; [done|]. split; [done|]. split; [done|].
  split; [by apply (thaw_closed 0 st (VCrio l) (S l))|].
  split; [by apply (strip_thaw st (VCrio l) (S l))|].
  intros HI4 (c0 & Hc0 & Hh). rewrite Hc in Hc0. inversion Hc0; subst c0.
  pose proof (thaw_crio_raw st l c Hs Hl) as Hraw. fold T in Hraw, Hh.
  assert (Is_true (closed (length st) T)) as Hcl
      by (by apply (thaw_closed _ st (VCrio l) (S l))).
  destruct (getRealValue_raw_fresh T st Hraw) as (st1 & c1 & E & Hp & Hh1 & _).
  destruct (getRealValue_spec T st _ _ Hwf Hcl E) as (_ & Hwf' & _ & Hth).
  exists (VCrio (length st1)), (st1 ++ [c1]).
  split; [by rewrite (crio_raw T st Hraw), E|].
  split.
  { intros [= E1]. apply lookup_lt_Some in Hl. apply prefix_length in Hp. lia. }
  assert (∀ s, content s T = T) as HcT.
  { intros s. by apply (content_thaw s st (VCrio l) (S l)). }
  assert ((st1 ++ [c1]) !! length st1 = Some c1) as Hl1
      by (by rewrite list_lookup_middle).
  split.
  { apply thaws_to; [apply Hwf'|by exists c1| |done].
    rewrite Hth, HcT. by apply (strip_thaw st (VCrio l) (S l)). }
  assert ((st1 ++ [c1]) !! l = Some c) as Hl'.
  { apply (prefix_lookup_Some st); [done|].
    etrans; [exact Hp|]. by apply prefix_app_r. }
  destruct (equals_instances _ _ _ _ _ Hl1 Hl'
              (proj1 Hwf' _ _ Hl1) (proj1 Hwf' _ _ Hl')) as [E1 E2].
  rewrite E1, E2. rewrite bool_decide_eq_true_2; [done|].
  rewrite Hh1, Hh. apply HI4. by rewrite !HcT.
Qed.

(** [crio([1, 2, 3]).thaw()] is [[1, 2, 3]], and [crio] of it equals
    [crio([1, 2, 3])]. *)
Lemma thaw_gives_plain_data_witness :
  ∃ r st',
    crio (H := tree_utils) array_123 store_123 = (Ok r, st')
    ∧ r ≠ VCrio 0
    ∧ thaw_method r st' = (Ok array_123, st')
    ∧ CrioArray_equals r (VCrio 0) st' = (Ok true, st')
    ∧ CrioObject_equals r (VCrio 0) st' = (Ok true, st').
Proof.
  destruct (thaw_gives_plain_data (H := tree_utils) store_123 (VCrio 0) _
              (crio_wf (H := tree_utils) array_123 [] wf_store_nil I)
              ltac:(repeat constructor) eq_refl)
    as (t & Ht & _ & _ & _ & _ & Hround).
  vm_compute in Ht. injection Ht as <-.
  apply Hround; [exact tree_hash_of_content|].
  eexists. split; [reflexivity|]. vm_compute. reflexivity.
Defined.

(** ** [set], then [get] *)

Lemma thaw_primitive_inv st x v b :
  shape_ok st → slot_ok b x → b ≤ length st →
  thaw st x = v → primitive v = true → x = v.
Proof.
  intros Hs Hx Hb Hth Hv. destruct x as [| | | | | | |l];
    try (by rewrite thaw_plain in Hth); try done.
  simpl in Hx. destruct (lookup_lt_is_Some_2 st l) as [c Hl]; [lia|].
  pose proof (thaw_crio_raw st l c Hs Hl) as Hraw. rewrite Hth in Hraw.
  by destruct v.
Qed.

(** A primitive read from the thawed collection is what the collection
    itself holds there. *)
Lemma slot_of_thawed st st0 l c k v :
  shape_ok st → st !! l = Some c →
  match c_type c with
  | CrioArrayT => ∃ i, k = KIdx i
  | CrioObjectT => is_native k = false
  end →
  get_prop st0 (thaw st (VCrio l)) k = Ok v → primitive v = true →
  get_prop st (VCrio l) k = Ok v.
Proof.
  intros Hs Hl Hk Hget Hv. pose proof (Hs _ _ Hl) as Hok.
  pose proof (lookup_lt_Some _ _ _ Hl) as Hlt.
  rewrite (thaw_cell st l c Hs Hl) in Hget. cbn [get_prop]. rewrite Hl.
  destruct (c_type c) eqn:Ht.
  - destruct Hk as [i ->]. cbn [get_prop] in Hget. unfold item_at in Hget.
    rewrite crio_prop_idx, (cell_ok_slots_index l c Hok Ht).
    rewrite field_lookup_index_slots.
    rewrite (list_lookup_fmap (thaw st)) in Hget.
    destruct ((c_slots c).*2 !! i) as [x|] eqn:Hx; [|done].
    cbn in Hget. inversion Hget as [Hth]. cbn. f_equal.
    rewrite Hth. apply (thaw_primitive_inv st x v l Hs); auto; [|lia].
    apply list_elem_of_lookup_2, list_elem_of_fmap in Hx as ([k0 y] & -> & Hy).
    pose proof (ok_slots _ _ Hok) as Hsl. rewrite List.Forall_forall in Hsl.
    apply (Hsl (k0, y)). by apply list_elem_of_In.
  - cbn [get_prop] in Hget.
    rewrite (field_lookup_fmap_values (thaw st)) in Hget. unfold crio_prop.
    destruct (field_lookup k (c_slots c)) as [x|] eqn:Hx.
    + cbn in Hget. inversion Hget as [Hth]. f_equal. rewrite Hth.
      apply (thaw_primitive_inv st x v l Hs); auto; [|lia].
      apply (field_lookup_Some_Forall _ _ _ _ (ok_slots _ _ Hok) Hx).
    + cbn in Hget. inversion Hget; subst v.
      assert (∀ s, k ≠ KStr s ∨ is_native (KStr s) = false) as Hn.
      { intros s. destruct (decide (k = KStr s)) as [->|]; [by right|by left]. }
      destruct (decide (k = KStr "length")) as [->|]; [done|].
      destruct (decide (k = KStr "$$hashCode")) as [->|]; [done|].
      destruct (decide (k = KStr "$$type")) as [->|]; done.
Qed.

(** X28.  [set], then [get].  Let the hash have no collision, in a well-formed
    store whose slots have plain names (none is named as a member of the two
    classes or of [Object.prototype]), and let [v] be a primitive.  On an
    indexed collection, [get(i)] on what [set(i, v)] returns is [v], for every
    [i] up to the length; on a keyed collection, [get(k)] on what [set(k, v)]
    returns is [v], for every primitive key but [undefined], [null], the
    native names and the names of the members, [__proto__] and [get] among
    them.  Both calls are those of the members [set] and [get], which an own
    property of these names would hide. *)
Theorem set_then_get `{Utils} :
  hash_collision_free →
  ∀ (st : store) (this : value) (c : frozen) (v : value),
    wf_store st → plain_store st → instance st this = Some c →
    primitive v = true →
    (c_type c = CrioArrayT →
     ∀ i, i ≤ c_length c →
          ∃ st',
            (let* changed :=
               call_member "set" this
                 (CrioArray_set this (VNum (Z.of_nat i)) v) in
             call_member "get" changed
               (CrioArray_get changed (VNum (Z.of_nat i)))) st = (Ok v, st'))
    ∧ (c_type c = CrioObjectT →
       ∀ k, primitive k = true → k ≠ VUndef → k ≠ VNull →
            is_native (to_key st k) = false →
            plain_key (to_key st k) = true →
            ∃ st',
              (let* changed :=
                 call_member "set" this (CrioObject_set this k v) in
               call_member "get" changed (CrioObject_get changed k)) st
              = (Ok v, st')).
Proof.
  intros Hinj st this c v Hwf Hplain Hc Hv.
  assert (Is_true (closed (length st) v)) as Hclv by (by destruct v).
  pose proof (strip_content_primitive st v Hv) as Hnv.
  destruct (instance_not_null st this c Hc) as (l & -> & Hl).
  pose proof (proj1 Hwf) as Hs.
  assert (∀ m : M value, call_member "set" (VCrio l) m st = m st) as Hset.
  { intros m. unfold call_member. rewrite Hc.
    by rewrite (plain_cell_hides st l c "set" Hl
                  (plain_store_cell st l c Hplain Hl) eq_refl). }
  split.
  - intros Ht i Hi.
    destruct (proj1 (set_then_thaw_core st l c v Hinj Hwf Hl Hclv) Ht i Hi)
      as (r & st' & ts & Hrun & Hwf' & _ & Hts & Hlen & Hth).
    exists st'. unfold bind. rewrite Hset, Hrun.
    rewrite (CrioArray_set_candidate (VCrio l) c i v st Hc Hi) in Hrun.
    pose proof Hrun as Hkind.
    apply (gate_kind st l c) in Hkind as (l' & c' & -> & Hl' & Ht'); auto. unfold call_member. cbn [instance]. rewrite Hl'.
    rewrite (array_cell_hides st' l' c' "get" Hl' (proj1 Hwf' _ _ Hl') Ht').
    unfold CrioArray_get.
    cbn [to_key]. unfold key_of_number. rewrite decide_True by lia.
    rewrite Nat2Z.id. f_equal.
    apply (slot_of_thawed st' st' l' c'); auto; [apply Hwf'| |].
    { rewrite Ht'. by eexists. }
    rewrite Hth, Hnv. cbn [get_prop]. unfold item_at.
    rewrite lookup_app_r by (rewrite length_take; lia).
    rewrite length_take. replace (i `min` length ts) with i by lia.
    by rewrite Nat.sub_diag.
  - intros Ht k Hpk Hku Hkn Hk Hplk.
    destruct (proj2 (set_then_thaw_core st l c v Hinj Hwf Hl Hclv) Ht k Hk)
      as (r & st' & fs & Hrun & Hwf' & _ & Hfs & Hth).
    exists st'. unfold bind. rewrite Hset, Hrun.
    unfold CrioObject_set in Hrun. cbn [raw_set] in Hrun.
    pose proof Hrun as Hkind.
    apply (gate_kind st l c) in Hkind as (l' & c' & -> & Hl' & Ht'); auto. unfold call_member. cbn [instance]. rewrite Hl'.
    assert (hides st' (VCrio l') "get" = false) as ->.
    { pose proof (lookup_lt_Some _ _ _ Hl') as Hlt.
      unfold thaw in Hth. destruct (length st') as [|n] eqn:Hn; [lia|].
      apply (thawed_names_hide n st' l' c'); auto.
      rewrite Hth, Hnv. apply plain_names_field_set; auto.
      - by destruct v.
      - rewrite <- Hfs.
        apply (receiver_thaws st (VCrio l) c Hs Hplain Hc). }
    unfold CrioObject_get.
    rewrite (to_key_primitive st' st k Hpk).
    replace (match k with
             | VUndef | VNull => (Throw NativeTypeError, st')
             | _ => (get_prop st' (VCrio l') (to_key st k), st')
             end) with (get_prop st' (VCrio l') (to_key st k), st')
      by (by destruct k).
    f_equal.
    apply (slot_of_thawed st' st' l' c'); auto; [apply Hwf'| |].
    { by rewrite Ht'. }
    rewrite Hth, Hnv. cbn [get_prop]. by rewrite field_lookup_set_same.
Qed.

(** [crio([1, 2, 3]).set(1, 9).get(1)] is 9. *)
Lemma set_then_get_witness :
  ∃ st',
    (let* changed :=
       call_member "set" (VCrio 0)
         (CrioArray_set (H := tree_utils) (VCrio 0) (VNum 1) (VNum 9)) in
     call_member "get" changed
       (CrioArray_get (H := tree_utils) changed (VNum 1))) store_123
    = (Ok (VNum 9), st').
Proof.
  exact (proj1 (set_then_get (H := tree_utils) tree_hash_collision_free
                  store_123 (VCrio 0) _ (VNum 9)
                  (crio_wf (H := tree_utils) array_123 [] wf_store_nil I)
                  ltac:(repeat constructor) eq_refl eq_refl)
           eq_refl 1 ltac:(vm_compute; lia)).
Defined.

(** ** Adding plain arrays and objects *)

Lemma CrioArray_new_thaw `{Utils} items st :
  wf_store st → Forall (λ x, closed (length st) x) items →
  ∃ r st',
    CrioArray_new (VArr items) st = (Ok r, st')
    ∧ wf_store st'
    ∧ thaw st' r = VArr (map (λ x, strip (content st x)) items).
Proof.
  intros Hwf Hcl. unfold CrioArray_new.
  destruct (getRealValue (VArr items) st) as [r st'] eqn:Hrun.
  destruct (getRealValue_spec (VArr items) st r st' Hwf) as (_ & Hwf' & _ & Hth);
    [by apply closed_array|done|].
  exists r, st'. split; [done|]. split; [done|].
  rewrite Hth. cbn [content strip]. by rewrite map_map.
Qed.

(** X29.  [push] and [unshift] normalise what they add.  In a well-formed
    store whose slots have plain names (none is named as a member of the two
    classes or of [Object.prototype], [__proto__] among them), whatever the
    hash, and for items that hold only collections of the store and whose
    property names are plain at every depth, [push(...items)] on an indexed
    collection returns a collection whose [thaw] gives what the receiver's
    gives followed by the content of each item without native names, and
    [unshift(...items)], with at least one item, that content followed by
    what the receiver's [thaw] gives; the store stays well formed, so an item
    that is a plain array or object is held as a collection. *)
Theorem push_unshift_then_thaw `{Utils} :
  ∀ (st : store) (this : value) (c : frozen) (items : list value),
    wf_store st → plain_store st → instance st this = Some c →
    c_type c = CrioArrayT →
    Forall (λ x, closed (length st) x) items →
    Forall (λ x, plain_names x = true) items →
    ∃ ts,
      thaw_method this st = (Ok (VArr ts), st)
      ∧ (∃ r st',
           CrioArray_push this items st = (Ok r, st') ∧ wf_store st'
           ∧ thaw_method r st'
             = (Ok (VArr (ts ++ map (λ x, strip (content st x)) items)), st'))
      ∧ (items ≠ [] →
         ∃ r st',
           CrioArray_unshift this items st = (Ok r, st') ∧ wf_store st'
           ∧ thaw_method r st'
             = (Ok (VArr (map (λ x, strip (content st x)) items ++ ts)), st')).
Proof.
  intros st this c items Hwf Hplain Hc Ht Hitems Hnames.
  pose proof (proj1 Hwf) as Hs.
  destruct (receiver_thaws st this c Hs Hplain Hc) as [Hthaw Hpn].
  destruct (instance_not_null st this c Hc) as (l & -> & Hl).
  pose proof (array_like_closed st (VCrio l) c Hs Hc) as Hclone.
  destruct (thaw_array_items st l c Hs Hl Ht) as (ts & Hts & Hmap & _).
  rewrite Hts in Hthaw, Hpn. apply plain_names_array in Hpn.
  assert (Forall (λ x, plain_names x = true)
                 (map (λ x, strip (content st x)) items)) as Hadd.
  { rewrite List.Forall_forall in *. intros y Hy.
    apply in_map_iff in Hy as (x & <- & Hx).
    apply normal_plain_names; auto. apply Is_true_true. auto. }
  assert (∀ all r st' t,
            CrioArray_new (VArr all) st = (Ok r, st') → wf_store st' →
            thaw st' r = VArr (map (λ x, strip (content st x)) all) →
            map (λ x, strip (content st x)) all = t →
            Forall (λ x, plain_names x = true) t →
            thaw_method r st' = (Ok (VArr t), st')) as Hnew.
  { intros all r st' t Hrun Hwf' Hth <- Hp.
    destruct (CrioArray_new_kind all st r st' Hrun) as (l' & c' & -> & Hl' & _).
    apply thaws_to; [apply Hwf'|by exists c'|done|by apply plain_names_array]. }
  exists ts. split; [done|]. split.
  - destruct (CrioArray_new_thaw (array_like st (VCrio l) ++ items) st Hwf)
      as (r & st' & Hrun & Hwf' & Hth); [by apply Forall_app|].
    exists r, st'. rewrite CrioArray_push_new. split; [done|].
    split; [done|]. apply (Hnew _ _ _ _ Hrun Hwf' Hth).
    + by rewrite map_app, Hmap.
    + by apply Forall_app.
  - intros Hne.
    destruct (CrioArray_new_thaw (items ++ array_like st (VCrio l)) st Hwf)
      as (r & st' & Hrun & Hwf' & Hth); [by apply Forall_app|].
    exists r, st'. split; [by destruct items|].
    split; [done|]. apply (Hnew _ _ _ _ Hrun Hwf' Hth).
    + by rewrite map_app, Hmap.
    + by apply Forall_app.
Qed.

(** [crio([1, 2, 3]).push({length: 5, a: 1}).thaw()] is
    [[1, 2, 3, {a: 1}]]. *)
Lemma push_unshift_then_thaw_witness :
  ∃ r st',
    CrioArray_push (H := tree_utils) (VCrio 0) [object_length_a] store_123
    = (Ok r, st')
    ∧ thaw_method r st'
      = (Ok (VArr [VNum 1; VNum 2; VNum 3; VObj [(KStr "a", VNum 1)]]), st').
Proof.
  destruct (push_unshift_then_thaw (H := tree_utils) store_123 (VCrio 0) _
              [object_length_a]
              (crio_wf (H := tree_utils) array_123 [] wf_store_nil I)
              ltac:(repeat constructor) eq_refl eq_refl
              ltac:(repeat constructor) ltac:(repeat constructor))
    as (ts & Hts & (r & st' & Hrun & _ & Hth) & _).
  exists r, st'. split; [exact Hrun|].
  vm_compute in Hts. inversion Hts. subst ts. exact Hth.
Defined.

(** ** [map] and [filter] *)

(** X30.  [map] and [filter], then [thaw].  Let the hash have no collision, in
    a well-formed store whose slots have plain names (none is named as a
    member of the two classes or of [Object.prototype], [__proto__] among
    them).  [map(fn)] on an indexed collection, for a callback that returns
    values of plain property names at every depth, holding only collections
    of the store when given such values, returns a collection whose [thaw]
    gives the content, without native names, of the callback's results in
    index order; [filter(fn)], for any callback, returns one whose [thaw]
    gives the thawed elements at which the callback is truthy, in index
    order.  The callback is handed the slots themselves, a nested collection
    as a collection. *)
Theorem map_filter_then_thaw `{Utils} :
  hash_collision_free →
  ∀ (st : store) (this : value) (c : frozen)
    (fn : value → nat → value → value),
    wf_store st → plain_store st → instance st this = Some c →
    c_type c = CrioArrayT →
    ((∀ i x, closed (length st) x → closed (length st) (fn x i this)) →
     (∀ i x, plain_names (fn x i this) = true) →
     ∃ r st',
       CrioArray_map this fn st = (Ok r, st')
       ∧ thaw_method r st'
         = (Ok (VArr (imap (λ i x, strip (content st (fn x i this)))
                           (array_like st this))), st'))
    ∧ (∃ r st',
         CrioArray_filter this fn st = (Ok r, st')
         ∧ thaw_method r st'
           = (Ok (VArr (omap id
                          (imap (λ i x, if truthy (fn x i this)
                                        then Some (thaw st x) else None)
                                (array_like st this)))), st')).
Proof.
  intros Hinj st this c fn Hwf Hplain Hc Ht. pose proof (proj1 Hwf) as Hs.
  pose proof (array_like_plain_names st this c Hs Hc) as Hpn.
  destruct (instance_not_null st this c Hc) as (l & -> & Hl).
  pose proof (array_like_closed st (VCrio l) c Hs Hc) as Hclone.
  pose proof (array_like_slot_ok st (VCrio l) c Hs Hc) as Hslots.
  split.
  - intros Hfn Hnames.
    destruct (gate_thaws st l c
                (VArr (imap (λ i x, fn x i (VCrio l)) (array_like st (VCrio l))))
                CrioArrayT Hinj Hwf Hplain Hl)
      as (r & st' & Hrun & _ & _ & _ & _ & Hth).
    { cbn [closed]. apply closed_imap. intros i x Hx. apply Hfn.
      rewrite List.Forall_forall in Hclone. apply Hclone, list_elem_of_In.
      by eapply list_elem_of_lookup_2. }
    { apply plain_names_imap. intros i x _. apply Hnames. }
    { by eexists. }
    exists r, st'. split; [done|]. rewrite Hth. cbn [content strip].
    do 3 f_equal. rewrite map_map. change (map ?f ?x) with (f <$> x).
    by rewrite fmap_imap.
  - set (kept := omap id (imap (λ i x, if truthy (fn x i (VCrio l))
                                       then Some x else None)
                               (array_like st (VCrio l)))).
    destruct (gate_thaws st l c (VArr kept) CrioArrayT Hinj Hwf Hplain Hl)
      as (r & st' & Hrun & _ & _ & _ & _ & Hth).
    { apply closed_array.
      by apply (Forall_kept _ (λ i x, truthy (fn x i (VCrio l)))). }
    { apply plain_names_array.
      by apply (Forall_kept _ (λ i x, truthy (fn x i (VCrio l)))). }
    { by eexists. }
    exists r, st'. split; [done|]. rewrite Hth. cbn [content strip].
    do 3 f_equal. rewrite map_map. unfold kept.
    clear -Hs Hslots. revert Hslots. generalize (array_like st (VCrio l)).
    intros items Hslots.
    assert (∀ keep : nat → value → bool,
              map (λ x, strip (content st x))
                  (omap id (imap (λ i x, if keep i x then Some x else None)
                                 items))
              = omap id (imap (λ i x, if keep i x then Some (thaw st x)
                                      else None) items)) as Hgen.
    { induction Hslots as [|x r Hx _ IH]; intros keep; [done|].
      cbn [imap omap list_omap]. destruct (keep 0 x); cbn [id map].
      - f_equal; [|apply (IH (keep ∘ S))].
        rewrite (content_slot st (length st) x Hx).
        by apply (strip_thaw st x (length st)).
      - apply (IH (keep ∘ S)). }
    apply (Hgen (λ i x, truthy (fn x i (VCrio l)))).
Qed.

(** [crio([1, 2, 3]).filter(x => x > 1).thaw()] is [[2, 3]]. *)
Lemma map_filter_then_thaw_witness :
  ∃ r st',
    CrioArray_filter (H := tree_utils) (VCrio 0)
      (λ x _ _, VBool (bool_decide (number_gt (to_number x) 1 = true)))
      store_123 = (Ok r, st')
    ∧ thaw_method r st' = (Ok (VArr [VNum 2; VNum 3]), st').
Proof.
  destruct (proj2 (map_filter_then_thaw (H := tree_utils)
                     tree_hash_collision_free store_123 (VCrio 0) _
                     (λ x _ _, VBool (bool_decide
                                        (number_gt (to_number x) 1 = true)))
                     (crio_wf (H := tree_utils) array_123 [] wf_store_nil I)
                     ltac:(repeat constructor) eq_refl eq_refl))
    as (r & st' & Hrun & Hth).
  exists r, st'. split; [exact Hrun|exact Hth].
Defined.
